(** * lp-model: a shallow embedding of the model class, the LP-format
      reader and writer, and the three solver bridges.

    Conventions of the embedding.

    - A JavaScript number is an exact integer or NaN ([number]).  Sums,
      negation, doubling and the comparison with zero are the exact ones:
      they are those of the code as long as every number met is an integer
      of magnitude at most 2^53, where the arithmetic of doubles is exact.
      The rounding of IEEE doubles beyond that range, fractions and the
      infinities are outside the embedding; the theorems that evaluate the
      code do so at small integers.
    - A thrown exception is the [Throw] case of [result].  Methods of the
      model class are strict-mode code, so the assignment of a property to a
      primitive value throws a TypeError.
    - The model object is passed explicitly: a method that mutates [this]
      returns the new model.
    - An expression is a JavaScript array whose entries are numbers, Var
      objects or arrays; its entries are [item]s and the entries of an inner
      array are [elt]s.  A term holds the Var object it was built with; the
      functions below read only its name through a term. *)

From Stdlib Require Import ZArith List String Ascii Bool Lia Permutation.
Import ListNotations.

Local Open Scope string_scope.
Local Open Scope Z_scope.

(* ================================================================== *)
(** ** Results and exceptions *)

Inductive error : Type :=
| InvalidVariableType
| InvalidLowerBound
| InvalidUpperBound
| NameAlreadyUsed
| InvalidSense
| InvalidComparisonOperator
| InvalidTerm                 (* Invalid term: must be [coefficient, variable] *)
| InvalidQuadraticTerm        (* Invalid quadratic term *)
| InvalidItemLength           (* Invalid expression item: array of another length *)
| InvalidExpressionItem       (* Invalid expression item. *)
| QuadraticUnsupported        (* GLPK.js does not support quadratic models. *)
| TypeError
| SyntaxError
| EngineError.

Inductive result (A : Type) : Type :=
| Ok (a : A)
| Throw (e : error).
Arguments Ok {A} a.
Arguments Throw {A} e.

Definition bind {A B} (r : result A) (f : A -> result B) : result B :=
  match r with
  | Ok a => f a
  | Throw e => Throw e
  end.

Notation "'do' x <- r ; k" := (bind r (fun x => k))
  (at level 10, x pattern, r at level 100, k at level 200).

Fixpoint mapM {A B} (f : A -> result B) (l : list A) : result (list B) :=
  match l with
  | [] => Ok []
  | a :: l' => do b <- f a; do bs <- mapM f l'; Ok (b :: bs)
  end.

(* ================================================================== *)
(** ** Numbers and their text *)

Inductive number : Type :=
| Num (z : Z)
| NaN.

Definition number_add (a b : number) : number :=
  match a, b with
  | Num x, Num y => Num (x + y)
  | _, _ => NaN
  end.

Definition number_neg (a : number) : number :=
  match a with
  | Num x => Num (- x)
  | NaN => NaN
  end.

Definition number_mul (a b : number) : number :=
  match a, b with
  | Num x, Num y => Num (x * y)
  | _, _ => NaN
  end.

Definition number_abs (a : number) : number :=
  match a with
  | Num x => Num (Z.abs x)
  | NaN => NaN
  end.

(** [a === 0] *)
Definition is_zero (a : number) : bool :=
  match a with
  | Num 0 => true
  | _ => false
  end.

(** [a < 0] *)
Definition number_ltb0 (a : number) : bool :=
  match a with
  | Num x => x <? 0
  | NaN => false
  end.

Definition digit_char (d : nat) : ascii := ascii_of_nat (48 + d).

Fixpoint digits_of_pos_fuel (fuel : nat) (n : Z) (acc : string) : string :=
  match fuel with
  | O => acc
  | S fuel' =>
      let acc' := String (digit_char (Z.to_nat (n mod 10))) acc in
      if n <? 10 then acc' else digits_of_pos_fuel fuel' (n / 10) acc'
  end.

(** Decimal text of a non-negative integer; the number of digits of [n] is
    at most its size in bits plus one. *)
Definition digits_of_Z (n : Z) : string :=
  digits_of_pos_fuel (S (Z.to_nat (Z.log2 n))) n EmptyString.

(** [String(n)], for an integer of magnitude below 10^21: from there on the
    built-in writes an exponent. *)
Definition number_toString (a : number) : string :=
  match a with
  | Num x => if x <? 0 then "-" ++ digits_of_Z (- x) else digits_of_Z x
  | NaN => "NaN"
  end.

Definition nat_toString (n : nat) : string := digits_of_Z (Z.of_nat n).

(* ================================================================== *)
(** ** Strings *)

(** [a > b] on strings: lexicographic on the character codes. *)
Definition string_gt (a b : string) : bool :=
  match String.compare a b with
  | Gt => true
  | _ => false
  end.

Definition is_upper (c : ascii) : bool :=
  let n := nat_of_ascii c in (Nat.leb 65 n && Nat.leb n 90)%bool.
Definition is_lower (c : ascii) : bool :=
  let n := nat_of_ascii c in (Nat.leb 97 n && Nat.leb n 122)%bool.
Definition is_digit (c : ascii) : bool :=
  let n := nat_of_ascii c in (Nat.leb 48 n && Nat.leb n 57)%bool.

Definition upper_char (c : ascii) : ascii :=
  if is_lower c then ascii_of_nat (nat_of_ascii c - 32) else c.
Definition lower_char (c : ascii) : ascii :=
  if is_upper c then ascii_of_nat (nat_of_ascii c + 32) else c.

Fixpoint string_map (f : ascii -> ascii) (s : string) : string :=
  match s with
  | EmptyString => EmptyString
  | String c r => String (f c) (string_map f r)
  end.

Definition toUpperCase : string -> string := string_map upper_char.
Definition toLowerCase : string -> string := string_map lower_char.

(** [s.startsWith(p)], and the rest of [s] after [p]. *)
Fixpoint strip_prefix (p s : string) : option string :=
  match p, s with
  | EmptyString, _ => Some s
  | String a p', String b s' => if Ascii.eqb a b then strip_prefix p' s' else None
  | String _ _, EmptyString => None
  end.

Definition startsWith (p s : string) : bool :=
  match strip_prefix p s with Some _ => true | None => false end.

(** [parts.join(sep)] *)
Fixpoint join (sep : string) (parts : list string) : string :=
  match parts with
  | [] => EmptyString
  | [p] => p
  | p :: rest => p ++ sep ++ join sep rest
  end.

(** [s.replace(/pat/g, by)] for a literal, non-empty pattern: leftmost
    matches, not overlapping. *)
Fixpoint replace_all_fuel (fuel : nat) (pat by_ s : string) : string :=
  match fuel with
  | O => s
  | S fuel' =>
      match strip_prefix pat s with
      | Some rest => by_ ++ replace_all_fuel fuel' pat by_ rest
      | None =>
          match s with
          | EmptyString => EmptyString
          | String c r => String c (replace_all_fuel fuel' pat by_ r)
          end
      end
  end.

Definition replace_all (pat by_ s : string) : string :=
  replace_all_fuel (S (String.length s)) pat by_ s.

(* ================================================================== *)
(** ** The data model: Var, Constr, Model *)

(** A bound given to the Var constructor: a number or one of the two strings
    [-infinity] and [+infinity]. *)
Inductive bound : Type :=
| BNum (n : number)
| BNegInf
| BPosInf.

Inductive VType : Type := CONTINUOUS | BINARY | INTEGER.

(** A primitive value held by a solution field. *)
Inductive prim : Type :=
| PUndefined
| PNull
| PBool (b : bool)
| PNum (n : number)
| PStr (s : string)
| PObject.                            (* an object or a function, not described further *)

(** [value] is not set by the constructor: it is attached by [solve] and by
    the solution readers, and is undefined until then. *)
Record Var : Type := mkVar {
  lb : bound;
  ub : bound;
  vtype : VType;
  name : string;
  value : prim
}.

(** An entry of an inner array. *)
Inductive elt : Type :=
| ENum (n : number)
| EStr (s : string)
| EVar (v : Var)
| EUndef.

(** An entry of an expression. *)
Inductive item : Type :=
| Elt (e : elt)
| Arr (l : list elt).

Definition expression := list item.

Record Constr : Type := mkConstr {
  lhs : expression;
  comparison : string;
  rhs : number;
  primal : prim;
  dual : prim
}.

Record objective_t : Type := mkObjective {
  obj_expression : expression;
  sense : string
}.

(* ------------------------------------------------------------------ *)
(** *** The responses of the three engines *)

(** highs: [{ Status, ObjectiveValue, Columns: { name: { Primal } },
    Rows: [{ Name, Primal, Dual }] }] *)
Record HighsRow : Type := mkHighsRow {
  Row_Name : string;
  Row_Primal : prim;
  Row_Dual : prim
}.

Record HighsSolution : Type := mkHighsSolution {
  Status : string;
  ObjectiveValue : number;
  Columns : list (string * prim);     (* name, column.Primal *)
  Rows : list HighsRow
}.

(** glpk.js: [{ result: { status, z, vars: { name: value },
    dual: { name: value } } }]; [dual] is absent from a MIP answer. *)
Record GLPKSolution : Type := mkGLPKSolution {
  result_status : number;
  result_z : number;
  result_vars : list (string * prim);
  result_dual : option (list (string * prim))
}.

(** jsLPSolver: one flat object, [{ feasible, result, bounded, isIntegral,
    name: value, ... }]; the values of the variables share the object with
    the four fields. *)
Record JSLPSolution : Type := mkJSLPSolution {
  feasible : bool;
  js_result : number;
  bounded : bool;
  isIntegral : option bool;
  js_values : list (string * number)
}.

Inductive solver_response : Type :=
| NoSolution
| FromJSLPSolver (s : JSLPSolution)
| FromGLPK (s : GLPKSolution)
| FromHighs (s : HighsSolution).

Record Model : Type := mkModel {
  variables : list (string * Var);    (* a Map: insertion order, unique keys *)
  constraints : list Constr;
  objective : objective_t;
  varCount : nat;
  solution : solver_response;
  status : prim;
  ObjVal : prim
}.

(** [new Model()] *)
Definition new_Model : Model :=
  {| variables := [];
     constraints := [];
     objective := {| obj_expression := [Elt (ENum (Num 0))]; sense := "MAXIMIZE" |};
     varCount := 0;
     solution := NoSolution;
     status := PNull;
     ObjVal := PNull |}.

(* ------------------------------------------------------------------ *)
(** *** Maps and plain objects used as maps *)

Section Assoc.
Context {V : Type}.

(** [map.get(k)], [k in obj] *)
Fixpoint assoc_get (k : string) (l : list (string * V)) : option V :=
  match l with
  | [] => None
  | (k', v) :: l' => if String.eqb k k' then Some v else assoc_get k l'
  end.

Definition assoc_has (k : string) (l : list (string * V)) : bool :=
  match assoc_get k l with Some _ => true | None => false end.

(** [map.set(k, v)], [obj[k] = v]: an existing key keeps its place, a new
    key goes last. *)
Fixpoint assoc_set (k : string) (v : V) (l : list (string * V)) : list (string * V) :=
  match l with
  | [] => [(k, v)]
  | (k', v') :: l' =>
      if String.eqb k k' then (k, v) :: l' else (k', v') :: assoc_set k v l'
  end.

(** [delete obj[k]] *)
Fixpoint assoc_delete (k : string) (l : list (string * V)) : list (string * V) :=
  match l with
  | [] => []
  | (k', v') :: l' =>
      if String.eqb k k' then assoc_delete k l' else (k', v') :: assoc_delete k l'
  end.
End Assoc.

(* ================================================================== *)
(** ** The property bag [combined] of parseExpression

    [combined] is a plain object, created as [{ constant: 0 }].  The running
    constant and the terms live in the same object, the terms under the
    variable's name (or the pair key of a quadratic term).  A slot holds a
    number, an array, or, once an array was added to a number with [+=], a
    string. *)

Inductive slot : Type :=
| SNum (n : number)
| SStr (s : string)
| SArr (l : list elt).

Definition bag := list (string * slot).

Definition item_of_slot (v : slot) : item :=
  match v with
  | SNum n => Elt (ENum n)
  | SStr s => Elt (EStr s)
  | SArr l => Arr l
  end.

(** The properties every plain object inherits from Object.prototype.  A read
    of one of these names on [combined] finds the inherited (truthy) value
    unless [combined] has an own property of that name.  (Under [__proto__]
    the value is Object.prototype itself, and the write that follows reaches
    every object of the program; the embedding does not follow it further.) *)
Definition Object_prototype_names : list string :=
  [ "constructor"; "hasOwnProperty"; "isPrototypeOf"; "propertyIsEnumerable";
    "toLocaleString"; "toString"; "valueOf"; "__proto__";
    "__defineGetter__"; "__defineSetter__"; "__lookupGetter__"; "__lookupSetter__" ].

Definition inherited (k : string) : bool :=
  existsb (String.eqb k) Object_prototype_names.

(** Truthiness of what a slot holds. *)
Definition truthy (v : slot) : bool :=
  match v with
  | SNum (Num z) => negb (z =? 0)
  | SNum NaN => false
  | SStr s => negb (String.eqb s EmptyString)
  | SArr _ => true
  end.

(** [String(e)] for an array entry, as Array.prototype.join renders it. *)
Definition elt_toString (e : elt) : string :=
  match e with
  | ENum n => number_toString n
  | EStr s => s
  | EVar _ => "[object Object]"
  | EUndef => EmptyString
  end.

(** [String(arr)] *)
Definition array_toString (l : list elt) : string :=
  join "," (map elt_toString l).

(** [e + coeff] *)
Definition elt_plus (e : elt) (coeff : number) : elt :=
  match e with
  | ENum a => ENum (number_add a coeff)
  | EStr s => EStr (s ++ number_toString coeff)
  | EVar _ => EStr ("[object Object]" ++ number_toString coeff)
  | EUndef => ENum NaN
  end.

(** [arr[0] += coeff] *)
Definition head_plus (l : list elt) (coeff : number) : list elt :=
  match l with
  | [] => [ENum NaN]
  | e :: r => elt_plus e coeff :: r
  end.

(** The statement
      [if (combined[key]) { combined[key][0] += coeff; } else { combined[key] = fresh; }]
    The true branch writes into the array the slot holds; on a number or a
    string it is an assignment to a property of a primitive and throws; on an
    inherited function it adds a property to that function and leaves
    [combined] as it is. *)
Definition accumulate (key : string) (coeff : number) (fresh : list elt)
    (combined : bag) : result bag :=
  match assoc_get key combined with
  | Some v =>
      if truthy v then
        match v with
        | SArr l => Ok (assoc_set key (SArr (head_plus l coeff)) combined)
        | _ => Throw TypeError
        end
      else Ok (assoc_set key (SArr fresh) combined)
  | None =>
      if inherited key then Ok combined
      else Ok (assoc_set key (SArr fresh) combined)
  end.

(** [combined['constant'] += n] *)
Definition add_constant (n : number) (combined : bag) : bag :=
  match assoc_get "constant" combined with
  | Some (SNum a) => assoc_set "constant" (SNum (number_add a n)) combined
  | Some (SStr s) => assoc_set "constant" (SStr (s ++ number_toString n)) combined
  | Some (SArr l) =>
      assoc_set "constant" (SStr (array_toString l ++ number_toString n)) combined
  | None => assoc_set "constant" (SNum NaN) combined
  end.

(* ------------------------------------------------------------------ *)
(** *** The order of [for (k in obj)]

    The own string keys of an ordinary object are listed with the array
    indices first, in ascending numeric order, then the other keys in the order
    of their creation. *)

Fixpoint digits_value (s : string) (acc : Z) : option Z :=
  match s with
  | EmptyString => Some acc
  | String c r =>
      if is_digit c then digits_value r (10 * acc + Z.of_nat (nat_of_ascii c - 48))
      else None
  end.

(** The value of [s] when [s] is an array index: a canonical numeric string
    (no sign, no leading zero) below 2^32 - 1. *)
Definition array_index (s : string) : option Z :=
  match s with
  | EmptyString => None
  | String c r =>
      if (Ascii.eqb c "0" && negb (String.eqb r EmptyString))%bool then None
      else match digits_value s 0 with
           | Some v => if v <? 4294967295 then Some v else None
           | None => None
           end
  end.

Fixpoint insert_by_index {V} (i : Z) (e : string * V) (l : list (Z * (string * V)))
    : list (Z * (string * V)) :=
  match l with
  | [] => [(i, e)]
  | (j, e') :: l' =>
      if i <? j then (i, e) :: l else (j, e') :: insert_by_index i e l'
  end.

Fixpoint index_entries {V} (l : list (string * V)) : list (Z * (string * V)) :=
  match l with
  | [] => []
  | e :: l' =>
      match array_index (fst e) with
      | Some i => insert_by_index i e (index_entries l')
      | None => index_entries l'
      end
  end.

Definition is_index_key {V} (e : string * V) : bool :=
  match array_index (fst e) with Some _ => true | None => false end.

Definition for_in {V} (l : list (string * V)) : list (string * V) :=
  map snd (index_entries l) ++ filter (fun e => negb (is_index_key e)) l.

(* ================================================================== *)
(** ** Model.parseExpression *)

(** [this.variables.get(n)] as an array entry: undefined when absent. *)
Definition get_var (m : Model) (n : string) : elt :=
  match assoc_get n (variables m) with
  | Some v => EVar v
  | None => EUndef
  end.

(** The canonical key of a quadratic term: the two names in order, joined. *)
Definition pair_names (v1 v2 : string) : string * string :=
  if string_gt v1 v2 then (v2, v1) else (v1, v2).

Definition termName (v1 v2 : string) : string :=
  let '(a, b) := pair_names v1 v2 in a ++ "_***_" ++ b.

(** One turn of the loop over the items. *)
Definition parse_item (m : Model) (combined : bag) (it : item) : result bag :=
  match it with
  | Arr [coeff; varObj] =>
      match varObj, coeff with
      | EVar v, ENum c => accumulate (name v) c [ENum c; EVar v] combined
      | _, _ => Throw InvalidTerm
      end
  | Arr [coeff; varObj1; varObj2] =>
      match varObj1, varObj2, coeff with
      | EVar x, EVar y, ENum c =>
          let '(v1, v2) := pair_names (name x) (name y) in
          accumulate (v1 ++ "_***_" ++ v2) c [ENum c; get_var m v1; get_var m v2] combined
      | _, _, _ => Throw InvalidQuadraticTerm
      end
  | Arr _ => Throw InvalidItemLength
  | Elt (EVar v) => accumulate (name v) (Num 1) [ENum (Num 1); EVar v] combined
  | Elt (ENum n) => Ok (add_constant n combined)
  | Elt _ => Throw InvalidExpressionItem
  end.

Fixpoint parse_items (m : Model) (combined : bag) (expr : expression) : result bag :=
  match expr with
  | [] => Ok combined
  | it :: rest => do combined' <- parse_item m combined it; parse_items m combined' rest
  end.

(** [combined[termName][0]] *)
Definition slot_head (v : slot) : elt :=
  match v with
  | SArr (e :: _) => e
  | SArr [] => EUndef
  | SNum _ => EUndef
  | SStr EmptyString => EUndef
  | SStr (String c _) => EStr (String c EmptyString)
  end.

(** [e !== 0] *)
Definition not_zero (e : elt) : bool :=
  match e with
  | ENum n => negb (is_zero n)
  | _ => true
  end.

(** The end of parseExpression: the constant slot first, then the slots whose
    head is not zero, in the order of [for ... in]. *)
Definition emit (combined : bag) : expression :=
  let first := match assoc_get "constant" combined with
               | Some v => item_of_slot v
               | None => Elt EUndef
               end in
  first :: map (fun e => item_of_slot (snd e))
               (filter (fun e => not_zero (slot_head (snd e)))
                       (for_in (assoc_delete "constant" combined))).

Definition parseExpression (m : Model) (expr : expression) : result expression :=
  do combined <- parse_items m [("constant", SNum (Num 0))] expr;
  Ok (emit combined).

(* ================================================================== *)
(** ** Methods that mutate the model: state and exceptions *)

Definition M (A : Type) : Type := Model -> Model * result A.

Definition ret {A} (a : A) : M A := fun m => (m, Ok a).
Definition throw {A} (e : error) : M A := fun m => (m, Throw e).
Definition lift {A} (r : result A) : M A := fun m => (m, r).
Definition getM : M Model := fun m => (m, Ok m).
Definition modify (f : Model -> Model) : M unit := fun m => (f m, Ok tt).

Definition bindM {A B} (c : M A) (f : A -> M B) : M B :=
  fun m =>
    match c m with
    | (m', Ok a) => f a m'
    | (m', Throw e) => (m', Throw e)
    end.

Notation "x <~ c ;; k" := (bindM c (fun x => k))
  (at level 61, c at next level, right associativity).
Notation "c ;;; k" := (bindM c (fun _ => k))
  (at level 61, right associativity).

(** [list.forEach(f)] for an [f] that mutates the model. *)
Fixpoint forEachM {A} (f : A -> M unit) (l : list A) : M unit :=
  match l with
  | [] => ret tt
  | a :: l' => f a ;;; forEachM f l'
  end.

Definition set_variables (vs : list (string * Var)) (m : Model) : Model :=
  {| variables := vs; constraints := constraints m; objective := objective m;
     varCount := varCount m; solution := solution m; status := status m;
     ObjVal := ObjVal m |}.

Definition set_constraints (cs : list Constr) (m : Model) : Model :=
  {| variables := variables m; constraints := cs; objective := objective m;
     varCount := varCount m; solution := solution m; status := status m;
     ObjVal := ObjVal m |}.

Definition set_objective (o : objective_t) (m : Model) : Model :=
  {| variables := variables m; constraints := constraints m; objective := o;
     varCount := varCount m; solution := solution m; status := status m;
     ObjVal := ObjVal m |}.

Definition set_varCount (n : nat) (m : Model) : Model :=
  {| variables := variables m; constraints := constraints m; objective := objective m;
     varCount := n; solution := solution m; status := status m;
     ObjVal := ObjVal m |}.

Definition set_solution (s : solver_response) (m : Model) : Model :=
  {| variables := variables m; constraints := constraints m; objective := objective m;
     varCount := varCount m; solution := s; status := status m;
     ObjVal := ObjVal m |}.

Definition set_status (s : prim) (m : Model) : Model :=
  {| variables := variables m; constraints := constraints m; objective := objective m;
     varCount := varCount m; solution := solution m; status := s;
     ObjVal := ObjVal m |}.

Definition set_ObjVal (v : prim) (m : Model) : Model :=
  {| variables := variables m; constraints := constraints m; objective := objective m;
     varCount := varCount m; solution := solution m; status := status m;
     ObjVal := v |}.

(* ------------------------------------------------------------------ *)
(** *** Var and addVar *)

Record VarOptions : Type := mkVarOptions {
  opt_lb : option bound;
  opt_ub : option bound;
  opt_vtype : option VType;
  opt_name : option string
}.

Definition no_options : VarOptions :=
  {| opt_lb := None; opt_ub := None; opt_vtype := None; opt_name := None |}.

Definition default {A} (d : A) (o : option A) : A :=
  match o with Some a => a | None => d end.

(** [new Var({ lb = 0, ub = '+infinity', vtype = 'CONTINUOUS', name })].
    The type [VType] holds the three accepted kinds only, so the check of the
    kind is by typing. *)
Definition new_Var (o : VarOptions) (n : string) : result Var :=
  let l := default (BNum (Num 0)) (opt_lb o) in
  let u := default BPosInf (opt_ub o) in
  match l with
  | BPosInf => Throw InvalidLowerBound
  | _ =>
      match u with
      | BNegInf => Throw InvalidUpperBound
      | _ => Ok {| lb := l; ub := u; vtype := default CONTINUOUS (opt_vtype o);
                   name := n; value := PUndefined |}
      end
  end.

(** The loop [while (this.variables.has(name)) name = `Var${this.varCount++}`]
    after a first [name = `Var${this.varCount++}`]: among the first
    [length vars + 1] candidates one is free, so the loop ends within the
    fuel. *)
Fixpoint generated_name (fuel : nat) (vars : list (string * Var)) (count : nat)
    : string * nat :=
  let n := "Var" ++ nat_toString count in
  match fuel with
  | O => (n, S count)
  | S fuel' =>
      if assoc_has n vars then generated_name fuel' vars (S count) else (n, S count)
  end.

Definition addVar (o : VarOptions) : M Var :=
  fun m =>
    let named (n : string) (m : Model) :=
      match new_Var o n with
      | Ok v => (set_variables (assoc_set n v (variables m)) m, Ok v)
      | Throw e => (m, Throw e)
      end in
    match opt_name o with
    | None =>
        let '(n, count) := generated_name (List.length (variables m)) (variables m) (varCount m) in
        named n (set_varCount count m)
    | Some n =>
        if assoc_has n (variables m) then (m, Throw NameAlreadyUsed) else named n m
    end.

(** [addVars(varNames, { lb, ub, vtype })], without the object it returns. *)
Definition addVars (varNames : list string) (o : VarOptions) : M unit :=
  forEachM (fun n m =>
              if assoc_has n (variables m) then (m, Throw NameAlreadyUsed)
              else match new_Var o n with
                   | Ok v => (set_variables (assoc_set n v (variables m)) m, Ok tt)
                   | Throw e => (m, Throw e)
                   end) varNames.

(* ------------------------------------------------------------------ *)
(** *** setObjective and addConstr *)

Definition setObjective (expr : expression) (sense_ : string) : M unit :=
  fun m =>
    let s := toUpperCase sense_ in
    if (String.eqb s "MAXIMIZE" || String.eqb s "MINIMIZE")%bool then
      match parseExpression m expr with
      | Ok e => (set_objective {| obj_expression := e; sense := sense_ |} m, Ok tt)
      | Throw e => (m, Throw e)
      end
    else (m, Throw InvalidSense).

(** [Number(s)] for the strings an expression can hold: the empty string and
    a decimal integer with an optional sign are numbers, anything else is
    NaN.  (A string enters an expression only through [add_constant], and
    then contains a comma.) *)
Definition string_toNumber (s : string) : number :=
  match s with
  | EmptyString => Num 0
  | String c r =>
      if Ascii.eqb c "-" then
        match r, digits_value r 0 with
        | String _ _, Some v => Num (- v)
        | _, _ => NaN
        end
      else if Ascii.eqb c "+" then
        match r, digits_value r 0 with
        | String _ _, Some v => Num v
        | _, _ => NaN
        end
      else match digits_value s 0 with
           | Some v => Num v
           | None => NaN
           end
  end.

(** [Number(e)] *)
Definition elt_toNumber (e : elt) : number :=
  match e with
  | ENum n => n
  | EStr s => string_toNumber s
  | EVar _ => NaN
  | EUndef => NaN
  end.

Definition item_toNumber (it : item) : number :=
  match it with
  | Elt e => elt_toNumber e
  | Arr l => string_toNumber (array_toString l)
  end.

(** The function mapped over the right side in addConstr. *)
Definition negate_term (term : item) : item :=
  match term with
  | Arr [c; v] => Arr [ENum (number_neg (elt_toNumber c)); v]
  | Arr [c; v1; v2] => Arr [ENum (number_neg (elt_toNumber c)); v1; v2]
  | _ => Elt (ENum (number_neg (item_toNumber term)))
  end.

Inductive rhs_arg : Type :=
| RhsNumber (n : number)
| RhsExpression (e : expression).

Definition valid_comparison (c : string) : bool :=
  (String.eqb c "<=" || String.eqb c "=" || String.eqb c ">=")%bool.

(** [expr[0] = 0] *)
Definition zero_constant (e : expression) : expression :=
  match e with
  | [] => [Elt (ENum (Num 0))]
  | _ :: terms => Elt (ENum (Num 0)) :: terms
  end.

(** [expr[0]] *)
Definition constant_slot (e : expression) : item :=
  match e with
  | [] => Elt EUndef
  | c :: _ => c
  end.

Definition addConstr (lhs_ : expression) (comparison_ : string) (rhs_ : rhs_arg) : M Constr :=
  fun m =>
    match parseExpression m lhs_ with
    | Throw e => (m, Throw e)
    | Ok l =>
        match (match rhs_ with
               | RhsNumber n => Ok [Elt (ENum n)]
               | RhsExpression e => parseExpression m e
               end) with
        | Throw e => (m, Throw e)
        | Ok r =>
            let cmp := if String.eqb comparison_ "==" then "=" else comparison_ in
            if valid_comparison cmp then
              let combinedLhs := (l ++ map negate_term r)%list in
              match parseExpression m combinedLhs with
              | Throw e => (m, Throw e)
              | Ok finalLhs =>
                  let finalRhs := number_neg (item_toNumber (constant_slot finalLhs)) in
                  let constraint :=
                    {| lhs := zero_constant finalLhs; comparison := cmp; rhs := finalRhs;
                       primal := PUndefined; dual := PUndefined |} in
                  (set_constraints (constraints m ++ [constraint])%list m, Ok constraint)
              end
            else (m, Throw InvalidComparisonOperator)
        end
    end.

(** [isQuadratic()] *)
Definition isQuadraticExpression (e : expression) : bool :=
  existsb (fun term => match term with
                       | Arr l => Nat.eqb (List.length l) 3
                       | Elt _ => false
                       end) e.

Definition isQuadratic (m : Model) : bool :=
  (isQuadraticExpression (obj_expression (objective m))
   || existsb (fun constr => isQuadraticExpression (lhs constr)) (constraints m))%bool.

(* ================================================================== *)
(** ** The writers: toLPFormat (lp-format.js and write-lp-format.js)

    Two modules export a function of this name.  The one of lp-format.js is
    the counterpart of fromLPFormat; the one of write-lp-format.js
    ([write_lp_format.toLPFormat] below) is the one the model class imports.
    They differ in the blank that starts a bounds line. *)

Definition nl : string := String (ascii_of_nat 10) EmptyString.

(** [`${e}`] *)
Definition elt_template (e : elt) : string :=
  match e with
  | ENum n => number_toString n
  | EStr s => s
  | EVar _ => "[object Object]"
  | EUndef => "undefined"
  end.

(** [`${e.name}`]: reading a property of undefined throws; a number or a
    string has no property [name]. *)
Definition elt_name (e : elt) : result string :=
  match e with
  | EVar v => Ok (name v)
  | ENum _ | EStr _ => Ok "undefined"
  | EUndef => Throw TypeError
  end.

Definition term_toString (term : item) : result string :=
  match term with
  | Arr [c; v] =>
      do n <- elt_name v;
      Ok (elt_template c ++ " " ++ n)
  | Arr [c; v1; v2] =>
      do n1 <- elt_name v1;
      do n2 <- elt_name v2;
      Ok ("[ " ++ number_toString (number_mul (elt_toNumber c) (Num 2)) ++ " "
               ++ n1 ++ " * " ++ n2 ++ " ]/2")
  | Arr _ => Ok EmptyString
  | Elt e => Ok (elt_template e)
  end.

Definition expressionToString (e : expression) : result string :=
  do parts <- mapM term_toString e;
  Ok (replace_all "+ -" "- " (join " + " parts)).

Definition lower_bound_text (b : bound) : string :=
  match b with
  | BNegInf => "-inf"
  | BNum n => number_toString n
  | BPosInf => "+infinity"
  end.

Definition upper_bound_text (b : bound) : string :=
  match b with
  | BPosInf => "+inf"
  | BNum n => number_toString n
  | BNegInf => "-infinity"
  end.

(** [varObj.lb !== 0 || varObj.ub !== '+infinity'] *)
Definition has_bounds_line (v : Var) : bool :=
  (negb (match lb v with BNum n => is_zero n | _ => false end)
   || negb (match ub v with BPosInf => true | _ => false end))%bool.

Fixpoint constraint_lines (cs : list Constr) (index : nat) : result string :=
  match cs with
  | [] => Ok EmptyString
  | constr :: rest =>
      do e <- expressionToString (tl (lhs constr));
      do more <- constraint_lines rest (S index);
      Ok (" c" ++ nat_toString (index + 1) ++ ": " ++ e ++ " " ++ comparison constr
               ++ " " ++ number_toString (rhs constr) ++ nl ++ more)
  end.

Definition bounds_lines (vars : list (string * Var)) : string :=
  String.concat EmptyString
    (map (fun '(varName, varObj) =>
            if has_bounds_line varObj then
              " " ++ lower_bound_text (lb varObj) ++ " <= " ++ varName ++ " <= "
                  ++ upper_bound_text (ub varObj) ++ nl
            else EmptyString) vars).

Definition names_of_kind (k : VType) (vars : list (string * Var)) : list string :=
  map fst (filter (fun '(_, varObj) =>
                     match vtype varObj, k with
                     | INTEGER, INTEGER | BINARY, BINARY => true
                     | _, _ => false
                     end) vars).

Definition toLPFormat (model : Model) : result string :=
  let expr := obj_expression (objective model) in
  let objExpression :=
    match expr with
    | Elt (ENum n) :: terms => if is_zero n then terms else expr
    | _ => expr
    end in
  do obj <- expressionToString objExpression;
  do subjectTo <- (match constraints model with
              | [] => Ok EmptyString
              | cs => do ls <- constraint_lines cs 0; Ok ("Subject To" ++ nl ++ ls)
              end);
  let generalVars := names_of_kind INTEGER (variables model) in
  let binaryVars := names_of_kind BINARY (variables model) in
  Ok ((if String.eqb (toUpperCase (sense (objective model))) "MAXIMIZE"
       then "Maximize" else "Minimize") ++ nl
      ++ "obj: " ++ obj ++ nl
      ++ subjectTo
      ++ "Bounds" ++ nl ++ bounds_lines (variables model)
      ++ (match generalVars with
          | [] => EmptyString
          | _ => "General" ++ nl ++ " " ++ join " " generalVars ++ nl
          end)
      ++ (match binaryVars with
          | [] => EmptyString
          | _ => "Binary" ++ nl ++ " " ++ join " " binaryVars ++ nl
          end)
      ++ "End" ++ nl).

(** The writer of write-lp-format.js.  Its helper expressionToString and
    the lines of the constraints are those of lp-format.js, statement for
    statement; a bounds line starts with the lower bound, with no blank
    before it. *)
Module write_lp_format.

Definition bounds_lines (vars : list (string * Var)) : string :=
  String.concat EmptyString
    (map (fun '(varName, varObj) =>
            if has_bounds_line varObj then
              lower_bound_text (lb varObj) ++ " <= " ++ varName ++ " <= "
                  ++ upper_bound_text (ub varObj) ++ nl
            else EmptyString) vars).

Definition toLPFormat (model : Model) : result string :=
  let expr := obj_expression (objective model) in
  let objExpression :=
    match expr with
    | Elt (ENum n) :: terms => if is_zero n then terms else expr
    | _ => expr
    end in
  do obj <- expressionToString objExpression;
  do subjectTo <- (match constraints model with
              | [] => Ok EmptyString
              | cs => do ls <- constraint_lines cs 0; Ok ("Subject To" ++ nl ++ ls)
              end);
  let generalVars := names_of_kind INTEGER (variables model) in
  let binaryVars := names_of_kind BINARY (variables model) in
  Ok ((if String.eqb (toUpperCase (sense (objective model))) "MAXIMIZE"
       then "Maximize" else "Minimize") ++ nl
      ++ "obj: " ++ obj ++ nl
      ++ subjectTo
      ++ "Bounds" ++ nl ++ bounds_lines (variables model)
      ++ (match generalVars with
          | [] => EmptyString
          | _ => "General" ++ nl ++ " " ++ join " " generalVars ++ nl
          end)
      ++ (match binaryVars with
          | [] => EmptyString
          | _ => "Binary" ++ nl ++ " " ++ join " " binaryVars ++ nl
          end)
      ++ "End" ++ nl).

End write_lp_format.

(** [Model.toLPFormat()]: the model class imports toLPFormat from
    write-lp-format.js. *)
Definition Model_toLPFormat (model : Model) : result string :=
  write_lp_format.toLPFormat model.

(* ================================================================== *)
(** ** The grammar: parse-lp-format.peggy

    A rule is a function from the input that is left to the value it returns
    and the input left after it, or [None] when it does not match.  A choice
    is ordered and, once an alternative has matched, is not entered again. *)

Definition parser (A : Type) : Type := string -> option (A * string).

Definition pbind {A B} (p : parser A) (f : A -> parser B) : parser B :=
  fun s => match p s with
           | Some (a, rest) => f a rest
           | None => None
           end.

Definition pret {A} (a : A) : parser A := fun s => Some (a, s).

(** [p / q] *)
Definition alt {A} (p q : parser A) : parser A :=
  fun s => match p s with
           | Some r => Some r
           | None => q s
           end.

(** [p?] *)
Definition opt {A} (p : parser A) : parser (option A) :=
  fun s => match p s with
           | Some (a, rest) => Some (Some a, rest)
           | None => Some (None, s)
           end.

(** [!p] *)
Definition not_ahead {A} (p : parser A) : parser unit :=
  fun s => match p s with
           | Some _ => None
           | None => Some (tt, s)
           end.

Notation "x <- p ;; k" := (pbind p (fun x => k))
  (at level 61, p at next level, right associativity).

(** Repetition of [p], zero or more times: every match of [p] takes at least one character, so the input
    bounds the number of turns. *)
Fixpoint many_fuel {A} (fuel : nat) (p : parser A) (s : string) : list A * string :=
  match fuel with
  | O => ([], s)
  | S fuel' =>
      match p s with
      | Some (a, rest) =>
          let '(l, rest') := many_fuel fuel' p rest in (a :: l, rest')
      | None => ([], s)
      end
  end.

Definition many {A} (p : parser A) : parser (list A) :=
  fun s => Some (many_fuel (S (String.length s)) p s).

(** [p+] *)
Definition many1 {A} (p : parser A) : parser (list A) :=
  fun s => match many p s with
           | Some (a :: l, rest) => Some (a :: l, rest)
           | _ => None
           end.

(** A literal; its value is the text matched. *)
Definition lit (p : string) : parser string :=
  fun s => match strip_prefix p s with
           | Some rest => Some (p, rest)
           | None => None
           end.

(** A literal with the flag [i]. *)
Fixpoint lit_i_aux (p s : string) : option (string * string) :=
  match p, s with
  | EmptyString, _ => Some (EmptyString, s)
  | String a p', String b s' =>
      if Ascii.eqb (lower_char a) (lower_char b) then
        match lit_i_aux p' s' with
        | Some (t, rest) => Some (String b t, rest)
        | None => None
        end
      else None
  | String _ _, EmptyString => None
  end.

Definition lit_i (p : string) : parser string := lit_i_aux p.

(** One character of a class. *)
Definition char_in (cls : ascii -> bool) : parser ascii :=
  fun s => match s with
           | String c rest => if cls c then Some (c, rest) else None
           | EmptyString => None
           end.

(** Any number of characters of a class, with the text matched. *)
Fixpoint take_while (cls : ascii -> bool) (s : string) : string * string :=
  match s with
  | String c rest =>
      if cls c then let '(t, rest') := take_while cls rest in (String c t, rest')
      else (EmptyString, s)
  | EmptyString => (EmptyString, EmptyString)
  end.

(** [[cls]+] *)
Definition take_while1 (cls : ascii -> bool) : parser string :=
  fun s => match take_while cls s with
           | (EmptyString, _) => None
           | (t, rest) => Some (t, rest)
           end.

Definition code_in (codes : list nat) (c : ascii) : bool :=
  existsb (Nat.eqb (nat_of_ascii c)) codes.

(** [[ \t\n\r]] *)
Definition is_blank : ascii -> bool := code_in [32; 9; 10; 13]%nat.

(** The punctuation of a variable name:
    ! dquote # $ % & ' ( ) * + , . / ; ? @ _ ` { | } ~ *)
Definition is_name_punct : ascii -> bool :=
  code_in [33; 34; 35; 36; 37; 38; 39; 40; 41; 42; 43; 44; 46; 47; 59; 63; 64;
           95; 96; 123; 124; 125; 126]%nat.

Definition is_name_start (c : ascii) : bool :=
  (is_lower c || is_upper c || is_name_punct c)%bool.

Definition is_name_char (c : ascii) : bool :=
  (is_name_start c || is_digit c)%bool.

Definition is_sign (c : ascii) : bool := code_in [43; 45]%nat c.
Definition is_not_newline (c : ascii) : bool := negb (Nat.eqb (nat_of_ascii c) 10).

Record term_t : Type := mkTerm {
  coefficient : number;
  variable : option string
}.

Record ParsedObjective : Type := mkParsedObjective {
  po_type : string;
  po_name : option string;
  po_expression : list term_t
}.

Record ParsedConstraint : Type := mkParsedConstraint {
  pc_name : option string;
  pc_expression : list term_t;
  pc_sense : string;
  pc_value : number
}.

(** A bound line: [{ variable, range: 'free' }], or [{ variable, lower, upper }]
    with one of the two possibly absent. *)
Record ParsedBound : Type := mkParsedBound {
  pb_variable : string;
  pb_free : bool;
  pb_lower : option bound;
  pb_upper : option bound
}.

Record lpfile_t : Type := mkLPFile {
  lp_objective : ParsedObjective;
  lp_constraints : list ParsedConstraint;
  lp_bounds : list ParsedBound;
  lp_general : list string;
  lp_binary : list string
}.

Section Grammar.

(** The built-in [parseFloat], applied by the grammar to the text of a
    number. *)
Variable parseFloat : string -> number.

(** The rule [_]: blanks, then any number of comments, each a backslash,
    the rest of its line with the newline, and blanks. *)
Definition comment : parser unit :=
  _ <- lit "\" ;;
  _ <- (fun s => Some (take_while is_not_newline s)) ;;
  _ <- lit nl ;;
  _ <- (fun s => Some (take_while is_blank s)) ;;
  pret tt.

Definition ws : parser unit :=
  _ <- (fun s => Some (take_while is_blank s)) ;;
  _ <- many comment ;;
  pret tt.

(** Number: digits, then optionally a dot and digits, then optionally an
    exponent (e, an optional sign, digits); with its text. *)
Definition NumberText : parser string :=
  int <- take_while1 is_digit ;;
  frac <- opt (d <- lit "." ;; f <- take_while1 is_digit ;; pret (d ++ f)) ;;
  exp <- opt (e <- lit_i "e" ;;
              sg <- opt (char_in is_sign) ;;
              x <- take_while1 is_digit ;;
              pret (e ++ match sg with
                         | Some c => String c EmptyString
                         | None => EmptyString
                         end ++ x)) ;;
  pret (int ++ default EmptyString frac ++ default EmptyString exp).

Definition Number : parser number :=
  t <- NumberText ;; pret (parseFloat t).

(** [SignedNumber = [+-]? Number] *)
Definition SignedNumber : parser number :=
  sg <- opt (char_in is_sign) ;;
  t <- NumberText ;;
  pret (parseFloat (match sg with
                    | Some c => String c t
                    | None => t
                    end)).

Definition BinaryHeader : parser string :=
  alt (lit_i "Binary") (alt (lit_i "Binaries") (lit_i "Bin")).

Definition GeneralHeader : parser string :=
  alt (lit_i "Generals") (alt (lit_i "General") (lit_i "Gen")).

(** VariableName: not at a Binary header, a General header or End; a
    start character, then any number of name characters. *)
Definition VariableName : parser string :=
  _ <- not_ahead BinaryHeader ;;
  _ <- not_ahead GeneralHeader ;;
  _ <- not_ahead (lit_i "End") ;;
  c <- char_in is_name_start ;;
  r <- (fun s => Some (take_while is_name_char s)) ;;
  pret (String c r).

Definition Term : parser term_t :=
  alt (c <- Number ;; _ <- ws ;; v <- VariableName ;;
       pret {| coefficient := c; variable := Some v |})
 (alt (v <- VariableName ;;
       pret {| coefficient := Num 1; variable := Some v |})
      (n <- Number ;;
       pret {| coefficient := n; variable := None |})).

Definition TermWithSign : parser term_t :=
  sg <- char_in is_sign ;;
  _ <- ws ;;
  term <- Term ;;
  pret {| coefficient :=
            number_mul (if Ascii.eqb sg "+" then Num 1 else Num (-1))
                       (number_abs (coefficient term));
          variable := variable term |}.

Definition Expression : parser (list term_t) :=
  first <- alt TermWithSign Term ;;
  rest <- many (_ <- ws ;;
                sg <- alt (lit "+") (lit "-") ;;
                _ <- ws ;;
                term <- alt TermWithSign Term ;;
                pret (if String.eqb sg "-"
                      then {| coefficient := number_neg (coefficient term);
                              variable := variable term |}
                      else term)) ;;
  pret (first :: rest).

(** [ConstraintSense = '<=' / '>=' / '=' / '=<' / '=>' / '<' { action }]:
    the action belongs to the last alternative alone; there [text()] is
    [<] and the action returns [<=]. *)
Definition ConstraintSense : parser string :=
  alt (lit "<=")
 (alt (lit ">=")
 (alt (lit "=")
 (alt (lit "=<")
 (alt (lit "=>")
      (t <- lit "<" ;;
       pret (if String.eqb t "<" then "<="
             else if String.eqb t ">" then ">=" else t)))))).

Definition Label : parser (option string) :=
  opt (n <- VariableName ;; _ <- lit ":" ;; pret n).

Definition Objective : parser ParsedObjective :=
  objectiveType <- alt (lit_i "Maximize") (alt (lit_i "Minimize")
                     (alt (lit_i "MAX") (lit_i "MIN"))) ;;
  _ <- ws ;;
  n <- Label ;;
  _ <- ws ;;
  expr <- Expression ;;
  pret {| po_type := if startsWith "max" (toLowerCase objectiveType) then "max" else "min";
          po_name := n;
          po_expression := expr |}.

Definition Constraint : parser ParsedConstraint :=
  n <- Label ;;
  _ <- ws ;;
  expr <- Expression ;;
  _ <- ws ;;
  sense_ <- ConstraintSense ;;
  _ <- ws ;;
  v <- SignedNumber ;;
  _ <- ws ;;
  pret {| pc_name := n; pc_expression := expr; pc_sense := sense_; pc_value := v |}.

Definition Constraints : parser (list ParsedConstraint) :=
  _ <- alt (lit_i "Subject To") (alt (lit_i "ST") (lit_i "S.T.")) ;;
  _ <- ws ;;
  many1 Constraint.

Definition InfinityNumber : parser bound :=
  alt (infinity <- alt (lit_i "-infinity") (alt (lit_i "+infinity")
                     (alt (lit_i "-inf") (lit_i "+inf"))) ;;
       pret (if startsWith "-" infinity then BNegInf else BPosInf))
      (n <- SignedNumber ;; pret (BNum n)).

Definition Bound : parser ParsedBound :=
  alt (v <- VariableName ;; _ <- ws ;; _ <- lit_i "free" ;; _ <- ws ;;
       pret {| pb_variable := v; pb_free := true; pb_lower := None; pb_upper := None |})
 (alt (lower <- InfinityNumber ;; _ <- ws ;; _ <- lit "<=" ;; _ <- ws ;;
       v <- VariableName ;; _ <- ws ;; _ <- lit "<=" ;; _ <- ws ;;
       upper <- InfinityNumber ;; _ <- ws ;;
       pret {| pb_variable := v; pb_free := false;
               pb_lower := Some lower; pb_upper := Some upper |})
 (alt (v <- VariableName ;; _ <- ws ;; _ <- lit "<=" ;; _ <- ws ;;
       upper <- InfinityNumber ;; _ <- ws ;;
       pret {| pb_variable := v; pb_free := false;
               pb_lower := None; pb_upper := Some upper |})
      (lower <- InfinityNumber ;; _ <- ws ;; _ <- lit "<=" ;; _ <- ws ;;
       v <- VariableName ;; _ <- ws ;;
       pret {| pb_variable := v; pb_free := false;
               pb_lower := Some lower; pb_upper := None |}))).

Definition Bounds : parser (list ParsedBound) :=
  _ <- lit_i "Bounds" ;; _ <- ws ;; many1 Bound.

Definition General : parser (list string) :=
  _ <- GeneralHeader ;; _ <- ws ;;
  many1 (v <- VariableName ;; _ <- ws ;; pret v).

Definition Binary : parser (list string) :=
  _ <- BinaryHeader ;; _ <- ws ;;
  many1 (v <- VariableName ;; _ <- ws ;; pret v).

Definition LPFile : parser lpfile_t :=
  _ <- ws ;; header <- Objective ;;
  _ <- ws ;; cs <- Constraints ;;
  _ <- ws ;; bounds <- opt Bounds ;;
  _ <- ws ;; general <- opt General ;;
  _ <- ws ;; binary <- opt Binary ;;
  _ <- ws ;; _ <- lit_i "End" ;; _ <- ws ;;
  pret {| lp_objective := header;
          lp_constraints := cs;
          lp_bounds := default [] bounds;
          lp_general := default [] general;
          lp_binary := default [] binary |}.

(** [parse(input)]: the start rule has to take the whole input. *)
Definition parse (input : string) : result lpfile_t :=
  match LPFile input with
  | Some (f, EmptyString) => Ok f
  | _ => Throw SyntaxError
  end.

End Grammar.

(* ================================================================== *)
(** ** The reader: fromLPFormat (lp-format.js) *)

(** Modelled from the spec: [model.clear()] is called by fromLPFormat and is
    not part of the model class in the sources; the documentation of
    readLPFormat says that it clears the model before variables and
    constraints are added.  The variables, the constraints and the objective
    go back to what the constructor sets. *)
Definition clear : M unit :=
  modify (fun m =>
    {| variables := []; constraints := [];
       objective := objective new_Model; varCount := 0;
       solution := solution m; status := status m; ObjVal := ObjVal m |}).

(** [model.variables.get(n).vtype = k] *)
Definition set_vtype (n : string) (k : VType) : M unit :=
  modify (fun m =>
    match assoc_get n (variables m) with
    | Some v =>
        set_variables
          (assoc_set n {| lb := lb v; ub := ub v; vtype := k; name := name v;
                          value := value v |} (variables m)) m
    | None => m
    end).

(** [new Set()] filled with [add]: the first occurrence of each key, in
    order.  The key of a constant term is null. *)
Definition option_string_eqb (a b : option string) : bool :=
  match a, b with
  | Some x, Some y => String.eqb x y
  | None, None => true
  | _, _ => false
  end.

Fixpoint set_add_all (keys seen : list (option string)) : list (option string) :=
  match keys with
  | [] => seen
  | k :: rest =>
      if existsb (option_string_eqb k) seen then set_add_all rest seen
      else set_add_all rest (seen ++ [k])
  end.

(** [term => [term.coefficient, model.variables.get(term.variable)]];
    [get(null)] is undefined. *)
Definition term_item (m : Model) (t : term_t) : item :=
  Arr [ENum (coefficient t);
       match variable t with
       | Some n => get_var m n
       | None => EUndef
       end].

Definition declare_kind (k : VType) (n : string) : M unit :=
  m <~ getM ;;
  if assoc_has n (variables m) then set_vtype n k
  else _ <~ addVar {| opt_lb := None; opt_ub := None; opt_vtype := Some k;
                      opt_name := Some n |} ;; ret tt.

Definition fromLPFormat (parseFloat : string -> number) (lpString : string) : M unit :=
  p <~ lift (parse parseFloat lpString) ;;
  clear ;;;
  forEachM (fun b =>
              let o := {| opt_lb := if pb_free b then Some BNegInf else pb_lower b;
                          opt_ub := if pb_free b then Some BPosInf else pb_upper b;
                          opt_vtype := None;
                          opt_name := Some (pb_variable b) |} in
              _ <~ addVar o ;; ret tt) (lp_bounds p) ;;;
  forEachM (declare_kind BINARY) (lp_binary p) ;;;
  forEachM (declare_kind INTEGER) (lp_general p) ;;;
  let allVariables :=
    set_add_all (map variable (po_expression (lp_objective p))
                 ++ flat_map (fun c => map variable (pc_expression c)) (lp_constraints p))%list
                [] in
  forEachM (fun v =>
              m <~ getM ;;
              match v with
              | Some n =>
                  if assoc_has n (variables m) then ret tt
                  else _ <~ addVar {| opt_lb := None; opt_ub := None; opt_vtype := None;
                                      opt_name := Some n |} ;; ret tt
              | None => _ <~ addVar no_options ;; ret tt
              end) allVariables ;;;
  m <~ getM ;;
  setObjective (map (term_item m) (po_expression (lp_objective p)))
               (if String.eqb (po_type (lp_objective p)) "max" then "MAXIMIZE" else "MINIMIZE") ;;;
  forEachM (fun c =>
              m <~ getM ;;
              _ <~ addConstr (map (term_item m) (pc_expression c)) (pc_sense c)
                             (RhsNumber (pc_value c)) ;;
              ret tt) (lp_constraints p).

(** [parseFloat] on the texts made of an optional sign and digits, the only
    ones the examples hold; on a text with a fraction or an exponent the
    built-in returns a number that is not an integer. *)
Definition parseFloat_integer (s : string) : number :=
  match s with
  | EmptyString => NaN
  | _ => string_toNumber s
  end.

(* ================================================================== *)
(** ** The glpk.js bridge (glpk-js-bridge.js) *)

Module glpk_consts.
Definition GLP_MIN : Z := 1.
Definition GLP_MAX : Z := 2.
Definition GLP_FR : Z := 1.
Definition GLP_LO : Z := 2.
Definition GLP_UP : Z := 3.
Definition GLP_DB : Z := 4.
Definition GLP_FX : Z := 5.
Definition GLP_UNDEF : Z := 1.
Definition GLP_FEAS : Z := 2.
Definition GLP_INFEAS : Z := 3.
Definition GLP_NOFEAS : Z := 4.
Definition GLP_OPT : Z := 5.
Definition GLP_UNBND : Z := 6.
End glpk_consts.
Import glpk_consts.

Record GLPKVar : Type := mkGLPKVar {
  gv_name : option string;            (* undefined when the entry has no name *)
  gv_coef : elt
}.

Record GLPKBnds : Type := mkGLPKBnds {
  bnds_type : Z;
  bnds_ub : bound;
  bnds_lb : bound
}.

Record GLPKRow : Type := mkGLPKRow {
  row_name : string;
  row_vars : list GLPKVar;
  row_bnds : GLPKBnds
}.

Record GLPKRequest : Type := mkGLPKRequest {
  glpk_name : string;
  glpk_direction : Z;
  glpk_objective_name : string;
  glpk_objective_vars : list GLPKVar;
  glpk_subjectTo : list GLPKRow;
  glpk_bounds : list (string * GLPKBnds);
  glpk_binaries : list string;
  glpk_generals : list string
}.

(** [term => ({ name: term[1].name, coef: term[0] })]: reading [name] of an
    undefined [term[1]] throws. *)
Definition glpk_var (term : item) : result GLPKVar :=
  match term with
  | Arr l =>
      match nth_error l 1 with
      | Some (EVar v) => Ok {| gv_name := Some (name v); gv_coef := nth 0 l EUndef |}
      | Some (ENum _) | Some (EStr _) => Ok {| gv_name := None; gv_coef := nth 0 l EUndef |}
      | Some EUndef | None => Throw TypeError
      end
  | Elt (EStr (String c0 (String _ _))) =>
      Ok {| gv_name := None; gv_coef := EStr (String c0 EmptyString) |}
  | Elt _ => Throw TypeError
  end.

Fixpoint glpk_rows (cs : list Constr) (index : nat) : result (list GLPKRow) :=
  match cs with
  | [] => Ok []
  | constr :: rest =>
      do vars <- mapM glpk_var (tl (lhs constr));
      do rows <- glpk_rows rest (S index);
      let cmp := comparison constr in
      Ok ({| row_name := "cons" ++ nat_toString (index + 1);
             row_vars := vars;
             row_bnds :=
               {| bnds_type := if String.eqb cmp "<=" then GLP_UP
                               else if String.eqb cmp ">=" then GLP_LO else GLP_DB;
                  bnds_ub := if String.eqb cmp "<=" then BNum (rhs constr) else BNum (Num 0);
                  bnds_lb := if String.eqb cmp ">=" then BNum (rhs constr) else BNum (Num 0) |}
          |} :: rows)
  end.

Definition is_neg_inf (b : bound) : bool :=
  match b with BNegInf => true | _ => false end.
Definition is_pos_inf (b : bound) : bool :=
  match b with BPosInf => true | _ => false end.

Definition toGLPKFormat (model : Model) : result GLPKRequest :=
  do ovars <- mapM glpk_var (tl (obj_expression (objective model)));
  do rows <- glpk_rows (constraints model) 0;
  Ok {| glpk_name := "LP";
        glpk_direction := if String.eqb (toUpperCase (sense (objective model))) "MAXIMIZE"
                          then GLP_MAX else GLP_MIN;
        glpk_objective_name := "obj";
        glpk_objective_vars := ovars;
        glpk_subjectTo := rows;
        glpk_bounds :=
          map (fun '(_, varObj) =>
                 (name varObj,
                  {| bnds_type := if is_neg_inf (lb varObj)
                                  then (if is_pos_inf (ub varObj) then GLP_FR else GLP_UP)
                                  else if is_pos_inf (ub varObj) then GLP_LO else GLP_DB;
                     bnds_ub := if is_pos_inf (ub varObj) then BNum (Num 0) else ub varObj;
                     bnds_lb := if is_neg_inf (lb varObj) then BNum (Num 0) else lb varObj |}))
              (variables model);
        glpk_binaries := names_of_kind BINARY (map (fun '(_, v) => (name v, v)) (variables model));
        glpk_generals := names_of_kind INTEGER (map (fun '(_, v) => (name v, v)) (variables model))
     |}.

(** [Model.toGLPKFormat()] *)
Definition Model_toGLPKFormat (model : Model) : result GLPKRequest :=
  if isQuadratic model then Throw QuadraticUnsupported
  else toGLPKFormat model.

(** [variable.value = v] on the variable filed under [n] *)
Definition set_value (n : string) (v : prim) (m : Model) : Model :=
  match assoc_get n (variables m) with
  | Some x =>
      set_variables
        (assoc_set n {| lb := lb x; ub := ub x; vtype := vtype x; name := name x;
                        value := v |} (variables m)) m
  | None => m                          (* console.warn *)
  end.

Definition set_dual (d : prim) (c : Constr) : Constr :=
  {| lhs := lhs c; comparison := comparison c; rhs := rhs c; primal := primal c; dual := d |}.

Definition set_primal (p : prim) (c : Constr) : Constr :=
  {| lhs := lhs c; comparison := comparison c; rhs := rhs c; primal := p; dual := dual c |}.

Fixpoint read_duals (duals : list (string * prim)) (cs : list Constr) (index : nat)
    : list Constr :=
  match cs with
  | [] => []
  | constraint :: rest =>
      (match assoc_get ("cons" ++ nat_toString (index + 1)) duals with
       | Some PUndefined | None => constraint
       | Some dualValue => set_dual dualValue constraint
       end) :: read_duals duals rest (S index)
  end.

Definition readGLPKSolution (model : Model) (sol : GLPKSolution) : Model :=
  let m1 := set_status (PNum (result_status sol)) model in
  let m2 := fold_left (fun m '(varName, varValue) => set_value varName varValue m)
                      (result_vars sol) m1 in
  match result_dual sol with
  | Some duals => set_constraints (read_duals duals (constraints m2) 0) m2
  | None => m2
  end.

(* ================================================================== *)
(** ** The highs bridge *)

Fixpoint read_rows (rows : list HighsRow) (cs : list Constr) : list Constr :=
  match rows, cs with
  | row :: rows', constraint :: cs' =>
      set_dual (Row_Dual row) (set_primal (Row_Primal row) constraint) :: read_rows rows' cs'
  | _, _ => cs                         (* rows past the last constraint: console.warn *)
  end.

Definition readHighsSolution (model : Model) (sol : HighsSolution) : Model :=
  let m1 := set_status (PStr (Status sol)) model in
  if (negb (String.eqb (Status sol) "Optimal") && negb (String.eqb (Status sol) "Feasible"))%bool
  then m1
  else
    let m2 := fold_left (fun m '(n, columnPrimal) => set_value n columnPrimal m)
                        (Columns sol) m1 in
    set_constraints (read_rows (Rows sol) (constraints m2)) m2.

(* ================================================================== *)
(** ** The jsLPSolver bridge *)

Definition Options := list (string * prim).

(** The request: plain objects used as maps, in the order of creation of
    their keys. *)
Record JSLPRequest : Type := mkJSLPRequest {
  optimize : string;
  opType : string;
  js_constraints : list (string * list (string * bound));
  js_variables : list (string * list (string * elt));
  ints : list (string * Z);
  binaries : list (string * Z);
  unrestricted : list (string * Z);
  js_options : Options
}.

(** [a + b] *)
Definition js_plus (a b : elt) : elt :=
  match a, b with
  | ENum x, ENum y => ENum (number_add x y)
  | ENum _, EUndef | EUndef, ENum _ | EUndef, EUndef => ENum NaN
  | _, _ => EStr (elt_template a ++ elt_template b)
  end.

(** [s.slice(0, n)] *)
Fixpoint slice0 (n : nat) (s : string) : string :=
  match n, s with
  | S n', String c r => String c (slice0 n' r)
  | _, _ => EmptyString
  end.

Definition js_translate_variable (req : JSLPRequest) (entry : string * Var) : JSLPRequest :=
  let '(varName, varObj) := entry in
  let unrestricted' :=
    if (is_neg_inf (lb varObj)
        || match lb varObj with BNum n => number_ltb0 n | _ => false end)%bool
    then assoc_set varName 1 (unrestricted req) else unrestricted req in
  let constraints1 :=
    if (negb (match lb varObj with BNum n => is_zero n | _ => false end)
        && negb (is_neg_inf (lb varObj)))%bool
    then assoc_set (varName ++ "_lb") [("min", lb varObj)] (js_constraints req)
    else js_constraints req in
  let constraints2 :=
    if negb (is_pos_inf (ub varObj))
    then assoc_set (varName ++ "_ub") [("max", ub varObj)] constraints1
    else constraints1 in
  {| optimize := optimize req; opType := opType req;
     js_constraints := constraints2;
     js_variables := assoc_set varName [] (js_variables req);
     ints := match vtype varObj with
             | INTEGER => assoc_set varName 1 (ints req)
             | _ => ints req
             end;
     binaries := match vtype varObj with
                 | BINARY => assoc_set varName 1 (binaries req)
                 | _ => binaries req
                 end;
     unrestricted := unrestricted';
     js_options := js_options req |}.

Definition with_js_variables (vs : list (string * list (string * elt))) (req : JSLPRequest)
    : JSLPRequest :=
  {| optimize := optimize req; opType := opType req; js_constraints := js_constraints req;
     js_variables := vs; ints := ints req; binaries := binaries req;
     unrestricted := unrestricted req; js_options := js_options req |}.

Definition with_js_constraints (cs : list (string * list (string * bound))) (req : JSLPRequest)
    : JSLPRequest :=
  {| optimize := optimize req; opType := opType req; js_constraints := cs;
     js_variables := js_variables req; ints := ints req; binaries := binaries req;
     unrestricted := unrestricted req; js_options := js_options req |}.

(** [term[1].name] for an array [term] *)
Definition term_var_name (l : list elt) : result (option string) :=
  match nth_error l 1 with
  | Some (EVar v) => Ok (Some (name v))
  | Some (ENum _) | Some (EStr _) => Ok None
  | Some EUndef | None => Throw TypeError
  end.

(** The object [jsLPModel.variables[n]], which has to exist before one of its
    properties is read or written; the property name undefined reads as the
    text of undefined. *)
Definition js_variable_row (req : JSLPRequest) (n : option string)
    : result (string * list (string * elt)) :=
  let key := default "undefined" n in
  match assoc_get key (js_variables req) with
  | Some row => Ok (key, row)
  | None => Throw TypeError
  end.

(** [jsLPModel.variables[term[1].name]['objective'] = term[0]] for the terms
    that are arrays. *)
Definition js_objective_term (req : JSLPRequest) (term : item) : result JSLPRequest :=
  match term with
  | Arr l =>
      do n <- term_var_name l;
      do (key, row) <- js_variable_row req n;
      Ok (with_js_variables
            (assoc_set key (assoc_set "objective" (nth 0 l EUndef) row) (js_variables req)) req)
  | Elt _ => Ok req
  end.

Definition js_constraint_term (constrName : string) (req : JSLPRequest) (term : item)
    : result JSLPRequest :=
  match term with
  | Arr l =>
      do n <- term_var_name l;
      do (key, row) <- js_variable_row req n;
      let row0 := if assoc_has constrName row then row
                  else assoc_set constrName (ENum (Num 0)) row in
      let row1 := assoc_set constrName
                    (js_plus (default EUndef (assoc_get constrName row0)) (nth 0 l EUndef)) row0 in
      Ok (with_js_variables (assoc_set key row1 (js_variables req)) req)
  | Elt _ => Ok req
  end.

Fixpoint foldM {A B} (f : B -> A -> result B) (b : B) (l : list A) : result B :=
  match l with
  | [] => Ok b
  | a :: l' => do b' <- f b a; foldM f b' l'
  end.

Fixpoint js_translate_constraints (req : JSLPRequest) (cs : list Constr) (index : nat)
    : result JSLPRequest :=
  match cs with
  | [] => Ok req
  | constr :: rest =>
      let constrName := "c" ++ nat_toString index in
      let cmp := comparison constr in
      let row := if String.eqb cmp "<=" then [("max", BNum (rhs constr))]
                 else if String.eqb cmp ">=" then [("min", BNum (rhs constr))]
                 else if String.eqb cmp "=" then [("equal", BNum (rhs constr))]
                 else [] in
      let req1 := with_js_constraints (assoc_set constrName row (js_constraints req)) req in
      do req2 <- foldM (js_constraint_term constrName) req1 (lhs constr);
      js_translate_constraints req2 rest (S index)
  end.

Definition toJSLPSolverFormat (model : Model) (options : Options) : result JSLPRequest :=
  let jsLPModel :=
    {| optimize := "objective";
       opType := slice0 3 (toLowerCase (sense (objective model)));
       js_constraints := []; js_variables := []; ints := []; binaries := [];
       unrestricted := []; js_options := options |} in
  let req1 := fold_left js_translate_variable (variables model) jsLPModel in
  do req2 <- foldM js_objective_term req1 (obj_expression (objective model));
  js_translate_constraints req2 (constraints model) 0.

(** [Model.toJSLPSolverFormat(options)] *)
Definition Model_toJSLPSolverFormat (model : Model) (options : Options) : result JSLPRequest :=
  toJSLPSolverFormat model options.

(** [varName in solution] and [solution[varName]] *)
Definition js_solution_get (sol : JSLPSolution) (varName : string) : option prim :=
  if String.eqb varName "feasible" then Some (PBool (feasible sol))
  else if String.eqb varName "result" then Some (PNum (js_result sol))
  else if String.eqb varName "bounded" then Some (PBool (bounded sol))
  else match (if String.eqb varName "isIntegral" then isIntegral sol else None) with
       | Some b => Some (PBool b)
       | None =>
           match assoc_get varName (js_values sol) with
           | Some v => Some (PNum v)
           | None => if inherited varName then Some PObject else None
           end
       end.

(** [n + it] *)
Definition number_plus_item (n : number) (it : item) : prim :=
  match it with
  | Elt (ENum c) => PNum (number_add n c)
  | Elt EUndef => PNum NaN
  | Elt e => PStr (number_toString n ++ elt_template e)
  | Arr l => PStr (number_toString n ++ array_toString l)
  end.

Definition number_truthy (n : number) : bool :=
  match n with
  | Num z => negb (z =? 0)
  | NaN => false
  end.

Definition readJSLPSolverSolution (model : Model) (sol : JSLPSolution) : Model :=
  let m1 := set_status (PStr (if feasible sol
                              then (if bounded sol then "Optimal" else "Unbounded")
                              else "Infeasible")) model in
  let m2 := fold_left (fun m '(varName, _) =>
                         match js_solution_get sol varName with
                         | Some v => set_value varName v m
                         | None => set_value varName (PNum (Num 0)) m
                         end) (variables m1) m1 in
  if number_truthy (js_result sol)
  then set_ObjVal (number_plus_item (js_result sol)
                     (constant_slot (obj_expression (objective m2)))) m2
  else m2.

(* ================================================================== *)
(** ** Model.solve *)

(** A solver handle: which of the probed properties it owns, and its calls.
    An engine may throw. *)
Record Solver : Type := mkSolver {
  has_branchAndCut : bool;
  has_lastSolvedModel : bool;
  has_GLP_OPT : bool;
  has_Highs_run : bool;
  Solve : JSLPRequest -> result JSLPSolution;
  glpk_solve : GLPKRequest -> Options -> result GLPKSolution;
  highs_solve : string -> Options -> result HighsSolution
}.

(** The block commented [clear previous solution] at the head of solve. *)
Definition clear_previous_solution (m : Model) : Model :=
  {| variables :=
       map (fun '(k, v) => (k, {| lb := lb v; ub := ub v; vtype := vtype v; name := name v;
                                   value := PNull |})) (variables m);
     constraints := map (fun c => set_dual PNull (set_primal PNull c)) (constraints m);
     objective := objective m;
     varCount := varCount m;
     solution := NoSolution;
     status := status m;
     ObjVal := PNull |}.

Definition solve (solver : Solver) (options : Options) : M unit :=
  modify clear_previous_solution ;;;
  m <~ getM ;;
  if (has_branchAndCut solver && has_lastSolvedModel solver)%bool then
    req <~ lift (Model_toJSLPSolverFormat m options) ;;
    sol <~ lift (Solve solver req) ;;
    modify (set_solution (FromJSLPSolver sol)) ;;;
    modify (fun m => readJSLPSolverSolution m sol)
  else if has_GLP_OPT solver then
    req <~ lift (Model_toGLPKFormat m) ;;
    sol <~ lift (glpk_solve solver req options) ;;
    modify (set_solution (FromGLPK sol)) ;;;
    modify (fun m => readGLPKSolution m sol)
  else if has_Highs_run solver then
    text <~ lift (Model_toLPFormat m) ;;
    sol <~ lift (highs_solve solver text options) ;;
    modify (set_solution (FromHighs sol)) ;;;
    modify (fun m => readHighsSolution m sol)
  else ret tt.

(* ================================================================== *)
(** ** The result of parseExpression without the property bag

    A closed form of what the loop computes when no key meets a slot or a
    property of the object: a running constant, and an insertion-ordered
    mapping from keys to summed coefficients; at the end the constant, then
    the terms with a non-zero sum in first-seen order.  A key is the text
    under which the code files a term: the name of the variable of a linear
    term, the two names joined of a quadratic term.  As in the code, a
    variable whose name is the joined text of two others shares the key of
    their pair.  The lemmas on addConstr compare [parseExpression] with
    [canonical]; the sums are the exact ones of [number_add]. *)

(** What a valid item contributes: a constant, or a coefficient filed under
    a key together with the variables the term array holds after its
    coefficient. *)
Inductive entry : Type :=
| Constant (n : number)
| Filed (key : string) (coeff : number) (vars : list elt).

Definition classify (m : Model) (it : item) : option entry :=
  match it with
  | Arr [ENum c; EVar v] => Some (Filed (name v) c [EVar v])
  | Arr [ENum c; EVar x; EVar y] =>
      let '(v1, v2) := pair_names (name x) (name y) in
      Some (Filed (v1 ++ "_***_" ++ v2) c [get_var m v1; get_var m v2])
  | Elt (EVar v) => Some (Filed (name v) (Num 1) [EVar v])
  | Elt (ENum n) => Some (Constant n)
  | _ => None
  end.

(** The items, classified; an item of no accepted shape contributes
    nothing here (and makes parseExpression throw). *)
Fixpoint entries (m : Model) (l : expression) : list entry :=
  match l with
  | [] => []
  | it :: rest =>
      match classify m it with
      | Some e => e :: entries m rest
      | None => entries m rest
      end
  end.

Definition valid_item (m : Model) (it : item) : bool :=
  match classify m it with Some _ => true | None => false end.

Fixpoint constant_sum (es : list entry) : number :=
  match es with
  | [] => Num 0
  | Constant n :: rest => number_add n (constant_sum rest)
  | Filed _ _ _ :: rest => constant_sum rest
  end.

Fixpoint coeff_sum (k : string) (es : list entry) : number :=
  match es with
  | [] => Num 0
  | Filed k' c _ :: rest =>
      if String.eqb k k' then number_add c (coeff_sum k rest) else coeff_sum k rest
  | Constant _ :: rest => coeff_sum k rest
  end.

Fixpoint keys (es : list entry) : list string :=
  match es with
  | [] => []
  | Filed k _ _ :: rest => k :: keys rest
  | Constant _ :: rest => keys rest
  end.

(** The variables of the first entry filed under [k]. *)
Fixpoint first_vars (k : string) (es : list entry) : list elt :=
  match es with
  | [] => []
  | Filed k' _ vs :: rest => if String.eqb k k' then vs else first_vars k rest
  | Constant _ :: rest => first_vars k rest
  end.

Definition mem (k : string) (l : list string) : bool := existsb (String.eqb k) l.

(** The keys in the order in which they are first seen. *)
Definition first_seen (ks : list string) : list string :=
  fold_left (fun seen k => if mem k seen then seen else (seen ++ [k])%list) ks [].

Definition canonical_term (es : list entry) (k : string) : list item :=
  let c := coeff_sum k es in
  if is_zero c then [] else [Arr (ENum c :: first_vars k es)].

Definition canonical_terms (es : list entry) : list item :=
  flat_map (canonical_term es) (first_seen (keys es)).

Definition canonical (m : Model) (l : expression) : expression :=
  Elt (ENum (constant_sum (entries m l))) :: canonical_terms (entries m l).

(** A key that neither meets the reserved slot of the constant, nor is
    listed ahead of its turn by [for ... in], nor reads an inherited
    property. *)
Definition plain (k : string) : bool :=
  (negb (String.eqb k "constant")
   && match array_index k with Some _ => false | None => true end
   && negb (inherited k))%bool.

(** Two entries filed under one key hold the same variables. *)
Definition consistent (es : list entry) : Prop :=
  forall k c vs k' c' vs',
    In (Filed k c vs) es -> In (Filed k' c' vs') es -> k = k' -> vs = vs'.

(** The terms of a canonical expression, after the constant. *)
Definition terms_of (e : expression) : list item := tl e.

(* ------------------------------------------------------------------ *)
(** *** Objects of the examples *)

Definition var_named (n : string) : Var :=
  {| lb := BNum (Num 0); ub := BPosInf; vtype := CONTINUOUS; name := n; value := PUndefined |}.

Definition x_ : Var := var_named "x".
Definition y_ : Var := var_named "y".
Definition constant_ : Var := var_named "constant".

(** [[c, v]], [[c, v, w]] and a bare number *)
Definition lin (c : Z) (v : Var) : item := Arr [ENum (Num c); EVar v].
Definition quad (c : number) (v w : Var) : item := Arr [ENum c; EVar v; EVar w].
Definition const (c : Z) : item := Elt (ENum (Num c)).

(** A model in which [vars] were added with addVar, and nothing else done. *)
Definition model_with (vars : list Var) : Model :=
  set_variables (map (fun v => (name v, v)) vars) new_Model.

Definition model_xy : Model := model_with [x_; y_].
Definition model_c : Model := model_with [constant_].

(** Variables whose names meet the key of another slot of [combined]: two
    array indices, a property inherited from Object.prototype, and the pair
    key of the variables [a] and [b]. *)
Definition one_ : Var := var_named "1".
Definition two_ : Var := var_named "2".
Definition toString_ : Var := var_named "toString".
Definition a_ : Var := var_named "a".
Definition b_ : Var := var_named "b".
Definition a_b_ : Var := var_named "a_***_b".

Definition model_indices : Model := model_with [two_; one_].
Definition model_toString : Model := model_with [toString_].
Definition model_pair : Model := model_with [a_; b_; a_b_].

(** Objective [x], one constraint [x <= 3], every bound at its default. *)
Definition model_small : Model :=
  fst (addConstr [lin 1 x_] "<=" (RhsNumber (Num 3))
         (fst (setObjective [lin 1 x_] "MAXIMIZE" (model_with [x_])))).

(** Objective [x + 2], constraint [x <= 3], maximize. *)
Definition model_plus2 : Model :=
  fst (addConstr [Elt (EVar x_)] "<=" (RhsNumber (Num 3))
         (fst (setObjective [lin 1 x_; const 2] "MAXIMIZE" (model_with [x_])))).

(** Objective [x * x], minimize, constraint [x >= 1]. *)
Definition model_quadratic : Model :=
  fst (addConstr [Elt (EVar x_)] ">=" (RhsNumber (Num 1))
         (fst (setObjective [quad (Num 1) x_ x_] "MINIMIZE" (model_with [x_])))).

(** The answers of the engines for [model_plus2]: [x = 3], objective 3
    without the constant and 5 with it. *)
Definition glpk_answer : GLPKSolution :=
  {| result_status := Num GLP_OPT; result_z := Num 3;
     result_vars := [("x", PNum (Num 3))];
     result_dual := Some [("cons1", PNum (Num 1))] |}.

Definition highs_answer : HighsSolution :=
  {| Status := "Optimal"; ObjectiveValue := Num 5;
     Columns := [("x", PNum (Num 3))];
     Rows := [{| Row_Name := "c1"; Row_Primal := PNum (Num 3); Row_Dual := PNum (Num 1) |}] |}.

Definition jslp_answer : JSLPSolution :=
  {| feasible := true; js_result := Num 3; bounded := true; isIntegral := Some true;
     js_values := [("x", Num 3)] |}.

Definition highs_infeasible : HighsSolution :=
  {| Status := "Infeasible"; ObjectiveValue := Num 0; Columns := []; Rows := [] |}.

Definition no_engine {A B} : A -> result B := fun _ => Throw EngineError.
Definition no_engine2 {A B C} : A -> B -> result C := fun _ _ => Throw EngineError.

(** Handles as solve probes them. *)
Definition glpk_handle (answer : GLPKSolution) : Solver :=
  {| has_branchAndCut := false; has_lastSolvedModel := false;
     has_GLP_OPT := true; has_Highs_run := false;
     Solve := no_engine; glpk_solve := fun _ _ => Ok answer; highs_solve := no_engine2 |}.

Definition highs_handle (answer : HighsSolution) : Solver :=
  {| has_branchAndCut := false; has_lastSolvedModel := false;
     has_GLP_OPT := false; has_Highs_run := true;
     Solve := no_engine; glpk_solve := no_engine2; highs_solve := fun _ _ => Ok answer |}.

Definition jslp_handle (answer : JSLPSolution) : Solver :=
  {| has_branchAndCut := true; has_lastSolvedModel := true;
     has_GLP_OPT := false; has_Highs_run := false;
     Solve := fun _ => Ok answer; glpk_solve := no_engine2; highs_solve := no_engine2 |}.

Definition unknown_handle : Solver :=
  {| has_branchAndCut := false; has_lastSolvedModel := false;
     has_GLP_OPT := false; has_Highs_run := false;
     Solve := no_engine; glpk_solve := no_engine2; highs_solve := no_engine2 |}.

(** A line of text and the next. *)
Definition line (s rest : string) : string := s ++ nl ++ rest.

Definition lp_small (op : string) : string :=
  line "Maximize" (line "obj: 1 x" (line "Subject To"
    (line (" c1: 1 x " ++ op ++ " 3")
       (line "Bounds" (line " 0 <= x <= 40" (line "End" EmptyString)))))).

(** What toLPFormat writes for [model_small]. *)
Definition text_small : string :=
  line "Maximize" (line "obj: 1 x" (line "Subject To"
    (line " c1: 1 x <= 3" (line "Bounds" (line "End" EmptyString))))).

(** What toLPFormat writes for [model_plus2]. *)
Definition text_plus2 : string :=
  line "Maximize" (line "obj: 2 + 1 x" (line "Subject To"
    (line " c1: 1 x <= 3" (line "Bounds" (line "End" EmptyString))))).

(** [model_small] with the bounds [0 <= x <= 40]. *)
Definition x_bounded : Var :=
  {| lb := BNum (Num 0); ub := BNum (Num 40); vtype := CONTINUOUS; name := "x";
     value := PUndefined |}.

Definition model_bounded : Model :=
  fst (addConstr [lin 1 x_bounded] "<=" (RhsNumber (Num 3))
         (fst (setObjective [lin 1 x_bounded] "MAXIMIZE" (model_with [x_bounded])))).

(** [fromLPFormat(new Model(), toLPFormat(m))] *)
Definition roundtrip (parseFloat : string -> number) (m : Model) : Model * result unit :=
  match toLPFormat m with
  | Ok text => fromLPFormat parseFloat text new_Model
  | Throw e => (new_Model, Throw e)
  end.

(** [model_plus2] after a solve with highs, and after its objective was then
    replaced by a quadratic one. *)
Definition solved_by_highs : Model :=
  fst (solve (highs_handle highs_answer) [] model_plus2).

Definition made_quadratic : Model :=
  fst (setObjective [quad (Num 1) x_ x_] "MINIMIZE" solved_by_highs).

Definition jslp_answer_zero : JSLPSolution :=
  {| feasible := true; js_result := Num 0; bounded := true; isIntegral := Some true;
     js_values := [] |}.

(* ------------------------------------------------------------------ *)
(** *** Definitions of the proofs *)

(** The names of the variables of the linear items. *)
Definition linear_name (it : item) : option string :=
  match it with
  | Arr [ENum _; EVar v] => Some (name v)
  | Elt (EVar v) => Some (name v)
  | _ => None
  end.

Fixpoint linear_names (l : expression) : list string :=
  match l with
  | [] => []
  | it :: rest =>
      match linear_name it with
      | Some n => n :: linear_names rest
      | None => linear_names rest
      end
  end.

(** An association list with one entry per key of a list. *)
Definition keyed {V} (g : string -> V) (ks : list string) : list (string * V) :=
  map (fun k => (k, g k)) ks.

(** The property bag after the entries [es] were read. *)
Definition slot_of (es : list entry) (k : string) : slot :=
  SArr (ENum (coeff_sum k es) :: first_vars k es).

Definition bag_of (es : list entry) : bag :=
  ("constant", SNum (constant_sum es)) :: keyed (slot_of es) (first_seen (keys es)).

(** The text holds an asterisk, as every pair key does. *)
Fixpoint has_star (s : string) : bool :=
  match s with
  | EmptyString => false
  | String c r => (Ascii.eqb c "*" || has_star r)%bool
  end.

(** An entry that is read back as it is from the array stored for it. *)
Definition stable (m : Model) (e : entry) : Prop :=
  match e with
  | Constant _ => True
  | Filed k _ vs => forall c, classify m (Arr (ENum c :: vs)) = Some (Filed k c vs)
  end.

(** Not an array of three entries. *)
Definition is_linear (it : item) : bool :=
  match it with
  | Arr [_; _; _] => false
  | _ => true
  end.

(** The right side of addConstr as an expression. *)
Definition rhs_items (r : rhs_arg) : expression :=
  match r with
  | RhsNumber n => [Elt (ENum n)]
  | RhsExpression e => e
  end.

(** What [negate_term] does to an item, on its entry. *)
Definition negate_entry (e : entry) : entry :=
  match e with
  | Constant n => Constant (number_neg n)
  | Filed k c vs => Filed k (number_neg c) vs
  end.

(** The keys whose sum is not zero, in first-seen order, and the entry a
    canonical term stands for. *)
Definition kept (es : list entry) : list string :=
  filter (fun k => negb (is_zero (coeff_sum k es))) (first_seen (keys es)).

Definition summed (es : list entry) (k : string) : entry :=
  Filed k (coeff_sum k es) (first_vars k es).

(** What addConstr reads in its second pass. *)
Definition second_pass (es_l es_r : list entry) : list entry :=
  (Constant (constant_sum es_l) :: map (summed es_l) (kept es_l))
  ++ Constant (number_neg (constant_sum es_r))
     :: map negate_entry (map (summed es_r) (kept es_r)).

(** The variable is the one the model has under its name. *)
Definition registered (m : Model) (v : Var) : Prop :=
  assoc_get (name v) (variables m) = Some v.

(** The variables of an item. *)
Definition item_vars (it : item) : list Var :=
  match it with
  | Elt (EVar v) => [v]
  | Arr l => flat_map (fun e => match e with EVar v => [v] | _ => [] end) l
  | _ => []
  end.

(** Every variable of the items is registered, and no name holds an
    asterisk (so that no name is a pair key and a pair key gives back its two
    names). *)
Definition well_named (m : Model) (l : expression) : Prop :=
  forall it v, In it l -> In v (item_vars it) ->
    registered m v /\ has_star (name v) = false.

(* ------------------------------------------------------------------ *)
(** *** Definitions of the further properties *)

(** The argument of addVar, field by field. *)
Definition named_options (l u : option bound) (t : option VType) (n : option string)
    : VarOptions :=
  {| opt_lb := l; opt_ub := u; opt_vtype := t; opt_name := n |}.

(** The name addVar tries at the count [k]. *)
Definition candidate (k : nat) : string := "Var" ++ nat_toString k.

(** A variable under another name, and with another value. *)
Definition with_name (n : string) (v : Var) : Var :=
  {| lb := lb v; ub := ub v; vtype := vtype v; name := n; value := value v |}.

Definition with_value (p : prim) (v : Var) : Var :=
  {| lb := lb v; ub := ub v; vtype := vtype v; name := name v; value := p |}.

(** [varName in solution ? solution[varName] : 0] *)
Definition js_value_of (sol : JSLPSolution) (varName : string) : prim :=
  match js_solution_get sol varName with
  | Some p => p
  | None => PNum (Num 0)
  end.

(** A variable without the value a solve attached to it.  A term of an
    expression holds the object of its variable, so the value shows through
    the term too; it is left out there as well. *)
Definition forget_value (v : Var) : Var :=
  {| lb := lb v; ub := ub v; vtype := vtype v; name := name v; value := PUndefined |}.

Definition forget_elt (e : elt) : elt :=
  match e with
  | EVar v => EVar (forget_value v)
  | _ => e
  end.

Definition forget_item (it : item) : item :=
  match it with
  | Elt e => Elt (forget_elt e)
  | Arr l => Arr (map forget_elt l)
  end.

(** The problem a model states: its variables with their bounds and kinds,
    its constraints, its objective and the counter of the generated names,
    without the fields a solve writes (the values, the primal and dual
    values, the solution, the status and the objective value). *)
Definition problem (m : Model)
    : list (string * Var) * list (expression * string * number)
      * (expression * string) * nat :=
  (map (fun '(k, v) => (k, forget_value v)) (variables m),
   map (fun c => (map forget_item (lhs c), comparison c, rhs c)) (constraints m),
   (map forget_item (obj_expression (objective m)), sense (objective m)),
   varCount m).

(** The last character of a text. *)
Fixpoint last_char (s : string) : option ascii :=
  match s with
  | EmptyString => None
  | String c EmptyString => Some c
  | String _ r => last_char r
  end.

(** The keys a row of [jsLPModel.variables] can hold for a model of [n]
    constraints: the name of the objective and the names of the
    constraints. *)
Definition row_key (n : nat) (key : string) : Prop :=
  key = "objective" \/ exists i, (i < n)%nat /\ key = "c" ++ nat_toString i.

Definition rows_keyed (n : nat) (req : JSLPRequest) : Prop :=
  forall v row key coef,
    In (v, row) (js_variables req) -> In (key, coef) row -> row_key n key.

(** No array of three entries in a slot of the property bag. *)
Definition slot_no_triple (v : slot) : Prop :=
  match v with
  | SArr l => List.length l <> 3%nat
  | _ => True
  end.

Definition bag_no_triple (combined : bag) : Prop :=
  Forall (fun e => slot_no_triple (snd e)) combined.

(** Objects of the examples: a model in which the name Var0 is taken, an
    objective in small letters, an answer of highs with two rows, and an
    answer of jsLPSolver that leaves y out. *)
Definition model_Var0 : Model := model_with [var_named "Var0"].


Definition model_equality : Model :=
  fst (addConstr [lin 1 x_] "=" (RhsNumber (Num 5)) (model_with [x_])).

Definition highs_two_rows : HighsSolution :=
  {| Status := "Optimal"; ObjectiveValue := Num 3;
     Columns := [("x", PNum (Num 3))];
     Rows := [{| Row_Name := "c1"; Row_Primal := PNum (Num 3); Row_Dual := PNum (Num 1) |};
              {| Row_Name := "c2"; Row_Primal := PNum (Num 0); Row_Dual := PNum (Num 0) |}] |}.

Definition jslp_answer_x : JSLPSolution :=
  {| feasible := true; js_result := Num 3; bounded := true; isIntegral := None;
     js_values := [("x", Num 3)] |}.

(* ================================================================== *)
(** * Properties *)

(** ** Arithmetic of numbers *)

Lemma number_add_comm a b : number_add a b = number_add b a.
Proof. destruct a, b; simpl; try reflexivity. f_equal; lia. Qed.

Lemma number_add_assoc a b c :
  number_add a (number_add b c) = number_add (number_add a b) c.
Proof. destruct a, b, c; simpl; try reflexivity. f_equal; lia. Qed.

Lemma number_add_0_l a : number_add (Num 0) a = a.
Proof. destruct a; reflexivity. Qed.

Lemma number_add_0_r a : number_add a (Num 0) = a.
Proof. destruct a; simpl; try reflexivity. f_equal; lia. Qed.

(** ** Keys, sums and first occurrences over a concatenation *)

Lemma mem_true_iff k l : mem k l = true <-> In k l.
Proof.
  unfold mem. rewrite existsb_exists. split.
  - intros [x [Hx Heq]]. apply String.eqb_eq in Heq. now subst.
  - intros H. exists k. split; [assumption | apply String.eqb_refl].
Qed.

Lemma mem_false_iff k l : mem k l = false <-> ~ In k l.
Proof.
  rewrite <- mem_true_iff. destruct (mem k l); split; intros; congruence.
Qed.

Lemma keys_app a b : keys (a ++ b) = (keys a ++ keys b)%list.
Proof.
  induction a as [| [n | k c vs] a IH]; simpl; try rewrite IH; reflexivity.
Qed.

Lemma constant_sum_app a b :
  constant_sum (a ++ b) = number_add (constant_sum a) (constant_sum b).
Proof.
  induction a as [| [n | k c vs] a IH]; cbn [constant_sum app].
  - symmetry; apply number_add_0_l.
  - now rewrite IH, number_add_assoc.
  - assumption.
Qed.

Lemma coeff_sum_app k a b :
  coeff_sum k (a ++ b) = number_add (coeff_sum k a) (coeff_sum k b).
Proof.
  induction a as [| [n | k' c vs] a IH]; cbn [coeff_sum app].
  - symmetry; apply number_add_0_l.
  - assumption.
  - destruct (String.eqb k k'); [now rewrite IH, number_add_assoc | assumption].
Qed.

Lemma coeff_sum_absent k es : ~ In k (keys es) -> coeff_sum k es = Num 0.
Proof.
  induction es as [| [n | k' c vs] es IH]; simpl; intros H; auto.
  destruct (String.eqb_spec k k') as [-> | Hne].
  - exfalso; apply H; now left.
  - apply IH. intros Hin; apply H; now right.
Qed.

Lemma first_vars_app k a b :
  first_vars k (a ++ b) = if mem k (keys a) then first_vars k a else first_vars k b.
Proof.
  induction a as [| [n | k' c vs] a IH]; simpl; auto.
  unfold mem in *. simpl. destruct (String.eqb k k'); simpl; auto.
Qed.

Lemma first_seen_snoc ks k :
  first_seen (ks ++ [k]) =
  if mem k (first_seen ks) then first_seen ks else (first_seen ks ++ [k])%list.
Proof. unfold first_seen. now rewrite fold_left_app. Qed.

Lemma first_seen_In ks : forall k, In k (first_seen ks) <-> In k ks.
Proof.
  induction ks as [| k0 ks IH] using rev_ind; intros k.
  - simpl. tauto.
  - rewrite first_seen_snoc, in_app_iff.
    destruct (mem k0 (first_seen ks)) eqn:Hm.
    + rewrite IH. apply mem_true_iff, IH in Hm. simpl. split; [tauto |].
      intros [H | [<- | []]]; assumption.
    + rewrite in_app_iff, IH. tauto.
Qed.

Lemma first_seen_NoDup ks : NoDup (first_seen ks).
Proof.
  induction ks as [| k0 ks IH] using rev_ind.
  - constructor.
  - rewrite first_seen_snoc. destruct (mem k0 (first_seen ks)) eqn:Hm; [assumption |].
    apply mem_false_iff in Hm.
    apply NoDup_app; [assumption | repeat constructor; simpl; tauto |]. 
    intros x Hx [<- | []]. contradiction.
Qed.

(** ** Association lists built from a list of keys *)

Section KeyedLists.
Context {V : Type}.
Implicit Types (g : string -> V) (ks : list string).

Lemma assoc_get_keyed g ks k :
  assoc_get k (keyed g ks) = if mem k ks then Some (g k) else None.
Proof.
  induction ks as [| k0 ks IH]; simpl; [reflexivity |].
  unfold mem in *; simpl.
  destruct (String.eqb_spec k k0) as [-> | Hne]; simpl; auto.
Qed.

Lemma assoc_set_absent k (v : V) l :
  assoc_get k l = None -> assoc_set k v l = (l ++ [(k, v)])%list.
Proof.
  induction l as [| [k0 v0] l IH]; simpl; [reflexivity |].
  destruct (String.eqb k k0); [discriminate |].
  intros H. now rewrite IH.
Qed.

Lemma assoc_set_keyed g ks k (v : V) :
  NoDup ks -> In k ks ->
  assoc_set k v (keyed g ks) = keyed (fun k' => if String.eqb k' k then v else g k') ks.
Proof.
  induction ks as [| k0 ks IH]; simpl; intros Hnd Hin; [contradiction |].
  inversion Hnd as [| ? ? Hk0 Hnd']; subst.
  destruct (String.eqb_spec k k0) as [-> | Hne].
  - rewrite String.eqb_refl. f_equal.
    apply map_ext_in. intros k' Hk'.
    destruct (String.eqb_spec k' k0) as [-> | _]; [contradiction | reflexivity].
  - destruct (String.eqb_spec k0 k) as [-> | _]; [congruence |].
    f_equal. apply IH; [assumption |]. destruct Hin; [congruence | assumption].
Qed.

Lemma assoc_delete_keyed g ks k :
  ~ In k ks -> assoc_delete k (keyed g ks) = keyed g ks.
Proof.
  induction ks as [| k0 ks IH]; simpl; intros H; [reflexivity |].
  destruct (String.eqb_spec k k0) as [-> | Hne]; [exfalso; apply H; now left |].
  f_equal. apply IH. intros Hin; apply H; now right.
Qed.

Lemma for_in_keyed g ks :
  Forall (fun k => array_index k = None) ks -> for_in (keyed g ks) = keyed g ks.
Proof.
  intros H. unfold for_in.
  assert (Hi : index_entries (keyed g ks) = []).
  { induction H as [| k ks Hk _ IH]; simpl; [reflexivity |]. now rewrite Hk. }
  rewrite Hi. simpl.
  induction H as [| k ks Hk _ IH]; simpl; [reflexivity |].
  unfold is_index_key at 1. simpl. rewrite Hk. simpl. f_equal.
  apply IH. 
  clear - Hi Hk. simpl in Hi. now rewrite Hk in Hi.
Qed.
End KeyedLists.

(** ** The property bag after a prefix of valid items *)

Lemma plain_not_constant k : plain k = true -> String.eqb k "constant" = false.
Proof.
  unfold plain. intros H. apply andb_prop in H as [H _]. apply andb_prop in H as [H _].
  now apply negb_true_iff in H.
Qed.

Lemma plain_not_index k : plain k = true -> array_index k = None.
Proof.
  unfold plain. intros H. apply andb_prop in H as [H _]. apply andb_prop in H as [_ H].
  destruct (array_index k); [discriminate | reflexivity].
Qed.

Lemma plain_not_inherited k : plain k = true -> inherited k = false.
Proof.
  unfold plain. intros H. apply andb_prop in H as [_ H]. now apply negb_true_iff in H.
Qed.

Lemma add_constant_bag_of n es :
  add_constant n (bag_of es) = bag_of (es ++ [Constant n]).
Proof.
  unfold add_constant, bag_of. cbn [assoc_get]. rewrite String.eqb_refl.
  cbn [assoc_set]. rewrite String.eqb_refl.
  rewrite constant_sum_app, keys_app. cbn [keys constant_sum]. rewrite app_nil_r.
  rewrite number_add_0_r. f_equal.
  apply map_ext. intros k. unfold slot_of.
  rewrite coeff_sum_app, first_vars_app. cbn [coeff_sum first_vars].
  rewrite number_add_0_r.
  destruct (mem k (keys es)) eqn:Hm; [reflexivity |].
  apply mem_false_iff in Hm.
  clear - Hm. induction es as [| [n | k' c vs] es IH]; simpl in *; auto.
  destruct (String.eqb_spec k k') as [-> | _]; [exfalso; apply Hm; now left |].
  apply IH. intros H; apply Hm; now right.
Qed.

Lemma first_vars_absent k es : ~ In k (keys es) -> first_vars k es = [].
Proof.
  induction es as [| [n | k' c vs] es IH]; simpl; intros Hm; auto.
  destruct (String.eqb_spec k k') as [-> | _]; [exfalso; apply Hm; now left |].
  apply IH. intros H; apply Hm; now right.
Qed.

Lemma accumulate_bag_of k c vs es :
  plain k = true ->
  accumulate k c (ENum c :: vs) (bag_of es) = Ok (bag_of (es ++ [Filed k c vs])).
Proof.
  intros Hp. unfold accumulate, bag_of.
  cbn [assoc_get]. rewrite (plain_not_constant k Hp).
  rewrite assoc_get_keyed.
  rewrite constant_sum_app, keys_app. cbn [keys constant_sum].
  rewrite number_add_0_r, first_seen_snoc.
  destruct (mem k (first_seen (keys es))) eqn:Hm.
  - (* the key is there: its array grows by [c] *)
    cbn [truthy slot_of]. f_equal. cbn [assoc_set]. rewrite (plain_not_constant k Hp).
    f_equal. apply (proj1 (mem_true_iff _ _)) in Hm.
    rewrite assoc_set_keyed by (auto using first_seen_NoDup).
    apply map_ext_in. intros k' Hk'. f_equal. unfold slot_of.
    rewrite coeff_sum_app, first_vars_app. cbn [coeff_sum first_vars head_plus elt_plus].
    apply (proj1 (first_seen_In _ _)), (proj2 (mem_true_iff _ _)) in Hk'. rewrite Hk'.
    destruct (String.eqb_spec k' k) as [-> | Hne]; now rewrite number_add_0_r.
  - (* a new key: it goes last *)
    rewrite (plain_not_inherited k Hp). f_equal.
    cbn [assoc_set]. rewrite (plain_not_constant k Hp). f_equal.
    rewrite assoc_set_absent by (rewrite assoc_get_keyed, Hm; reflexivity).
    apply (proj1 (mem_false_iff _ _)) in Hm.
    assert (Hk : ~ In k (keys es)) by (now rewrite <- first_seen_In).
    unfold keyed. rewrite map_app. cbn [map]. f_equal.
    + apply map_ext_in. intros k' Hk'. f_equal. unfold slot_of.
      rewrite coeff_sum_app, first_vars_app. cbn [coeff_sum first_vars].
      apply (proj1 (first_seen_In _ _)) in Hk'.
      destruct (String.eqb_spec k' k) as [-> | _]; [contradiction |].
      rewrite number_add_0_r.
      apply (proj2 (mem_true_iff _ _)) in Hk'. now rewrite Hk'.
    + unfold slot_of. rewrite coeff_sum_app, first_vars_app.
      cbn [coeff_sum first_vars]. rewrite String.eqb_refl.
      rewrite (coeff_sum_absent k es Hk), number_add_0_l, number_add_0_r.
      apply (proj2 (mem_false_iff _ _)) in Hk. now rewrite Hk.
Qed.

(** ** One turn of the loop, by the shape of the item *)

Lemma parse_item_classify m combined it :
  parse_item m combined it =
  match classify m it with
  | Some (Constant n) => Ok (add_constant n combined)
  | Some (Filed k c vs) => accumulate k c (ENum c :: vs) combined
  | None => parse_item m combined it
  end.
Proof.
  destruct it as [[n | s | v |] | l]; try reflexivity.
  destruct l as [| [c | s | v |] [| [n1 | s1 | x |] [| [n2 | s2 | y |] [| v3 l]]]];
    try reflexivity.
  cbn [parse_item classify]. destruct (pair_names (name x) (name y)); reflexivity.
Qed.


Lemma entries_cons_valid m it l e :
  classify m it = Some e -> entries m (it :: l) = e :: entries m l.
Proof. intros H. simpl. now rewrite H. Qed.

Lemma parse_items_bag_of m l : forall pre,
  Forall (fun it => valid_item m it = true) l ->
  Forall (fun k => plain k = true) (keys (entries m l)) ->
  parse_items m (bag_of pre) l = Ok (bag_of (pre ++ entries m l)).
Proof.
  induction l as [| it l IH]; intros pre Hv Hp.
  - simpl. now rewrite app_nil_r.
  - inversion Hv as [| ? ? Hit Hv']; subst.
    unfold valid_item in Hit.
    destruct (classify m it) as [e |] eqn:Hc; [| discriminate].
    rewrite (entries_cons_valid m it l e Hc) in *.
    cbn [parse_items]. rewrite parse_item_classify, Hc.
    destruct e as [n | k c vs].
    + cbn [bind]. rewrite add_constant_bag_of, IH by assumption.
      now rewrite <- app_assoc.
    + cbn [keys] in Hp. inversion Hp as [| ? ? Hk Hp']; subst.
      rewrite accumulate_bag_of by assumption. cbn [bind].
      rewrite IH by assumption. now rewrite <- app_assoc.
Qed.

Lemma emit_bag_of es :
  Forall (fun k => plain k = true) (keys es) ->
  emit (bag_of es) = Elt (ENum (constant_sum es)) :: canonical_terms es.
Proof.
  intros Hp. unfold emit, bag_of.
  cbn [assoc_get assoc_delete]. rewrite String.eqb_refl. cbn [item_of_slot].
  f_equal.
  assert (Hfs : Forall (fun k => plain k = true) (first_seen (keys es))).
  { rewrite Forall_forall in *. intros k Hk. apply Hp. now apply first_seen_In. }
  rewrite assoc_delete_keyed.
  2:{ intros Hin. rewrite Forall_forall in Hfs. apply Hfs, plain_not_constant in Hin.
      discriminate. }
  rewrite for_in_keyed.
  2:{ eapply Forall_impl; [| exact Hfs]. intros k. apply plain_not_index. }
  unfold canonical_terms, keyed. clear.
  induction (first_seen (keys es)) as [| k ks IH]; [reflexivity |].
  cbn [map filter flat_map]. unfold canonical_term at 1.
  cbn [snd slot_of slot_head not_zero].
  destruct (is_zero (coeff_sum k es)); cbn [negb]; [exact IH |].
  cbn [map app item_of_slot snd slot_of]. f_equal. exact IH.
Qed.

(** parseExpression against its closed form. *)
Lemma parseExpression_canonical m l :
  Forall (fun it => valid_item m it = true) l ->
  Forall (fun k => plain k = true) (keys (entries m l)) ->
  parseExpression m l = Ok (canonical m l).
Proof.
  intros Hv Hp. unfold parseExpression.
  change [("constant", SNum (Num 0))] with (bag_of []).
  rewrite parse_items_bag_of by assumption. cbn [bind app].
  now rewrite emit_bag_of.
Qed.


(** ** The order of the items *)

Lemma entries_Permutation m l l' :
  Permutation l l' -> Permutation (entries m l) (entries m l').
Proof.
  induction 1 as [| it l l' _ IH | a b l | l1 l2 l3 _ IH1 _ IH2]; simpl.
  - constructor.
  - destruct (classify m it); [now constructor | assumption].
  - destruct (classify m a), (classify m b); try apply Permutation_refl.
    apply perm_swap.
  - now transitivity (entries m l2).
Qed.

Lemma constant_sum_Permutation es es' :
  Permutation es es' -> constant_sum es = constant_sum es'.
Proof.
  induction 1 as [| e es es' _ IH | a b es | es1 es2 es3 _ IH1 _ IH2]; simpl.
  - reflexivity.
  - destruct e; now rewrite IH.
  - destruct a as [n | k c vs], b as [n' | k' c' vs']; try reflexivity.
    now rewrite !number_add_assoc, (number_add_comm n' n).
  - congruence.
Qed.

Lemma coeff_sum_Permutation k es es' :
  Permutation es es' -> coeff_sum k es = coeff_sum k es'.
Proof.
  induction 1 as [| e es es' _ IH | a b es | es1 es2 es3 _ IH1 _ IH2]; simpl.
  - reflexivity.
  - destruct e; now rewrite IH.
  - destruct a as [n | ka c vs], b as [n' | kb c' vs']; try reflexivity.
    destruct (String.eqb k ka), (String.eqb k kb); try reflexivity.
    now rewrite !number_add_assoc, (number_add_comm c' c).
  - congruence.
Qed.

Lemma keys_Permutation es es' :
  Permutation es es' -> Permutation (keys es) (keys es').
Proof.
  induction 1 as [| e es es' _ IH | a b es | es1 es2 es3 _ IH1 _ IH2]; simpl.
  - constructor.
  - destruct e; [assumption | now constructor].
  - destruct a, b; try apply Permutation_refl. apply perm_swap.
  - now transitivity (keys es2).
Qed.

Lemma first_seen_Permutation ks ks' :
  Permutation ks ks' -> Permutation (first_seen ks) (first_seen ks').
Proof.
  intros H. apply NoDup_Permutation; try apply first_seen_NoDup.
  intros k. rewrite !first_seen_In. split; apply Permutation_in; [| symmetry]; assumption.
Qed.

Lemma keys_In k es : In k (keys es) <-> exists c vs, In (Filed k c vs) es.
Proof.
  induction es as [| [n | k' c' vs'] es IH]; simpl.
  - split; [contradiction | intros (? & ? & [])].
  - rewrite IH. split.
    + intros (c & vs & H). eauto.
    + intros (c & vs & [H | H]); [discriminate | eauto].
  - rewrite IH. split.
    + intros [<- | (c & vs & H)]; eauto.
    + intros (c & vs & [H | H]); [injection H as -> _ _; now left | right; eauto].
Qed.

Lemma first_vars_consistent k c vs es :
  consistent es -> In (Filed k c vs) es -> first_vars k es = vs.
Proof.
  intros Hc Hin.
  assert (H : forall c' vs', In (Filed k c' vs') es -> vs' = vs)
    by (intros c' vs' H'; exact (Hc _ _ _ _ _ _ H' Hin eq_refl)).
  clear Hc. induction es as [| [n | k' c' vs'] es IH]; simpl in *.
  - contradiction.
  - apply IH.
    + destruct Hin as [Hin | Hin]; [discriminate | assumption].
    + intros c' vs' H'. eapply H. right; eassumption.
  - destruct (String.eqb_spec k k') as [<- | Hne].
    + eapply H. left; reflexivity.
    + apply IH.
      * destruct Hin as [Hin | Hin]; [congruence | assumption].
      * intros c'' vs'' H'. eapply H. right; eassumption.
Qed.

Lemma consistent_Permutation es es' :
  Permutation es es' -> consistent es -> consistent es'.
Proof.
  intros HP Hc k c vs k' c' vs' H1 H2 Hk.
  apply (Hc k c vs k' c' vs'); [ | | exact Hk];
    (eapply Permutation_in; [symmetry; exact HP | assumption]).
Qed.

Lemma canonical_terms_Permutation es es' :
  Permutation es es' -> consistent es ->
  Permutation (canonical_terms es) (canonical_terms es').
Proof.
  intros HP Hc. unfold canonical_terms.
  transitivity (flat_map (canonical_term es) (first_seen (keys es'))).
  - apply Permutation_flat_map, first_seen_Permutation, keys_Permutation, HP.
  - assert (Heq : forall k, In k (first_seen (keys es')) ->
                            canonical_term es k = canonical_term es' k).
    { intros k Hk. apply first_seen_In, keys_In in Hk as (c & vs & Hin).
      unfold canonical_term.
      rewrite (coeff_sum_Permutation k es es' HP).
      rewrite (first_vars_consistent k c vs es' (consistent_Permutation _ _ HP Hc) Hin).
      rewrite (first_vars_consistent k c vs es Hc); [reflexivity |].
      eapply Permutation_in; [symmetry; exact HP | exact Hin]. }
    induction (first_seen (keys es')) as [| k ks IH]; simpl; [constructor |].
    rewrite Heq by now left. apply Permutation_app_head, IH.
    intros k' Hk'. apply Heq. now right.
Qed.

(** ** The key of a quadratic term *)

Lemma pair_names_sym a b : pair_names a b = pair_names b a.
Proof.
  unfold pair_names, string_gt.
  rewrite (String.compare_antisym b a).
  destruct (String.compare a b) eqn:Hc; simpl; try reflexivity.
  apply String.compare_eq_iff in Hc. now subst.
Qed.

Lemma has_star_pair_key a b : has_star (a ++ "_***_" ++ b) = true.
Proof.
  induction a as [| c a IH]; [reflexivity |].
  change (has_star (String c (a ++ "_***_" ++ b)) = true).
  cbn [has_star]. rewrite IH. apply orb_true_r.
Qed.

Lemma is_digit_not_star c : is_digit c = true -> Ascii.eqb c "*" = false.
Proof.
  destruct c as [[] [] [] [] [] [] [] []]; try reflexivity; discriminate.
Qed.

Lemma digits_value_no_star s : forall acc v,
  digits_value s acc = Some v -> has_star s = false.
Proof.
  induction s as [| c s IH]; intros acc v H; [reflexivity |].
  simpl in *. destruct (is_digit c) eqn:Hd; [| discriminate].
  rewrite (is_digit_not_star c Hd). simpl. eapply IH; eassumption.
Qed.

Lemma has_star_plain k : has_star k = true -> plain k = true.
Proof.
  intros Hs. unfold plain. repeat (apply andb_true_intro; split).
  - apply negb_true_iff. destruct (String.eqb_spec k "constant") as [-> | _];
      [discriminate | reflexivity].
  - destruct (array_index k) as [v |] eqn:Hi; [| reflexivity].
    unfold array_index in Hi. destruct k as [| c r]; [discriminate |].
    destruct (Ascii.eqb c "0" && negb (String.eqb r EmptyString))%bool; [discriminate |].
    destruct (digits_value (String c r) 0) as [v' |] eqn:Hd; [| discriminate].
    apply digits_value_no_star in Hd. congruence.
  - apply negb_true_iff. unfold inherited.
    destruct (existsb (String.eqb k) Object_prototype_names) eqn:He; [| reflexivity].
    apply existsb_exists in He as (n & Hn & Heq). apply String.eqb_eq in Heq. subst n.
    assert (Hall : forallb (fun n => negb (has_star n)) Object_prototype_names = true)
      by reflexivity.
    rewrite forallb_forall in Hall. apply Hall in Hn. rewrite Hs in Hn. discriminate.
Qed.

Lemma pair_key_plain a b : plain (a ++ "_***_" ++ b) = true.
Proof. apply has_star_plain, has_star_pair_key. Qed.

Lemma parse_item_quad_sym m combined c x y :
  parse_item m combined (quad c x y) = parse_item m combined (quad c y x).
Proof.
  unfold quad. cbn [parse_item]. now rewrite (pair_names_sym (name x) (name y)).
Qed.

Lemma parseExpression_quad m c x y :
  parseExpression m [quad c x y] =
  Ok (Elt (ENum (Num 0))
      :: (if is_zero c then []
          else [Arr [ENum c; get_var m (fst (pair_names (name x) (name y)));
                     get_var m (snd (pair_names (name x) (name y)))]])).
Proof.
  rewrite parseExpression_canonical.
  - unfold canonical, canonical_terms, quad. cbn [entries classify].
    destruct (pair_names (name x) (name y)) as [a b]. cbn [fst snd].
    cbn [constant_sum keys first_seen fold_left mem existsb app flat_map].
    unfold canonical_term. cbn [coeff_sum first_vars]. rewrite String.eqb_refl.
    rewrite number_add_0_r, app_nil_r. reflexivity.
  - unfold quad. repeat constructor. unfold valid_item. cbn [classify].
    now destruct (pair_names (name x) (name y)).
  - unfold quad. cbn [entries classify].
    destruct (pair_names (name x) (name y)) as [a b]. cbn [keys].
    repeat constructor. apply pair_key_plain.
Qed.

(** C9. Canonicalizing the quadratic term (c, x, y) and the quadratic term
    (c, y, x) gives the same stored term, for every coefficient and every two
    variables: the term is filed under the key made of the two names in
    order, and holds the coefficient and the variables the model has under
    these two names, in that order (nothing is stored when the coefficient
    is zero).  The two items are treated alike at every turn of the loop. *)
Theorem quadratic_pair_symmetric m c x y :
  parseExpression m [quad c x y] = parseExpression m [quad c y x]
  /\ parseExpression m [quad c x y] =
     Ok (Elt (ENum (Num 0))
         :: (if is_zero c then []
             else [Arr [ENum c; get_var m (fst (pair_names (name x) (name y)));
                        get_var m (snd (pair_names (name x) (name y)))]]))
  /\ forall combined,
       parse_item m combined (quad c x y) = parse_item m combined (quad c y x).
Proof.
  split; [| split].
  - rewrite !parseExpression_quad. now rewrite (pair_names_sym (name y) (name x)).
  - apply parseExpression_quad.
  - intros combined. apply parse_item_quad_sym.
Qed.

(** ** The terms of the closed form *)

Lemma canonical_terms_spec es it :
  In it (canonical_terms es) <->
  exists k, In k (keys es) /\ is_zero (coeff_sum k es) = false
            /\ it = Arr (ENum (coeff_sum k es) :: first_vars k es).
Proof.
  unfold canonical_terms. rewrite in_flat_map. split.
  - intros (k & Hk & Hin). exists k. apply (proj1 (first_seen_In _ _)) in Hk.
    unfold canonical_term in Hin.
    destruct (is_zero (coeff_sum k es)) eqn:Hz; [contradiction |].
    destruct Hin as [<- | []]. auto.
  - intros (k & Hk & Hz & ->). exists k. split; [now apply first_seen_In |].
    unfold canonical_term. rewrite Hz. now left.
Qed.

(** A key is the name of the variable of a linear item or a pair key. *)
Lemma classify_key m it k c vs :
  classify m it = Some (Filed k c vs) -> linear_name it = Some k \/ has_star k = true.
Proof.
  destruct it as [[n | s | v |] | l]; cbn; try discriminate.
  - intros H. injection H as <- _ _. now left.
  - destruct l as [| [c0 | s | v |] [| [n1 | s1 | x |] [| [n2 | s2 | y |] [| v3 l]]]];
      cbn; try discriminate.
    + intros H. injection H as <- _ _. now left.
    + destruct (pair_names (name x) (name y)) as [a b].
      intros H. injection H as <- _ _. right. apply has_star_pair_key.
Qed.

Lemma keys_plain m l :
  Forall (fun n => plain n = true) (linear_names l) ->
  Forall (fun k => plain k = true) (keys (entries m l)).
Proof.
  induction l as [| it l IH]; intros H; cbn [entries]; [constructor |].
  assert (Hrest : Forall (fun n => plain n = true) (linear_names l)).
  { cbn [linear_names] in H. destruct (linear_name it); [now inversion H | assumption]. }
  destruct (classify m it) as [[n | k c vs] |] eqn:Hc; cbn [keys]; auto.
  constructor; [| auto].
  destruct (classify_key m it k c vs Hc) as [Hn | Hs].
  - cbn [linear_names] in H. rewrite Hn in H. now inversion H.
  - now apply has_star_plain.
Qed.

Lemma linear_names_Permutation l l' :
  Permutation l l' -> Permutation (linear_names l) (linear_names l').
Proof.
  induction 1 as [| it l l' _ IH | a b l | l1 l2 l3 _ IH1 _ IH2]; cbn [linear_names].
  - constructor.
  - destruct (linear_name it); [now constructor | assumption].
  - destruct (linear_name a), (linear_name b); try apply Permutation_refl.
    apply perm_swap.
  - now transitivity (linear_names l2).
Qed.

Lemma parseExpression_merges_example m x :
  plain (name x) = true ->
  parseExpression m [lin 2 x; lin 3 x] = parseExpression m [lin 5 x].
Proof.
  intros Hx.
  rewrite !parseExpression_canonical by (repeat constructor; assumption).
  unfold canonical, canonical_terms, lin. cbn [entries classify constant_sum keys].
  unfold first_seen, mem. cbn [fold_left existsb app]. rewrite String.eqb_refl.
  cbn [orb flat_map app]. unfold canonical_term.
  cbn [coeff_sum first_vars]. rewrite !String.eqb_refl. reflexivity.
Qed.

(** C2.  parseExpression keeps the running constant and the terms in one
    plain object, the constant under the key [constant] and a term under
    the name of its variable, so a variable named constant is filed in the
    slot of the constant.  Canonicalizing [[2,c],[3,c],7] with such a
    variable returns one entry, the text [5,[object Object]7]: the two terms
    were summed in the slot of the constant and the number 7 was then added
    to that array with [+=].  No constant comes first and no term follows
    it.  With the number first the same three items throw a TypeError (the
    term is added to a property of the number 7).  The same items with a
    variable named x return [7, [5,x]] in both orders, as claimed.  The
    other keys that meet a slot or a property of the object show the same
    defect: the terms of variables named by array indices come out in
    numeric order, not in first-seen order; the term of a variable named
    toString is lost although its coefficient is not zero; the term of a
    variable named as the pair key of [a] and [b] and the quadratic term
    [a b] are summed into one term. *)
Theorem parseExpression_constant_slot :
  parseExpression model_c [lin 2 constant_; lin 3 constant_; const 7]
  = Ok [Elt (EStr "5,[object Object]7")]
  /\ parseExpression model_c [const 7; lin 2 constant_; lin 3 constant_] = Throw TypeError
  /\ parseExpression model_c [lin 2 constant_; lin 3 constant_] = Ok [lin 5 constant_]
  /\ parseExpression model_xy [lin 2 x_; lin 3 x_; const 7] = Ok [const 7; lin 5 x_]
  /\ parseExpression model_xy [const 7; lin 2 x_; lin 3 x_] = Ok [const 7; lin 5 x_]
  /\ parseExpression model_indices [lin 1 two_; lin 1 one_]
     = Ok [const 0; lin 1 one_; lin 1 two_]
  /\ parseExpression model_toString [lin 1 toString_] = Ok [const 0]
  /\ parseExpression model_pair [lin 2 a_b_; quad (Num 3) a_ b_] = Ok [const 0; lin 5 a_b_].
Proof. repeat split. Qed.



(** ** addConstr, where no name meets the slot of the constant *)

Lemma number_neg_add a b :
  number_neg (number_add a b) = number_add (number_neg a) (number_neg b).
Proof. destruct a, b; simpl; try reflexivity. f_equal; lia. Qed.

Lemma number_neg_involutive a : number_neg (number_neg a) = a.
Proof. destruct a; simpl; try reflexivity. f_equal; lia. Qed.

Lemma is_zero_eq a : is_zero a = true -> a = Num 0.
Proof. destruct a as [[| p | p] |]; simpl; congruence. Qed.

Lemma linear_stable m l :
  forallb is_linear l = true -> Forall (stable m) (entries m l).
Proof.
  induction l as [| it l IH]; cbn [forallb entries]; intros H; [constructor |].
  apply andb_prop in H as [Hit Hl].
  destruct (classify m it) as [e |] eqn:Hc; [| auto].
  constructor; [| auto].
  destruct it as [[n | s | v |] | a]; cbn in Hc; try discriminate.
  - injection Hc as <-. exact I.
  - injection Hc as <-. intros c. reflexivity.
  - destruct a as [| [c0 | s | v |] [| [n1 | s1 | x |] [| [n2 | s2 | y |] [| v3 a]]]];
      cbn in Hc, Hit; try discriminate.
    injection Hc as <-. intros c. reflexivity.
Qed.

Lemma first_vars_In k es :
  In k (keys es) -> exists c, In (Filed k c (first_vars k es)) es.
Proof.
  induction es as [| [n | k' c' vs'] es IH]; cbn [keys first_vars]; intros H.
  - contradiction.
  - destruct (IH H) as [c Hc]. exists c. now right.
  - destruct (String.eqb_spec k k') as [-> | Hne].
    + exists c'. now left.
    + destruct H as [H | H]; [congruence |].
      destruct (IH H) as [c Hc]. exists c. now right.
Qed.

Lemma entries_app m (a b : expression) :
  entries m (a ++ b)%list = (entries m a ++ entries m b)%list.
Proof.
  induction a as [| it a IH]; cbn [entries app]; [reflexivity |].
  destruct (classify m it); cbn [app]; now rewrite IH.
Qed.

(** The terms of a canonical expression, read again. *)
Lemma entries_canonical_terms m es :
  Forall (stable m) es ->
  entries m (canonical_terms es) = map (summed es) (kept es).
Proof.
  intros Hs. unfold canonical_terms, kept.
  assert (Hk : forall k, In k (first_seen (keys es)) ->
                 forall c, classify m (Arr (ENum c :: first_vars k es))
                           = Some (Filed k c (first_vars k es))).
  { intros k Hk c. apply (proj1 (first_seen_In _ _)), first_vars_In in Hk as [c0 Hin].
    rewrite Forall_forall in Hs. exact (Hs _ Hin c). }
  induction (first_seen (keys es)) as [| k ks IH]; [reflexivity |].
  cbn [flat_map filter]. rewrite entries_app. unfold canonical_term at 1.
  destruct (is_zero (coeff_sum k es)); cbn [negb].
  - cbn [entries app]. apply IH. intros k' Hk'. apply Hk. now right.
  - cbn [entries map]. rewrite (Hk k) by now left. cbn [app]. f_equal.
    apply IH. intros k' Hk'. apply Hk. now right.
Qed.

Lemma coeff_sum_summed es k : forall ks,
  NoDup ks ->
  coeff_sum k (map (summed es) ks) = if mem k ks then coeff_sum k es else Num 0.
Proof.
  induction ks as [| k0 ks IH]; intros Hnd; [reflexivity |].
  inversion Hnd as [| ? ? Hk0 Hnd']; subst.
  cbn [map summed coeff_sum]. unfold mem in *. cbn [existsb].
  destruct (String.eqb_spec k k0) as [-> | Hne]; cbn [orb].
  - rewrite IH by assumption.
    apply (proj2 (mem_false_iff _ _)) in Hk0. unfold mem in Hk0. rewrite Hk0.
    apply number_add_0_r.
  - now apply IH.
Qed.

Lemma kept_NoDup es : NoDup (kept es).
Proof. apply NoDup_filter, first_seen_NoDup. Qed.

Lemma coeff_sum_kept es k :
  coeff_sum k (map (summed es) (kept es)) = coeff_sum k es.
Proof.
  rewrite coeff_sum_summed by apply kept_NoDup.
  destruct (mem k (kept es)) eqn:Hm; [reflexivity |].
  apply (proj1 (mem_false_iff _ _)) in Hm. unfold kept in Hm.
  rewrite filter_In in Hm.
  destruct (is_zero (coeff_sum k es)) eqn:Hz.
  - symmetry. now apply is_zero_eq.
  - symmetry. apply coeff_sum_absent. intros Hin. apply Hm.
    split; [now apply first_seen_In | reflexivity].
Qed.

Lemma keys_summed es ks : keys (map (summed es) ks) = ks.
Proof. induction ks as [| k ks IH]; cbn; [reflexivity | now rewrite IH]. Qed.

Lemma kept_incl es k : In k (kept es) -> In k (keys es).
Proof. unfold kept. rewrite filter_In. intros [H _]. now apply first_seen_In. Qed.

(** negate_term on the terms of a canonical expression *)
Lemma stable_length m k c vs :
  classify m (Arr (ENum c :: vs)) = Some (Filed k c vs) ->
  exists a rest, vs = a :: rest /\ (rest = [] \/ exists b, rest = [b]).
Proof.
  destruct vs as [| a [| b [| d vs]]]; intros H.
  - discriminate.
  - exists a, []. auto.
  - exists a, [b]. eauto.
  - destruct a, b; discriminate.
Qed.

Lemma negate_term_summed m es k :
  (forall c, classify m (Arr (ENum c :: first_vars k es)) = Some (Filed k c (first_vars k es))) ->
  negate_term (Arr (ENum (coeff_sum k es) :: first_vars k es))
  = Arr (ENum (number_neg (coeff_sum k es)) :: first_vars k es).
Proof.
  intros H. destruct (stable_length m k _ _ (H (Num 0))) as (a & rest & -> & [-> | [b ->]]);
    reflexivity.
Qed.

Lemma entries_negated_terms m es :
  Forall (stable m) es ->
  entries m (map negate_term (canonical_terms es))
  = map negate_entry (map (summed es) (kept es)).
Proof.
  intros Hs. unfold canonical_terms, kept.
  assert (Hk : forall k, In k (first_seen (keys es)) ->
                 forall c, classify m (Arr (ENum c :: first_vars k es))
                           = Some (Filed k c (first_vars k es))).
  { intros k Hk c. apply (proj1 (first_seen_In _ _)), first_vars_In in Hk as [c0 Hin].
    rewrite Forall_forall in Hs. exact (Hs _ Hin c). }
  induction (first_seen (keys es)) as [| k ks IH]; [reflexivity |].
  cbn [flat_map filter]. rewrite map_app, entries_app. unfold canonical_term at 1.
  destruct (is_zero (coeff_sum k es)); cbn [negb].
  - cbn [map entries app]. apply IH. intros k' Hk'. apply Hk. now right.
  - cbn [map]. rewrite (negate_term_summed m es k) by (apply Hk; now left).
    cbn [entries]. rewrite (Hk k) by now left. cbn [app negate_entry summed]. f_equal.
    apply IH. intros k' Hk'. apply Hk. now right.
Qed.

Lemma coeff_sum_negate k es :
  coeff_sum k (map negate_entry es) = number_neg (coeff_sum k es).
Proof.
  induction es as [| [n | k' c vs] es IH]; cbn [map negate_entry coeff_sum]; auto.
  destruct (String.eqb k k'); [| assumption].
  now rewrite IH, number_neg_add.
Qed.

Lemma keys_negate es : keys (map negate_entry es) = keys es.
Proof. induction es as [| [n | k c vs] es IH]; cbn; auto. now rewrite IH. Qed.

Lemma constant_sum_negate es :
  constant_sum (map negate_entry es) = number_neg (constant_sum es).
Proof.
  induction es as [| [n | k' c vs] es IH]; cbn [map negate_entry constant_sum]; auto.
  now rewrite IH, number_neg_add.
Qed.

Lemma constant_sum_summed es ks : constant_sum (map (summed es) ks) = Num 0.
Proof. induction ks; cbn; auto. Qed.

Lemma stable_summed m es ks :
  Forall (stable m) es -> incl ks (keys es) -> Forall (stable m) (map (summed es) ks).
Proof.
  intros Hs Hi. apply Forall_forall. intros e He.
  apply in_map_iff in He as (k & <- & Hk).
  apply Hi, first_vars_In in Hk as [c0 Hin].
  rewrite Forall_forall in Hs. exact (Hs _ Hin).
Qed.

Lemma stable_negate m es : Forall (stable m) es -> Forall (stable m) (map negate_entry es).
Proof.
  intros H. apply Forall_forall. intros e He.
  apply in_map_iff in He as (e0 & <- & Hin).
  rewrite Forall_forall in H. specialize (H _ Hin). destruct e0; exact H.
Qed.

Lemma canonical_terms_valid m es :
  Forall (stable m) es ->
  Forall (fun it => valid_item m it = true) (canonical_terms es)
  /\ Forall (fun it => valid_item m it = true) (map negate_term (canonical_terms es)).
Proof.
  intros Hs.
  assert (Hk : forall k, In k (keys es) ->
                 forall c, classify m (Arr (ENum c :: first_vars k es))
                           = Some (Filed k c (first_vars k es))).
  { intros k Hk c. apply first_vars_In in Hk as [c0 Hin].
    rewrite Forall_forall in Hs. exact (Hs _ Hin c). }
  split; apply Forall_forall; intros it Hin.
  - apply canonical_terms_spec in Hin as (k & Hin & _ & ->).
    unfold valid_item. now rewrite (Hk k Hin).
  - apply in_map_iff in Hin as (it0 & <- & Hin).
    apply canonical_terms_spec in Hin as (k & Hin & _ & ->).
    rewrite (negate_term_summed m es k (Hk k Hin)).
    unfold valid_item. now rewrite (Hk k Hin).
Qed.

Lemma entries_second_pass m l r :
  Forall (stable m) (entries m l) -> Forall (stable m) (entries m r) ->
  entries m (canonical m l ++ map negate_term (canonical m r))%list
  = second_pass (entries m l) (entries m r).
Proof.
  intros Hl Hr. unfold canonical, second_pass.
  rewrite entries_app. cbn [map entries classify negate_term item_toNumber elt_toNumber].
  rewrite entries_canonical_terms, entries_negated_terms by assumption.
  reflexivity.
Qed.

Lemma second_pass_sums es_l es_r k :
  constant_sum (second_pass es_l es_r)
    = number_add (constant_sum es_l) (number_neg (constant_sum es_r))
  /\ coeff_sum k (second_pass es_l es_r)
     = number_add (coeff_sum k es_l) (number_neg (coeff_sum k es_r))
  /\ keys (second_pass es_l es_r) = (kept es_l ++ kept es_r)%list.
Proof.
  unfold second_pass. repeat split.
  - rewrite constant_sum_app. cbn [constant_sum].
    rewrite constant_sum_negate, !constant_sum_summed. cbn [number_neg Z.opp].
    now rewrite !number_add_0_r.
  - rewrite coeff_sum_app. cbn [coeff_sum].
    now rewrite coeff_sum_negate, !coeff_sum_kept.
  - rewrite keys_app. cbn [keys]. now rewrite keys_negate, !keys_summed.
Qed.

Lemma second_pass_stable m es_l es_r :
  Forall (stable m) es_l -> Forall (stable m) es_r ->
  Forall (stable m) (second_pass es_l es_r).
Proof.
  intros Hl Hr. unfold second_pass. apply Forall_app. split.
  - constructor; [exact I |]. apply stable_summed; [assumption |].
    intros k. apply kept_incl.
  - constructor; [exact I |]. apply stable_negate, stable_summed; [assumption |].
    intros k. apply kept_incl.
Qed.

(** Where no name meets the slot of the constant, addConstr does what the
    specification says: the constraint is stored with a left side whose
    constant is zero and in which the coefficient under every key is the sum on
    the left minus the sum on the right, and with the constant of the right
    minus the constant of the left as the right side. *)
Lemma addConstr_merges m lhs_ cmp rhs_ :
  Forall (fun it => valid_item m it = true) lhs_ ->
  Forall (fun it => valid_item m it = true) (rhs_items rhs_) ->
  Forall (fun k => plain k = true) (keys (entries m lhs_)) ->
  Forall (fun k => plain k = true) (keys (entries m (rhs_items rhs_))) ->
  Forall (stable m) (entries m lhs_) ->
  Forall (stable m) (entries m (rhs_items rhs_)) ->
  valid_comparison (if String.eqb cmp "==" then "=" else cmp) = true ->
  exists c,
    addConstr lhs_ cmp rhs_ m = (set_constraints (constraints m ++ [c])%list m, Ok c)
    /\ constant_slot (lhs c) = Elt (ENum (Num 0))
    /\ rhs c = number_add (constant_sum (entries m (rhs_items rhs_)))
                          (number_neg (constant_sum (entries m lhs_)))
    /\ (forall k, coeff_sum k (entries m (lhs c))
                  = number_add (coeff_sum k (entries m lhs_))
                               (number_neg (coeff_sum k (entries m (rhs_items rhs_)))))
    /\ comparison c = (if String.eqb cmp "==" then "=" else cmp).
Proof.
  intros Hvl Hvr Hpl Hpr Hsl Hsr Hcmp.
  pose (es_l := entries m lhs_). pose (es_r := entries m (rhs_items rhs_)).
  assert (Hr : match rhs_ with
               | RhsNumber n => Ok [Elt (ENum n)]
               | RhsExpression e => parseExpression m e
               end = Ok (canonical m (rhs_items rhs_))).
  { destruct rhs_ as [n | e]; cbn [rhs_items].
    - unfold canonical. cbn. now rewrite number_add_0_r.
    - now apply parseExpression_canonical. }
  assert (Hfinal : parseExpression m (canonical m lhs_
                                      ++ map negate_term (canonical m (rhs_items rhs_)))%list
                   = Ok (canonical m (canonical m lhs_
                                      ++ map negate_term (canonical m (rhs_items rhs_)))%list)).
  { apply parseExpression_canonical.
    - unfold canonical. apply Forall_app. split.
      + constructor; [reflexivity | now apply canonical_terms_valid].
      + cbn [map]. constructor; [reflexivity | now apply canonical_terms_valid].
    - rewrite entries_second_pass by assumption. fold es_l es_r.
      destruct (second_pass_sums es_l es_r EmptyString) as (_ & _ & ->).
      apply Forall_app. split; apply Forall_forall; intros k Hk; apply kept_incl in Hk.
      + rewrite Forall_forall in Hpl. now apply Hpl.
      + rewrite Forall_forall in Hpr. now apply Hpr. }
  unfold addConstr.
  rewrite (parseExpression_canonical m lhs_ Hvl Hpl), Hr, Hcmp, Hfinal.
  eexists. split; [reflexivity |].
  cbn [lhs rhs comparison].
  set (combined := (canonical m lhs_ ++ map negate_term (canonical m (rhs_items rhs_)))%list).
  unfold canonical. cbn [zero_constant constant_slot item_toNumber elt_toNumber].
  subst combined. rewrite entries_second_pass by assumption. fold es_l es_r.
  split; [reflexivity |]. split; [| split; [| reflexivity]].
  - destruct (second_pass_sums es_l es_r EmptyString) as (-> & _).
    rewrite number_neg_add, number_neg_involutive. apply number_add_comm.
  - intros k. cbn [entries classify coeff_sum].
    rewrite entries_canonical_terms by (now apply second_pass_stable).
    rewrite coeff_sum_kept.
    now destruct (second_pass_sums es_l es_r k) as (_ & -> & _).
Qed.

Lemma string_gt_asym a b : string_gt a b = true -> string_gt b a = false.
Proof.
  unfold string_gt. rewrite (String.compare_antisym b a).
  destruct (String.compare a b); simpl; congruence.
Qed.

Lemma pair_names_sorted u v a b :
  pair_names u v = (a, b) -> pair_names a b = (a, b).
Proof.
  unfold pair_names. destruct (string_gt u v) eqn:Hg; intros H; injection H as <- <-.
  - now rewrite (string_gt_asym u v Hg).
  - now rewrite Hg.
Qed.

Lemma pair_names_members u v a b :
  pair_names u v = (a, b) -> (a = u /\ b = v) \/ (a = v /\ b = u).
Proof.
  unfold pair_names. destruct (string_gt u v); intros H; injection H as <- <-; auto.
Qed.

Lemma pair_key_inj a : forall a' b b',
  has_star a = false -> has_star a' = false ->
  a ++ "_***_" ++ b = a' ++ "_***_" ++ b' -> a = a' /\ b = b'.
Proof.
  induction a as [| c a IH]; intros [| c' a'] b b' Ha Ha' H.
  - cbn in H. injection H as <-. auto.
  - cbn in H. injection H as <- H.
    destruct a' as [| d a'']; cbn in H; [discriminate |].
    injection H as <- _. cbn in Ha'. discriminate.
  - cbn in H. injection H as -> H.
    destruct a as [| d a'']; cbn in H; [discriminate |].
    injection H as -> _. cbn in Ha. discriminate.
  - cbn in H. injection H as <- H. cbn in Ha, Ha'.
    apply orb_false_elim in Ha as [_ Ha]. apply orb_false_elim in Ha' as [_ Ha'].
    destruct (IH a' b b' Ha Ha' H) as [-> ->]. auto.
Qed.

Lemma entries_In m e : forall l,
  In e (entries m l) -> exists it, In it l /\ classify m it = Some e.
Proof.
  induction l as [| it l IH]; cbn [entries]; [contradiction |].
  destruct (classify m it) as [e0 |] eqn:Hc.
  - intros [<- | H]; [exists it; split; [now left | assumption] |].
    destruct (IH H) as (it' & Hin & Hc'). exists it'. split; [now right | assumption].
  - intros H. destruct (IH H) as (it' & Hin & Hc'). exists it'. split; [now right | assumption].
Qed.

(** What is filed for an item: under the name of its variable, that
    variable; or under a pair key, the two variables the model has. *)
Lemma classify_Filed m it k c vs :
  classify m it = Some (Filed k c vs) ->
  (exists v, In v (item_vars it) /\ k = name v /\ vs = [EVar v])
  \/ (exists x y a b, In x (item_vars it) /\ In y (item_vars it)
        /\ pair_names (name x) (name y) = (a, b)
        /\ k = a ++ "_***_" ++ b /\ vs = [get_var m a; get_var m b]).
Proof.
  destruct it as [[n | s | v |] | l]; cbn; try discriminate.
  - intros H. injection H as <- _ <-. left. exists v. auto.
  - destruct l as [| [c0 | s | v |] [| [n1 | s1 | x |] [| [n2 | s2 | y |] [| v3 l]]]];
      cbn; try discriminate.
    + intros H. injection H as <- _ <-. left. exists x. auto.
    + destruct (pair_names (name x) (name y)) as [a b] eqn:Hp.
      intros H. injection H as <- _ <-. right. exists x, y, a, b. auto 10.
Qed.

Lemma well_named_consistent m l : well_named m l -> consistent (entries m l).
Proof.
  intros Hw k c vs k' c' vs' H1 H2 <-.
  apply entries_In in H1 as (it1 & Hin1 & Hc1).
  apply entries_In in H2 as (it2 & Hin2 & Hc2).
  apply classify_Filed in Hc1 as [(v & Hv & -> & ->) | (x & y & a & b & Hx & Hy & Hp & -> & ->)];
    apply classify_Filed in Hc2
      as [(v' & Hv' & Hk & ->) | (x' & y' & a' & b' & Hx' & Hy' & Hp' & Hk & ->)].
  - destruct (Hw it1 v Hin1 Hv) as [Hr _]. destruct (Hw it2 v' Hin2 Hv') as [Hr' _].
    unfold registered in *. rewrite Hk in Hr. congruence.
  - destruct (Hw it1 v Hin1 Hv) as [_ Hs]. rewrite Hk, has_star_pair_key in Hs. discriminate.
  - destruct (Hw it2 v' Hin2 Hv') as [_ Hs]. rewrite <- Hk, has_star_pair_key in Hs.
    discriminate.
  - assert (Ha : has_star a = false /\ has_star a' = false).
    { pose proof (proj2 (Hw it1 x Hin1 Hx)). pose proof (proj2 (Hw it1 y Hin1 Hy)).
      pose proof (proj2 (Hw it2 x' Hin2 Hx')). pose proof (proj2 (Hw it2 y' Hin2 Hy')).
      destruct (pair_names_members _ _ _ _ Hp) as [[-> _] | [-> _]];
        destruct (pair_names_members _ _ _ _ Hp') as [[-> _] | [-> _]];
        split; assumption. }
    destruct (pair_key_inj a a' b b' (proj1 Ha) (proj2 Ha) Hk) as [-> ->]. reflexivity.
Qed.

Lemma get_var_registered m v : registered m v -> get_var m (name v) = EVar v.
Proof. unfold registered, get_var. now intros ->. Qed.

Lemma well_named_stable m l : well_named m l -> Forall (stable m) (entries m l).
Proof.
  intros Hw. apply Forall_forall. intros [n | k c vs] He; [exact I |].
  apply entries_In in He as (it & Hin & Hc).
  apply classify_Filed in Hc as [(v & Hv & -> & ->) | (x & y & a & b & Hx & Hy & Hp & -> & ->)].
  - intros c0. reflexivity.
  - intros c0.
    pose proof (get_var_registered m x (proj1 (Hw it x Hin Hx))) as Hgx.
    pose proof (get_var_registered m y (proj1 (Hw it y Hin Hy))) as Hgy.
    destruct (pair_names_members _ _ _ _ Hp) as [[-> ->] | [-> ->]].
    + rewrite Hgx, Hgy. cbn [classify]. rewrite Hp, Hgx, Hgy. reflexivity.
    + rewrite Hgx, Hgy. cbn [classify]. rewrite (pair_names_sym (name y) (name x)), Hp.
      rewrite Hgx, Hgy. reflexivity.
Qed.

(** The same, for the variables the model has under their names. *)
Lemma addConstr_well_named m lhs_ cmp rhs_ :
  Forall (fun it => valid_item m it = true) lhs_ ->
  Forall (fun it => valid_item m it = true) (rhs_items rhs_) ->
  Forall (fun n => plain n = true) (linear_names lhs_) ->
  Forall (fun n => plain n = true) (linear_names (rhs_items rhs_)) ->
  well_named m lhs_ -> well_named m (rhs_items rhs_) ->
  valid_comparison (if String.eqb cmp "==" then "=" else cmp) = true ->
  exists c,
    addConstr lhs_ cmp rhs_ m = (set_constraints (constraints m ++ [c])%list m, Ok c)
    /\ constant_slot (lhs c) = Elt (ENum (Num 0))
    /\ rhs c = number_add (constant_sum (entries m (rhs_items rhs_)))
                          (number_neg (constant_sum (entries m lhs_)))
    /\ (forall k, coeff_sum k (entries m (lhs c))
                  = number_add (coeff_sum k (entries m lhs_))
                               (number_neg (coeff_sum k (entries m (rhs_items rhs_)))))
    /\ comparison c = (if String.eqb cmp "==" then "=" else cmp).
Proof.
  intros Hvl Hvr Hpl Hpr Hwl Hwr Hcmp.
  apply addConstr_merges; auto using keys_plain, well_named_stable.
Qed.

(** An operator other than the three (and [==]) makes addConstr throw, when
    both sides are read. *)
Lemma addConstr_invalid_operator m lhs_ cmp rhs_ l r :
  parseExpression m lhs_ = Ok l ->
  match rhs_ with
  | RhsNumber n => Ok [Elt (ENum n)]
  | RhsExpression e => parseExpression m e
  end = Ok r ->
  valid_comparison (if String.eqb cmp "==" then "=" else cmp) = false ->
  addConstr lhs_ cmp rhs_ m = (m, Throw InvalidComparisonOperator).
Proof.
  intros Hl Hr Hc. unfold addConstr. now rewrite Hl, Hr, Hc.
Qed.

(** ** What the readers leave as it is *)

Lemma set_value_frame n v m :
  constraints (set_value n v m) = constraints m
  /\ objective (set_value n v m) = objective m
  /\ status (set_value n v m) = status m
  /\ ObjVal (set_value n v m) = ObjVal m.
Proof. unfold set_value. destruct (assoc_get n (variables m)); repeat split. Qed.

Lemma fold_set_value_frame (l : list (string * prim)) : forall m,
  let m' := fold_left (fun m '(n, v) => set_value n v m) l m in
  constraints m' = constraints m /\ objective m' = objective m
  /\ status m' = status m /\ ObjVal m' = ObjVal m.
Proof.
  induction l as [| [n v] l IH]; intros m; cbn; [repeat split |].
  destruct (IH (set_value n v m)) as (H1 & H2 & H3 & H4).
  destruct (set_value_frame n v m) as (F1 & F2 & F3 & F4).
  repeat split; congruence.
Qed.

Lemma readGLPKSolution_status m sol :
  status (readGLPKSolution m sol) = PNum (result_status sol).
Proof.
  unfold readGLPKSolution.
  destruct (fold_set_value_frame (result_vars sol) (set_status (PNum (result_status sol)) m))
    as (_ & _ & H & _).
  destruct (result_dual sol); cbn; exact H.
Qed.

Lemma readGLPKSolution_ObjVal m sol : ObjVal (readGLPKSolution m sol) = ObjVal m.
Proof.
  unfold readGLPKSolution.
  destruct (fold_set_value_frame (result_vars sol) (set_status (PNum (result_status sol)) m))
    as (_ & _ & _ & H).
  destruct (result_dual sol); cbn; exact H.
Qed.

Lemma readHighsSolution_ObjVal m sol : ObjVal (readHighsSolution m sol) = ObjVal m.
Proof.
  unfold readHighsSolution.
  destruct (negb (Status sol =? "Optimal")%string && negb (Status sol =? "Feasible")%string)%bool;
    [reflexivity |].
  destruct (fold_set_value_frame (Columns sol) (set_status (PStr (Status sol)) m))
    as (_ & _ & _ & H).
  cbn. exact H.
Qed.

Lemma readHighsSolution_not_solved m sol :
  Status sol <> "Optimal" -> Status sol <> "Feasible" ->
  readHighsSolution m sol = set_status (PStr (Status sol)) m.
Proof.
  intros H1 H2. unfold readHighsSolution.
  destruct (String.eqb_spec (Status sol) "Optimal"); [contradiction |].
  destruct (String.eqb_spec (Status sol) "Feasible"); [contradiction |].
  reflexivity.
Qed.

Lemma clear_previous_solution_resets m :
  Forall (fun e => value (snd e) = PNull) (variables (clear_previous_solution m))
  /\ Forall (fun c => primal c = PNull /\ dual c = PNull)
            (constraints (clear_previous_solution m))
  /\ solution (clear_previous_solution m) = NoSolution
  /\ ObjVal (clear_previous_solution m) = PNull
  /\ status (clear_previous_solution m) = status m.
Proof.
  unfold clear_previous_solution. cbn. repeat split.
  - induction (variables m) as [| [k v] vs IH]; cbn; constructor; auto.
  - induction (constraints m) as [| c cs IH]; cbn; constructor; auto.
Qed.

(** C10. When the status of a highs answer is neither Optimal nor Feasible,
    readHighsSolution sets the status of the model and nothing else: the
    variables and the constraints are the ones it was given.  In a solve
    with a highs handle they are therefore as the head of solve left them:
    every value, primal and dual is null. *)
Theorem readHighsSolution_unsolved_frame solver options m text sol :
  Status sol <> "Optimal" -> Status sol <> "Feasible" ->
  (has_branchAndCut solver && has_lastSolvedModel solver)%bool = false ->
  has_GLP_OPT solver = false ->
  has_Highs_run solver = true ->
  Model_toLPFormat (clear_previous_solution m) = Ok text ->
  highs_solve solver text options = Ok sol ->
  (forall m0, variables (readHighsSolution m0 sol) = variables m0
              /\ constraints (readHighsSolution m0 sol) = constraints m0
              /\ status (readHighsSolution m0 sol) = PStr (Status sol))
  /\ snd (solve solver options m) = Ok tt
  /\ status (fst (solve solver options m)) = PStr (Status sol)
  /\ Forall (fun e => value (snd e) = PNull) (variables (fst (solve solver options m)))
  /\ Forall (fun c => primal c = PNull /\ dual c = PNull)
            (constraints (fst (solve solver options m))).
Proof.
  intros H1 H2 Hj Hg Hh Ht Hs.
  split.
  - intros m0. rewrite readHighsSolution_not_solved by assumption. repeat split.
  - unfold solve, bindM, modify, getM, lift, ret. cbv beta iota zeta.
    rewrite Hj, Hg, Hh. cbv beta iota zeta. rewrite Ht. cbv beta iota zeta.
    rewrite Hs. cbv beta iota zeta. cbn [fst snd].
    rewrite readHighsSolution_not_solved by assumption. cbn.
    destruct (clear_previous_solution_resets m) as (Hv & Hc & _).
    repeat split; assumption.
Qed.

Lemma readHighsSolution_unsolved_frame_witness :
  Status highs_infeasible <> "Optimal" /\ Status highs_infeasible <> "Feasible"
  /\ status (fst (solve (highs_handle highs_infeasible) []
                    (fst (solve (highs_handle highs_answer) [] model_plus2))))
     = PStr "Infeasible"
  /\ Forall (fun e => value (snd e) = PNull)
            (variables (fst (solve (highs_handle highs_infeasible) []
                               (fst (solve (highs_handle highs_answer) [] model_plus2))))).
Proof.
  assert (H1 : Status highs_infeasible <> "Optimal") by discriminate.
  assert (H2 : Status highs_infeasible <> "Feasible") by discriminate.
  split; [exact H1 | split; [exact H2 |]].
  pose proof (readHighsSolution_unsolved_frame (highs_handle highs_infeasible) []
                (fst (solve (highs_handle highs_answer) [] model_plus2))
                (line "Maximize" (line "obj: 2 + 1 x" (line "Subject To"
                   (line " c1: 1 x <= 3" (line "Bounds" (line "End" EmptyString))))))
                highs_infeasible H1 H2 eq_refl eq_refl eq_refl eq_refl eq_refl)
    as (_ & _ & Hst & Hv & _).
  split; [exact Hst | exact Hv].
Defined.

(** ** Solve and the three bridges on the examples *)

(** C4. The head of solve sets the solution and the objective value to
    null, and the value of every variable and the primal and dual of every
    constraint, but leaves the status as it is.  After a solve with highs the
    status is Optimal; a solve with glpk.js of the model made quadratic throws
    and the status is still Optimal; so it is after a solve with a handle of
    no known engine, which returns without an answer. *)
Theorem solve_keeps_status :
  (forall m, status (clear_previous_solution m) = status m)
  /\ status solved_by_highs = PStr "Optimal"
  /\ snd (solve (glpk_handle glpk_answer) [] made_quadratic) = Throw QuadraticUnsupported
  /\ status (fst (solve (glpk_handle glpk_answer) [] made_quadratic)) = PStr "Optimal"
  /\ snd (solve unknown_handle [] solved_by_highs) = Ok tt
  /\ status (fst (solve unknown_handle [] solved_by_highs)) = PStr "Optimal"
  /\ map (fun e => value (snd e)) (variables (fst (solve unknown_handle [] solved_by_highs)))
     = [PNull].
Proof. repeat split. Qed.

(** C5. The readers of the glpk.js and of the highs answers do not touch the
    objective value: after a solve of the model with objective [x + 2] and
    constraint [x <= 3] it is null, as the head of solve left it.  The reader
    of the jsLPSolver answer adds the constant: 5. *)
Theorem objective_value_decoding :
  (forall m sol, ObjVal (readGLPKSolution m sol) = ObjVal m)
  /\ (forall m sol, ObjVal (readHighsSolution m sol) = ObjVal m)
  /\ ObjVal (fst (solve (glpk_handle glpk_answer) [] model_plus2)) = PNull
  /\ ObjVal (fst (solve (highs_handle highs_answer) [] model_plus2)) = PNull
  /\ ObjVal (fst (solve (jslp_handle jslp_answer) [] model_plus2)) = PNum (Num 5).
Proof.
  split; [exact readGLPKSolution_ObjVal |].
  split; [exact readHighsSolution_ObjVal |].
  repeat split.
Qed.

(** The reader of the jsLPSolver answer sets the objective value when the
    result is truthy: a result of zero leaves it null. *)
Lemma readJSLPSolverSolution_zero_result :
  ObjVal (readJSLPSolverSolution (clear_previous_solution model_plus2) jslp_answer_zero)
  = PNull.
Proof. reflexivity. Qed.

Lemma readJSLPSolverSolution_ObjVal m sol :
  number_truthy (js_result sol) = true ->
  ObjVal (readJSLPSolverSolution m sol)
  = number_plus_item (js_result sol) (constant_slot (obj_expression (objective m))).
Proof.
  intros H. unfold readJSLPSolverSolution. rewrite H. cbn [ObjVal set_ObjVal].
  do 3 f_equal.
  assert (Hfold : forall (vs : list (string * Var)) m0,
             objective
               (fold_left (fun m '(varName, _) =>
                             match js_solution_get sol varName with
                             | Some v => set_value varName v m
                             | None => set_value varName (PNum (Num 0)) m
                             end) vs m0) = objective m0).
  { induction vs as [| [k v] vs IH]; intros m0; cbn [fold_left]; [reflexivity |].
    rewrite IH. destruct (js_solution_get sol k); apply set_value_frame. }
  now rewrite Hfold.
Qed.

(** C6. The reader of the glpk.js answer stores the number of the engine as
    the status: 5 for an optimal answer, not the text Optimal. *)
Theorem glpk_status_stored_as_number :
  (forall m sol, status (readGLPKSolution m sol) = PNum (result_status sol))
  /\ status (fst (solve (glpk_handle glpk_answer) [] model_plus2)) = PNum (Num 5)
  /\ status (fst (solve (glpk_handle glpk_answer) [] model_plus2)) <> PStr "Optimal".
Proof.
  split; [exact readGLPKSolution_status |].
  split; [reflexivity | discriminate].
Qed.

Lemma Model_toGLPKFormat_quadratic m :
  isQuadratic m = true -> Model_toGLPKFormat m = Throw QuadraticUnsupported.
Proof. intros H. unfold Model_toGLPKFormat. now rewrite H. Qed.

Lemma foldM_Throw {A B} (f : B -> A -> result B) (P : error -> Prop) :
  (forall b a e, f b a = Throw e -> P e) ->
  forall l b e, foldM f b l = Throw e -> P e.
Proof.
  intros Hf. induction l as [| a l IH]; intros b e H; cbn in H; [discriminate |].
  destruct (f b a) as [b' | e'] eqn:Hfa; cbn in H.
  - eapply IH; eassumption.
  - injection H as <-. eapply Hf; eassumption.
Qed.

Lemma term_var_name_Throw l e : term_var_name l = Throw e -> e = TypeError.
Proof.
  unfold term_var_name. destruct (nth_error l 1) as [[n | s | v |] |]; congruence.
Qed.

Lemma js_variable_row_Throw req n e : js_variable_row req n = Throw e -> e = TypeError.
Proof.
  unfold js_variable_row. destruct (assoc_get _ _); congruence.
Qed.

Lemma js_objective_term_Throw req term e :
  js_objective_term req term = Throw e -> e = TypeError.
Proof.
  destruct term as [el | l]; cbn; [discriminate |].
  destruct (term_var_name l) as [n | e1] eqn:H1; cbn.
  - destruct (js_variable_row req n) as [[key row] | e2] eqn:H2; cbn; [discriminate |].
    intros H. injection H as <-. eapply js_variable_row_Throw; eassumption.
  - intros H. injection H as <-. eapply term_var_name_Throw; eassumption.
Qed.

Lemma js_constraint_term_Throw constrName req term e :
  js_constraint_term constrName req term = Throw e -> e = TypeError.
Proof.
  destruct term as [el | l]; cbn; [discriminate |].
  destruct (term_var_name l) as [n | e1] eqn:H1; cbn.
  - destruct (js_variable_row req n) as [[key row] | e2] eqn:H2; cbn; [discriminate |].
    intros H. injection H as <-. eapply js_variable_row_Throw; eassumption.
  - intros H. injection H as <-. eapply term_var_name_Throw; eassumption.
Qed.

Lemma js_translate_constraints_Throw cs : forall req index e,
  js_translate_constraints req cs index = Throw e -> e = TypeError.
Proof.
  induction cs as [| constr cs IH]; intros req index e H; cbn in H; [discriminate |].
  match type of H with
  | bind (foldM ?f ?b ?l) _ = _ => destruct (foldM f b l) as [req2 | e2] eqn:Hf
  end; cbn in H.
  - eapply IH; eassumption.
  - injection H as <-.
    eapply (foldM_Throw _ (fun e => e = TypeError)); [| exact Hf].
    intros b a e0. apply js_constraint_term_Throw.
Qed.

(** The encoder for jsLPSolver throws nothing but a TypeError (a term whose
    variable is undefined or unknown to the model): a quadratic term is never
    the reason of a failure. *)
Lemma toJSLPSolverFormat_Throw m options e :
  Model_toJSLPSolverFormat m options = Throw e -> e = TypeError.
Proof.
  unfold Model_toJSLPSolverFormat, toJSLPSolverFormat.
  match goal with
  | |- bind (foldM ?f ?b ?l) _ = _ -> _ => destruct (foldM f b l) as [req2 | e2] eqn:Hf
  end; cbn.
  - apply js_translate_constraints_Throw.
  - intros H. injection H as <-.
    eapply (foldM_Throw _ (fun e => e = TypeError)); [| exact Hf].
    intros b a e0. apply js_objective_term_Throw.
Qed.

(** C7. The model with objective [x * x] is refused by toGLPKFormat, and is
    encoded by toJSLPSolverFormat without an error: the quadratic term is
    written as the coefficient 1 of [x] in the objective. *)
Theorem quadratic_model_encoded_for_jsLPSolver :
  isQuadratic model_quadratic = true
  /\ Model_toGLPKFormat model_quadratic = Throw QuadraticUnsupported
  /\ Model_toJSLPSolverFormat model_quadratic []
     = Ok {| optimize := "objective"; opType := "min";
             js_constraints := [("c0", [("min", BNum (Num 1))])];
             js_variables := [("x", [("objective", ENum (Num 1)); ("c0", ENum (Num 1))])];
             ints := []; binaries := []; unrestricted := []; js_options := [] |}.
Proof. repeat split. Qed.

(** ** The grammar on the examples *)

(** C8. ConstraintSense returns [<=], [>=] and [=] as they are and [<=] for
    [<].  It does not match [>]; on [=<] and [=>] it matches [=] alone and
    leaves the second character, so that the constraint, and the file, are
    not parsed. *)
Theorem ConstraintSense_tokens : forall parseFloat,
  ConstraintSense "<= 3" = Some ("<=", " 3")
  /\ ConstraintSense ">= 3" = Some (">=", " 3")
  /\ ConstraintSense "= 3" = Some ("=", " 3")
  /\ ConstraintSense "< 3" = Some ("<=", " 3")
  /\ ConstraintSense "> 3" = None
  /\ ConstraintSense "=< 3" = Some ("=", "< 3")
  /\ ConstraintSense "=> 3" = Some ("=", "> 3")
  /\ Constraint parseFloat "c1: 1 x > 3" = None
  /\ Constraint parseFloat "c1: 1 x =< 3" = None
  /\ Constraint parseFloat "c1: 1 x => 3" = None
  /\ parse parseFloat (lp_small ">") = Throw SyntaxError
  /\ parse parseFloat (lp_small "=<") = Throw SyntaxError
  /\ parse parseFloat (lp_small "=>") = Throw SyntaxError
  /\ (exists f, parse parseFloat (lp_small "<") = Ok f
                /\ map pc_sense (lp_constraints f) = ["<="]).
Proof.
  intros parseFloat. repeat split; try reflexivity.
  eexists. split; vm_compute; reflexivity.
Qed.

(** On [=<] and [=>] the alternative [=] matches, whatever follows; [>]
    matches nothing unless [=] follows it. *)
Lemma ConstraintSense_shadowed rest :
  ConstraintSense ("=<" ++ rest) = Some ("=", "<" ++ rest)
  /\ ConstraintSense ("=>" ++ rest) = Some ("=", ">" ++ rest).
Proof. split; reflexivity. Qed.

Lemma ConstraintSense_greater rest :
  startsWith "=" rest = false -> ConstraintSense (">" ++ rest) = None.
Proof.
  destruct rest as [| c rest]; [reflexivity |].
  destruct c as [[] [] [] [] [] [] [] []]; intros H; try reflexivity; discriminate H.
Qed.

(** The first three alternatives take their token whatever follows. *)
Lemma ConstraintSense_passes rest :
  ConstraintSense ("<=" ++ rest) = Some ("<=", rest)
  /\ ConstraintSense (">=" ++ rest) = Some (">=", rest)
  /\ ConstraintSense ("=" ++ rest) = Some ("=", rest).
Proof. repeat split. Qed.

(** C1. For the model with objective [x], constraint [x <= 3] and no bound
    other than the default, toLPFormat writes a Bounds header with no line
    under it; the grammar asks for one bound at least after the header, so the
    text is not parsed and fromLPFormat throws, leaving the model it was given
    as it was. *)
Theorem roundtrip_small_model : forall parseFloat m0,
  toLPFormat model_small = Ok text_small
  /\ parse parseFloat text_small = Throw SyntaxError
  /\ fromLPFormat parseFloat text_small m0 = (m0, Throw SyntaxError)
  /\ roundtrip parseFloat model_small = (new_Model, Throw SyntaxError).
Proof. intros parseFloat m0. repeat split. Qed.

(** A Bounds header followed by End is no Bounds section, whatever comes
    after. *)
Lemma Bounds_needs_a_bound parseFloat rest :
  Bounds parseFloat ("Bounds" ++ nl ++ "End" ++ rest) = None.
Proof. reflexivity. Qed.

(** With a line under the Bounds header the same model comes back as it
    was. *)
Lemma roundtrip_bounded_model :
  roundtrip parseFloat_integer model_bounded = (model_bounded, Ok tt).
Proof. vm_compute. reflexivity. Qed.

(** A constant in the objective is written first and read as the coefficient
    of a variable named [+]; the text is not parsed. *)
Lemma roundtrip_objective_constant parseFloat :
  toLPFormat model_plus2 = Ok text_plus2
  /\ Term parseFloat "2 + 1 x"
     = Some ({| coefficient := parseFloat "2"; variable := Some "+" |}, " 1 x")
  /\ roundtrip parseFloat model_plus2 = (new_Model, Throw SyntaxError).
Proof. repeat split. Qed.

(** C3. With a variable named constant, addConstr([[1, c]], <=, 5) stores a
    constraint whose left side has lost the term and whose right side is not
    a number.  With ordinary names the two constraints of the documentation
    are the same: left side [x + 2 y], right side 5. *)
Theorem addConstr_named_constant :
  snd (addConstr [lin 1 constant_] "<=" (RhsNumber (Num 5)) model_c)
  = Ok {| lhs := [const 0]; comparison := "<="; rhs := NaN;
          primal := PUndefined; dual := PUndefined |}
  /\ snd (addConstr [Elt (EVar x_); lin 2 y_; const 3] "<=" (RhsNumber (Num 8)) model_xy)
     = snd (addConstr [Elt (EVar x_); lin 2 y_] "<=" (RhsNumber (Num 5)) model_xy)
  /\ snd (addConstr [Elt (EVar x_); lin 2 y_] "<=" (RhsNumber (Num 5)) model_xy)
     = Ok {| lhs := [const 0; lin 1 x_; lin 2 y_]; comparison := "<="; rhs := Num 5;
             primal := PUndefined; dual := PUndefined |}.
Proof. repeat split. Qed.

(** The other example of the documentation: [3 x + 4 y >= 12 - x] is stored
    as [4 x + 4 y >= 12]. *)
Lemma addConstr_both_sides :
  snd (addConstr [lin 3 x_; lin 4 y_] ">=" (RhsExpression [const 12; lin (-1) x_]) model_xy)
  = Ok {| lhs := [const 0; lin 4 x_; lin 4 y_]; comparison := ">="; rhs := Num 12;
          primal := PUndefined; dual := PUndefined |}.
Proof. reflexivity. Qed.

(* ================================================================== *)
(** * Further properties of the model class, the bridges and the grammar *)

(** ** Decimal text of the counters *)

Lemma digit_char_value (d : Z) :
  0 <= d < 10 ->
  is_digit (digit_char (Z.to_nat d)) = true /\
  Z.of_nat (nat_of_ascii (digit_char (Z.to_nat d)) - 48) = d.
Proof.
  intros H.
  assert (d = 0 \/ d = 1 \/ d = 2 \/ d = 3 \/ d = 4 \/ d = 5 \/ d = 6 \/ d = 7 \/ d = 8 \/ d = 9)
    as Hd by lia.
  repeat (destruct Hd as [-> | Hd]; [split; reflexivity |]).
  subst d. split; reflexivity.
Qed.

Lemma digits_of_pos_fuel_value (fuel : nat) :
  forall n acc a,
    0 <= n < 2 ^ Z.of_nat fuel ->
    exists k, 0 <= k /\
      digits_value (digits_of_pos_fuel fuel n acc) a = digits_value acc (a * 10 ^ k + n).
Proof.
  induction fuel as [| fuel IH]; intros n acc a Hn.
  - exists 0. split; [lia |]. cbn [digits_of_pos_fuel].
    change (2 ^ Z.of_nat 0) with 1 in Hn. f_equal. lia.
  - cbn [digits_of_pos_fuel].
    assert (Hmod : 0 <= n mod 10 < 10) by (apply Z.mod_pos_bound; lia).
    destruct (digit_char_value (n mod 10) Hmod) as [Hd Hv].
    destruct (n <? 10) eqn:Hlt.
    + apply Z.ltb_lt in Hlt. exists 1. split; [lia |].
      cbn [digits_value]. rewrite Hd, Hv.
      rewrite Z.mod_small by lia. f_equal. lia.
    + apply Z.ltb_ge in Hlt.
      assert (Hq : 0 <= n / 10 < 2 ^ Z.of_nat fuel).
      { split; [apply Z.div_pos; lia |].
        rewrite Nat2Z.inj_succ, Z.pow_succ_r in Hn by lia.
        apply Z.div_lt_upper_bound; lia. }
      destruct (IH (n / 10) (String (digit_char (Z.to_nat (n mod 10))) acc) a Hq)
        as [k [Hk E]].
      exists (k + 1). split; [lia |].
      rewrite E. cbn [digits_value]. rewrite Hd, Hv. f_equal.
      rewrite Z.pow_add_r by lia.
      pose proof (Z.div_mod n 10). lia.
Qed.

(** The digits written for a count read back as that count. *)
Lemma digits_of_Z_value (n : Z) :
  0 <= n -> digits_value (digits_of_Z n) 0 = Some n.
Proof.
  intros Hn. unfold digits_of_Z.
  destruct (digits_of_pos_fuel_value (S (Z.to_nat (Z.log2 n))) n EmptyString 0) as [k [_ E]].
  - split; [exact Hn |].
    rewrite Nat2Z.inj_succ, Z2Nat.id by apply Z.log2_nonneg.
    destruct (Z.eq_dec n 0) as [-> | Hz]; [reflexivity |].
    apply Z.log2_spec. lia.
  - rewrite E. cbn [digits_value]. f_equal.
Qed.

Lemma nat_toString_inj (i j : nat) : nat_toString i = nat_toString j -> i = j.
Proof.
  intros E. unfold nat_toString in E.
  pose proof (digits_of_Z_value (Z.of_nat i) (Nat2Z.is_nonneg i)) as Hi.
  pose proof (digits_of_Z_value (Z.of_nat j) (Nat2Z.is_nonneg j)) as Hj.
  rewrite E in Hi. rewrite Hi in Hj. injection Hj as Hj. lia.
Qed.

(** ** Maps *)

Section AssocFacts.
Context {V : Type}.

Lemma assoc_get_In k (l : list (string * V)) :
  assoc_get k l <> None <-> In k (map fst l).
Proof.
  induction l as [| [k' v] l IH]; cbn [assoc_get map fst In].
  - split; [congruence | tauto].
  - destruct (String.eqb k k') eqn:E.
    + apply String.eqb_eq in E. subst. split; [auto | congruence].
    + apply String.eqb_neq in E. rewrite IH. split; [auto | intros [H | H]; congruence].
Qed.

Lemma assoc_has_In k (l : list (string * V)) :
  assoc_has k l = true <-> In k (map fst l).
Proof.
  rewrite <- assoc_get_In. unfold assoc_has.
  destruct (assoc_get k l); split; congruence.
Qed.

Lemma assoc_has_false k (l : list (string * V)) :
  assoc_has k l = false <-> assoc_get k l = None.
Proof. unfold assoc_has. destruct (assoc_get k l); split; congruence. Qed.

Lemma assoc_get_snoc k k' (v : V) l :
  assoc_get k (l ++ [(k', v)])%list =
  match assoc_get k l with
  | Some x => Some x
  | None => if String.eqb k k' then Some v else None
  end.
Proof.
  induction l as [| [k0 v0] l IH]; cbn [assoc_get app].
  - reflexivity.
  - destruct (String.eqb k k0); [reflexivity | exact IH].
Qed.

Lemma assoc_has_app k (a b : list (string * V)) :
  assoc_has k (a ++ b)%list = (assoc_has k a || assoc_has k b)%bool.
Proof.
  unfold assoc_has. induction a as [| [k' v] a IH]; cbn [assoc_get app].
  - reflexivity.
  - destruct (String.eqb k k'); [reflexivity | exact IH].
Qed.

Lemma assoc_has_named k (g : string -> V) (ns : list string) :
  assoc_has k (map (fun n => (n, g n)) ns) = true <-> In k ns.
Proof.
  rewrite assoc_has_In, map_map. cbn [fst]. now rewrite map_id.
Qed.

Lemma assoc_get_middle k (v : V) a b :
  ~ In k (map fst a) -> assoc_get k (a ++ (k, v) :: b)%list = Some v.
Proof.
  induction a as [| [k' v'] a IH]; intros Hn; cbn [app assoc_get].
  - now rewrite String.eqb_refl.
  - cbn [map fst In] in Hn. destruct (String.eqb_spec k k') as [-> | _]; [tauto |].
    apply IH. tauto.
Qed.

Lemma assoc_set_middle k (v v' : V) a b :
  ~ In k (map fst a) ->
  assoc_set k v' (a ++ (k, v) :: b)%list = (a ++ (k, v') :: b)%list.
Proof.
  induction a as [| [k0 v0] a IH]; intros Hn; cbn [app assoc_set].
  - now rewrite String.eqb_refl.
  - cbn [map fst In] in Hn. destruct (String.eqb_spec k k0) as [-> | _]; [tauto |].
    f_equal. apply IH. tauto.
Qed.

Lemma assoc_get_In_pair k (v : V) l : assoc_get k l = Some v -> In (k, v) l.
Proof.
  induction l as [| [k' v'] l IH]; cbn [assoc_get]; [discriminate |].
  destruct (String.eqb_spec k k') as [-> | _].
  - intros H. injection H as ->. now left.
  - intros H. right. auto.
Qed.

Lemma assoc_set_In k (v : V) l e : In e (assoc_set k v l) -> e = (k, v) \/ In e l.
Proof.
  induction l as [| [k' v'] l IH]; cbn [assoc_set].
  - intros [<- | []]. now left.
  - destruct (String.eqb k k').
    + intros [<- | H]; [now left | right; now right].
    + intros [<- | H]; [right; now left |].
      destruct (IH H) as [-> | H']; [now left | right; now right].
Qed.

Lemma assoc_get_None_not_In k (l : list (string * V)) :
  (forall v, ~ In (k, v) l) -> assoc_get k l = None.
Proof.
  intros H. destruct (assoc_get k l) as [v |] eqn:E; [| reflexivity].
  exfalso. apply (H v). now apply assoc_get_In_pair.
Qed.

Variable P : string * V -> Prop.

Lemma assoc_set_Forall k v (l : list (string * V)) :
  P (k, v) -> Forall P l -> Forall P (assoc_set k v l).
Proof.
  intros Hv. induction 1 as [| [k' v'] l Hx Hl IH]; cbn [assoc_set].
  - now repeat constructor.
  - destruct (String.eqb k k'); constructor; assumption.
Qed.

Lemma assoc_delete_Forall k (l : list (string * V)) :
  Forall P l -> Forall P (assoc_delete k l).
Proof.
  induction 1 as [| [k' v'] l Hx Hl IH]; cbn [assoc_delete]; [constructor |].
  destruct (String.eqb k k'); [assumption | now constructor].
Qed.

Lemma assoc_get_Forall k v (l : list (string * V)) :
  Forall P l -> assoc_get k l = Some v -> P (k, v).
Proof.
  induction 1 as [| [k' v'] l Hx Hl IH]; cbn [assoc_get]; [discriminate |].
  destruct (String.eqb_spec k k') as [-> | _]; [| exact IH].
  intros H. now injection H as <-.
Qed.

Lemma insert_by_index_In i e (l : list (Z * (string * V))) x :
  In x (insert_by_index i e l) -> x = (i, e) \/ In x l.
Proof.
  induction l as [| [j e'] l IH]; cbn [insert_by_index].
  - intros [<- | []]. now left.
  - destruct (i <? j).
    + intros [<- | H]; [now left | now right].
    + intros [<- | H]; [right; now left |].
      destruct (IH H) as [-> | H']; [now left | right; now right].
Qed.

Lemma index_entries_In (l : list (string * V)) x :
  In x (index_entries l) -> In (snd x) l.
Proof.
  induction l as [| e l IH]; cbn [index_entries]; [contradiction |].
  destruct (array_index (fst e)).
  - intros H. apply insert_by_index_In in H. destruct H as [-> | H]; [now left | right; auto].
  - intros H. right. auto.
Qed.

(** [for ... in] lists nothing but the entries of the object. *)
Lemma for_in_Forall (l : list (string * V)) : Forall P l -> Forall P (for_in l).
Proof.
  intros H. unfold for_in. apply Forall_app. split.
  - apply Forall_forall. intros e He. apply in_map_iff in He.
    destruct He as [x [<- Hx]]. rewrite Forall_forall in H. apply H.
    now apply index_entries_In.
  - apply Forall_forall. intros e He. apply filter_In in He.
    rewrite Forall_forall in H. now apply H.
Qed.

End AssocFacts.

Lemma fold_left_pointwise {A B} (f g : B -> A -> B) :
  (forall b a, f b a = g b a) -> forall l b, fold_left f l b = fold_left g l b.
Proof.
  intros H l. induction l as [| a l IH]; intros b; cbn [fold_left]; [reflexivity |].
  now rewrite H, IH.
Qed.

(** A property that every step of a loop keeps. *)
Lemma foldM_invariant {A B} (f : B -> A -> result B) (P : B -> Prop) :
  (forall b a b', P b -> f b a = Ok b' -> P b') ->
  forall l b b', P b -> foldM f b l = Ok b' -> P b'.
Proof.
  intros Hf l. induction l as [| a l IH]; intros b b' Hb H; cbn [foldM] in H.
  - now injection H as <-.
  - destruct (f b a) as [b1 |] eqn:E; cbn [bind] in H; [| discriminate].
    eapply IH; [| exact H]. eapply Hf; eassumption.
Qed.

Lemma fold_left_invariant {A B} (f : B -> A -> B) (P : B -> Prop) :
  (forall b a, P b -> P (f b a)) ->
  forall l b, P b -> P (fold_left f l b).
Proof.
  intros Hf l. induction l as [| a l IH]; intros b Hb; cbn [fold_left]; auto.
Qed.

(** ** addVar and addVars *)

Lemma candidate_inj i j : candidate i = candidate j -> i = j.
Proof.
  unfold candidate. intros E.
  change ("Var" ++ nat_toString i) with (String "V" (String "a" (String "r" (nat_toString i))))
    in E.
  change ("Var" ++ nat_toString j) with (String "V" (String "a" (String "r" (nat_toString j))))
    in E.
  injection E as E.
  apply nat_toString_inj. exact E.
Qed.

Lemma generated_name_spec (fuel : nat) vars : forall count n c',
  generated_name fuel vars count = (n, c') ->
  exists k, n = candidate k /\ c' = S k /\ (count <= k <= count + fuel)%nat
            /\ (forall j, (count <= j < k)%nat -> assoc_has (candidate j) vars = true)
            /\ ((k < count + fuel)%nat -> assoc_has n vars = false).
Proof.
  induction fuel as [| fuel IH]; intros count n c' E; cbn [generated_name] in E.
  - injection E as <- <-. exists count. repeat split; try lia.
  - fold (candidate count) in E.
    destruct (assoc_has (candidate count) vars) eqn:Hc.
    + destruct (IH _ _ _ E) as [k [Hn [Hc' [Hk [Hused Hfree]]]]].
      exists k. repeat split; try lia; try assumption.
      * intros j Hj. destruct (Nat.eq_dec j count) as [-> | Hne]; [exact Hc |].
        apply Hused. lia.
      * intros Hlt. apply Hfree. lia.
    + injection E as <- <-. exists count. repeat split; try lia.
      intros _. exact Hc.
Qed.

Lemma candidates_NoDup n : forall count, NoDup (map candidate (seq count n)).
Proof.
  induction n as [| n IH]; intros count; cbn [seq map]; constructor.
  - intros Hin. apply in_map_iff in Hin. destruct Hin as [j [E Hj]].
    apply candidate_inj in E. apply in_seq in Hj. lia.
  - apply IH.
Qed.

(** The name the loop ends with is free: among the candidates of one more
    count than the model has variables, one is not a key of the map. *)
Lemma generated_name_fresh (vars : list (string * Var)) count n c' :
  generated_name (List.length vars) vars count = (n, c') ->
  assoc_has n vars = false.
Proof.
  intros E. destruct (generated_name_spec _ _ _ _ _ E) as [k [Hn [_ [Hk [Hused Hfree]]]]].
  destruct (Nat.eq_dec k (count + List.length vars)) as [Hlast | Hne];
    [| apply Hfree; lia].
  destruct (assoc_has n vars) eqn:Hn'; [exfalso | reflexivity].
  assert (Hincl : incl (map candidate (seq count (S (List.length vars)))) (map fst vars)).
  { intros s Hs. apply in_map_iff in Hs. destruct Hs as [j [<- Hj]]. apply in_seq in Hj.
    apply assoc_has_In.
    destruct (Nat.eq_dec j k) as [-> | Hjk]; [rewrite <- Hn; exact Hn' |].
    apply Hused. lia. }
  pose proof (NoDup_incl_length (candidates_NoDup (S (List.length vars)) count) Hincl) as Hlen.
  rewrite !length_map, length_seq in Hlen. lia.
Qed.

Lemma new_Var_any_name o n n' v :
  new_Var o n = Ok v -> new_Var o n' = Ok (with_name n' v).
Proof.
  unfold new_Var, with_name.
  destruct (default (BNum (Num 0)) (opt_lb o)); try discriminate;
    destruct (default BPosInf (opt_ub o)); try discriminate;
    intros H; injection H as <-; reflexivity.
Qed.

(** X1.  addVar with a name.  A name the model has is refused and the
    model is left as it is; so it is when a bound is refused.  Otherwise
    the variable is filed last under its name: the map gives it back under
    that name, and gives under every other name what it gave before. *)
Theorem addVar_named m l u t n :
  if assoc_has n (variables m)
  then addVar (named_options l u t (Some n)) m = (m, Throw NameAlreadyUsed)
  else match new_Var (named_options l u t (Some n)) n with
       | Throw e => addVar (named_options l u t (Some n)) m = (m, Throw e)
       | Ok v =>
           addVar (named_options l u t (Some n)) m
           = (set_variables (variables m ++ [(n, v)])%list m, Ok v)
           /\ assoc_get n (variables (fst (addVar (named_options l u t (Some n)) m))) = Some v
           /\ (forall k, k <> n ->
                 assoc_get k (variables (fst (addVar (named_options l u t (Some n)) m)))
                 = assoc_get k (variables m))
       end.
Proof.
  unfold addVar. cbn [opt_name named_options].
  destruct (assoc_has n (variables m)) eqn:Hhas; [reflexivity |].
  destruct (new_Var (named_options l u t (Some n)) n) as [v | e] eqn:Hv; [| reflexivity].
  apply assoc_has_false in Hhas.
  rewrite (assoc_set_absent n v (variables m) Hhas).
  cbn [fst variables set_variables]. split; [reflexivity | split].
  - rewrite assoc_get_snoc, Hhas, String.eqb_refl. reflexivity.
  - intros k Hk. rewrite assoc_get_snoc.
    apply String.eqb_neq in Hk. rewrite Hk. now destruct (assoc_get k (variables m)).
Qed.

(** X2.  addVar without a name, while the counter stays below 2^53 (where
    it counts exactly and is written with all its digits).  The name is
    Var followed by a count [k] that is not below the counter of the model;
    every count from the counter to [k] names a variable of the model, and
    [k] does not: the generated name is never one the model has.  The
    counter is left at [k + 1], also when a bound is refused; the variable
    is filed last. *)
Theorem addVar_generated_name m l u t :
  Z.of_nat (varCount m + List.length (variables m)) < 2 ^ 53 ->
  exists k,
    (varCount m <= k <= varCount m + List.length (variables m))%nat
    /\ assoc_has (candidate k) (variables m) = false
    /\ (forall j, (varCount m <= j < k)%nat -> assoc_has (candidate j) (variables m) = true)
    /\ varCount (fst (addVar (named_options l u t None) m)) = S k
    /\ match new_Var (named_options l u t None) (candidate k) with
       | Ok v =>
           snd (addVar (named_options l u t None) m) = Ok v
           /\ variables (fst (addVar (named_options l u t None) m))
              = (variables m ++ [(candidate k, v)])%list
       | Throw e =>
           snd (addVar (named_options l u t None) m) = Throw e
           /\ variables (fst (addVar (named_options l u t None) m)) = variables m
       end.
Proof.
  intros _. unfold addVar. cbn [opt_name named_options].
  destruct (generated_name (List.length (variables m)) (variables m) (varCount m))
    as [n count] eqn:E.
  pose proof (generated_name_fresh _ _ _ _ E) as Hfresh.
  destruct (generated_name_spec _ _ _ _ _ E) as [k [Hn [Hc [Hk [Hused _]]]]].
  subst n count.
  exists k. split; [exact Hk | split; [exact Hfresh | split; [exact Hused |]]].
  destruct (new_Var (named_options l u t None) (candidate k)) as [v | e] eqn:Hv.
  - cbn [fst snd varCount variables set_variables set_varCount].
    split; [reflexivity | split; [reflexivity |]].
    apply assoc_set_absent. now apply assoc_has_false.
  - cbn [fst snd varCount variables set_varCount]. repeat split.
Qed.

Lemma addVar_generated_name_witness :
  Z.of_nat (varCount model_Var0 + List.length (variables model_Var0)) < 2 ^ 53
  /\ exists k,
       assoc_has (candidate k) (variables model_Var0) = false
       /\ varCount (fst (addVar (named_options None None None None) model_Var0)) = S k.
Proof.
  assert (H : Z.of_nat (varCount model_Var0 + List.length (variables model_Var0)) < 2 ^ 53)
    by (vm_compute; reflexivity).
  split; [exact H |].
  destruct (addVar_generated_name model_Var0 None None None H) as [k (_ & Hf & _ & Hc & _)].
  exists k. split; [exact Hf | exact Hc].
Defined.

Lemma set_variables_same m : set_variables (variables m) m = m.
Proof. now destruct m. Qed.

Lemma addVars_prefix o v0 (ns : list string) : forall m rest,
  new_Var o EmptyString = Ok v0 ->
  NoDup ns ->
  Forall (fun n => assoc_has n (variables m) = false) ns ->
  addVars (ns ++ rest) o m
  = addVars rest o
      (set_variables (variables m ++ map (fun n => (n, with_name n v0)) ns)%list m).
Proof.
  induction ns as [| n ns IH]; intros m rest Hv Hnd Hfree.
  - cbn [map app]. now rewrite app_nil_r, set_variables_same.
  - inversion Hnd as [| ? ? Hnotin Hnd']; subst.
    inversion Hfree as [| ? ? Hn Hfree']; subst.
    cbn [app]. unfold addVars at 1. cbn [forEachM]. unfold bindM at 1.
    rewrite Hn, (new_Var_any_name o _ n v0 Hv).
    fold (addVars (ns ++ rest) o).
    rewrite (assoc_set_absent n _ (variables m) (proj1 (assoc_has_false _ _) Hn)).
    rewrite IH; [| exact Hv | exact Hnd' |].
    + cbn [variables set_variables map].
      change (set_variables ?a (set_variables ?b m)) with (set_variables a m).
      now rewrite <- app_assoc.
    + cbn [variables set_variables]. apply Forall_forall. intros k Hk.
      rewrite assoc_has_app.
      rewrite Forall_forall in Hfree'. rewrite (Hfree' k Hk). cbn [orb].
      unfold assoc_has. cbn [assoc_get].
      destruct (String.eqb_spec k n) as [-> | _]; [contradiction | reflexivity].
Qed.

(** X3.  addVars with names that differ from one another and from the
    names of the model, and with bounds the constructor accepts: every name
    gets a variable with these bounds and this kind, filed after the
    variables of the model in the order of the names; nothing else
    changes. *)
Theorem addVars_adds_all m o names v0 :
  new_Var o EmptyString = Ok v0 ->
  NoDup names ->
  Forall (fun n => assoc_has n (variables m) = false) names ->
  addVars names o m
  = (set_variables (variables m ++ map (fun n => (n, with_name n v0)) names)%list m, Ok tt).
Proof.
  intros Hv Hnd Hfree.
  rewrite <- (app_nil_r names) at 1.
  rewrite (addVars_prefix o v0 names m [] Hv Hnd Hfree). reflexivity.
Qed.

Lemma addVars_adds_all_witness :
  new_Var no_options EmptyString = Ok (var_named EmptyString)
  /\ NoDup ["x"; "y"]
  /\ Forall (fun n => assoc_has n (variables new_Model) = false) ["x"; "y"]
  /\ addVars ["x"; "y"] no_options new_Model = (model_xy, Ok tt).
Proof.
  assert (Hv : new_Var no_options EmptyString = Ok (var_named EmptyString)) by reflexivity.
  assert (Hnd : NoDup ["x"; "y"]).
  { constructor; [intros [H | []]; discriminate |].
    constructor; [intros [] | constructor]. }
  assert (Hf : Forall (fun n => assoc_has n (variables new_Model) = false) ["x"; "y"])
    by (repeat constructor).
  split; [exact Hv | split; [exact Hnd | split; [exact Hf |]]].
  exact (addVars_adds_all new_Model no_options ["x"; "y"] (var_named EmptyString) Hv Hnd Hf).
Defined.

(** X4.  addVars is not all or nothing: at the first name that the model
    has, or that came earlier in the array, it throws, and the variables of
    the names before it stay in the model. *)
Theorem addVars_stops_at_used_name m o pre n post v0 :
  new_Var o EmptyString = Ok v0 ->
  NoDup pre ->
  Forall (fun k => assoc_has k (variables m) = false) pre ->
  assoc_has n (variables m) = true \/ In n pre ->
  addVars (pre ++ n :: post) o m
  = (set_variables (variables m ++ map (fun k => (k, with_name k v0)) pre)%list m,
     Throw NameAlreadyUsed).
Proof.
  intros Hv Hnd Hfree Hn.
  rewrite (addVars_prefix o v0 pre m (n :: post) Hv Hnd Hfree).
  unfold addVars. cbn [forEachM]. unfold bindM. cbn [variables set_variables].
  rewrite assoc_has_app.
  assert (H : (assoc_has n (variables m)
               || assoc_has n (map (fun k => (k, with_name k v0)) pre))%bool = true).
  { destruct Hn as [H | H]; [now rewrite H |].
    apply orb_true_iff. right. now apply assoc_has_named. }
  now rewrite H.
Qed.

Lemma addVars_stops_at_used_name_witness :
  new_Var no_options EmptyString = Ok (var_named EmptyString)
  /\ NoDup ["x"; "y"]
  /\ Forall (fun k => assoc_has k (variables new_Model) = false) ["x"; "y"]
  /\ (assoc_has "x" (variables new_Model) = true \/ In "x" ["x"; "y"])
  /\ addVars ["x"; "y"; "x"; "z"] no_options new_Model = (model_xy, Throw NameAlreadyUsed).
Proof.
  assert (Hv : new_Var no_options EmptyString = Ok (var_named EmptyString)) by reflexivity.
  assert (Hnd : NoDup ["x"; "y"]).
  { constructor; [intros [H | []]; discriminate |].
    constructor; [intros [] | constructor]. }
  assert (Hf : Forall (fun n => assoc_has n (variables new_Model) = false) ["x"; "y"])
    by (repeat constructor).
  assert (Hn : assoc_has "x" (variables new_Model) = true \/ In "x" ["x"; "y"])
    by (right; left; reflexivity).
  split; [exact Hv | split; [exact Hnd | split; [exact Hf | split; [exact Hn |]]]].
  exact (addVars_stops_at_used_name new_Model no_options ["x"; "y"] "x" ["z"]
           (var_named EmptyString) Hv Hnd Hf Hn).
Defined.

(** ** setObjective, addConstr and parseExpression: what a failure leaves *)

Lemma addConstr_outcome m lhs_ cmp rhs_ :
  match snd (addConstr lhs_ cmp rhs_ m) with
  | Throw _ => fst (addConstr lhs_ cmp rhs_ m) = m
  | Ok c =>
      fst (addConstr lhs_ cmp rhs_ m) = set_constraints (constraints m ++ [c])%list m
      /\ comparison c = (if String.eqb cmp "==" then "=" else cmp)
      /\ valid_comparison (comparison c) = true
      /\ constant_slot (lhs c) = Elt (ENum (Num 0))
      /\ primal c = PUndefined /\ dual c = PUndefined
  end.
Proof.
  unfold addConstr.
  destruct (parseExpression m lhs_) as [l | e]; [| reflexivity].
  destruct (match rhs_ with
            | RhsNumber n => Ok [Elt (ENum n)]
            | RhsExpression e => parseExpression m e
            end) as [r | e]; [| reflexivity].
  destruct (valid_comparison (if String.eqb cmp "==" then "=" else cmp)) eqn:Hc;
    [| reflexivity].
  destruct (parseExpression m (l ++ map negate_term r)%list) as [f | e]; [| reflexivity].
  cbn [fst snd lhs comparison primal dual]. repeat split; try assumption.
  now destruct f.
Qed.

(** X5.  A method of the model that throws leaves the model as it was:
    addVar with a name, setObjective and addConstr.  The one exception is
    addVar without a name: when a bound is refused the variables are as
    they were, but the counter of the generated names has advanced (as long
    as it counts exactly, below 2^53). *)
Theorem failed_mutators_leave_the_model m :
  (forall o n e, opt_name o = Some n ->
     snd (addVar o m) = Throw e -> fst (addVar o m) = m)
  /\ (forall o e, opt_name o = None ->
        Z.of_nat (varCount m + List.length (variables m)) < 2 ^ 53 ->
        snd (addVar o m) = Throw e ->
        variables (fst (addVar o m)) = variables m
        /\ (varCount m < varCount (fst (addVar o m)))%nat)
  /\ (forall expr sense_ e,
        snd (setObjective expr sense_ m) = Throw e -> fst (setObjective expr sense_ m) = m)
  /\ (forall lhs_ cmp rhs_ e,
        snd (addConstr lhs_ cmp rhs_ m) = Throw e -> fst (addConstr lhs_ cmp rhs_ m) = m).
Proof.
  split; [| split; [| split]].
  - intros o n e Hn. unfold addVar. rewrite Hn.
    destruct (assoc_has n (variables m)); [reflexivity |].
    destruct (new_Var o n); [discriminate | reflexivity].
  - intros o e Hn _. unfold addVar. rewrite Hn.
    destruct (generated_name (List.length (variables m)) (variables m) (varCount m))
      as [n count] eqn:E.
    destruct (generated_name_spec _ _ _ _ _ E) as [k [_ [-> [Hk _]]]].
    destruct (new_Var o n); [discriminate |].
    intros _. cbn [fst variables varCount set_varCount]. split; [reflexivity | lia].
  - intros expr sense_ e. unfold setObjective.
    destruct (_ || _)%bool; [| reflexivity].
    destruct (parseExpression m expr); [discriminate | reflexivity].
  - intros lhs_ cmp rhs_ e.
    pose proof (addConstr_outcome m lhs_ cmp rhs_) as H.
    destruct (snd (addConstr lhs_ cmp rhs_ m)); [discriminate | now intros _].
Qed.

(** X6.  A constraint that addConstr returns was given one of the four
    operators [<=], [=], [>=] and [==]; it is the last constraint of the
    model and nothing else of the model has changed; its operator is the one
    given, with [==] turned into [=]; the constant of its left side is 0; its
    primal and dual values are undefined. *)
Theorem addConstr_success m lhs_ cmp rhs_ m' c :
  addConstr lhs_ cmp rhs_ m = (m', Ok c) ->
  m' = set_constraints (constraints m ++ [c])%list m
  /\ (cmp = "<=" \/ cmp = "=" \/ cmp = ">=" \/ cmp = "==")
  /\ comparison c = (if String.eqb cmp "==" then "=" else cmp)
  /\ constant_slot (lhs c) = Elt (ENum (Num 0))
  /\ primal c = PUndefined /\ dual c = PUndefined.
Proof.
  intros H. pose proof (addConstr_outcome m lhs_ cmp rhs_) as Ho.
  rewrite H in Ho. cbn [fst snd] in Ho.
  destruct Ho as (Hm & Hc & Hv & Hz & Hp & Hd).
  repeat split; try assumption.
  rewrite Hc in Hv. unfold valid_comparison in Hv.
  destruct (String.eqb_spec cmp "==") as [-> | _]; [auto |].
  destruct (String.eqb_spec cmp "<=") as [-> | _]; [auto |].
  destruct (String.eqb_spec cmp "=") as [-> | _]; [auto |].
  destruct (String.eqb_spec cmp ">=") as [-> | _]; [auto | discriminate].
Qed.

Lemma addConstr_success_witness :
  addConstr [lin 1 x_] "==" (RhsNumber (Num 5)) (model_with [x_])
  = (set_constraints
       [{| lhs := [const 0; lin 1 x_]; comparison := "="; rhs := Num 5;
           primal := PUndefined; dual := PUndefined |}] (model_with [x_]),
     Ok {| lhs := [const 0; lin 1 x_]; comparison := "="; rhs := Num 5;
           primal := PUndefined; dual := PUndefined |})
  /\ comparison {| lhs := [const 0; lin 1 x_]; comparison := "="; rhs := Num 5;
                   primal := PUndefined; dual := PUndefined |}
     = (if String.eqb "==" "==" then "=" else "==").
Proof.
  assert (H : addConstr [lin 1 x_] "==" (RhsNumber (Num 5)) (model_with [x_])
              = (set_constraints
                   [{| lhs := [const 0; lin 1 x_]; comparison := "="; rhs := Num 5;
                       primal := PUndefined; dual := PUndefined |}] (model_with [x_]),
                 Ok {| lhs := [const 0; lin 1 x_]; comparison := "="; rhs := Num 5;
                       primal := PUndefined; dual := PUndefined |})) by reflexivity.
  split; [exact H |].
  exact (proj1 (proj2 (proj2 (addConstr_success _ _ _ _ _ _ H)))).
Defined.



(** ** Linear items keep the model linear *)

Lemma head_plus_no_triple l c :
  List.length l <> 3%nat -> List.length (head_plus l c) <> 3%nat.
Proof. destruct l as [| e r]; cbn [head_plus List.length]; [discriminate | trivial]. Qed.

Lemma accumulate_no_triple key coeff fresh combined combined' :
  List.length fresh <> 3%nat ->
  bag_no_triple combined ->
  accumulate key coeff fresh combined = Ok combined' ->
  bag_no_triple combined'.
Proof.
  intros Hf Hb. unfold accumulate.
  destruct (assoc_get key combined) as [v |] eqn:Eg.
  - destruct (truthy v).
    + destruct v as [n | s | l]; try discriminate.
      intros H. injection H as <-. apply assoc_set_Forall; [| exact Hb].
      cbn [snd slot_no_triple]. apply head_plus_no_triple.
      exact (assoc_get_Forall _ key (SArr l) combined Hb Eg).
    + intros H. injection H as <-. now apply assoc_set_Forall.
  - destruct (inherited key); intros H; injection H as <-; [exact Hb |].
    now apply assoc_set_Forall.
Qed.

Lemma add_constant_no_triple n combined :
  bag_no_triple combined -> bag_no_triple (add_constant n combined).
Proof.
  intros Hb. unfold add_constant.
  destruct (assoc_get "constant" combined) as [[a | s | l] |];
    apply assoc_set_Forall; try exact Hb; exact I.
Qed.

Lemma parse_item_no_triple m combined it combined' :
  is_linear it = true ->
  bag_no_triple combined ->
  parse_item m combined it = Ok combined' ->
  bag_no_triple combined'.
Proof.
  intros Hl Hb.
  destruct it as [[n | s | v |] | l]; cbn [parse_item]; try discriminate.
  - intros H. injection H as <-. now apply add_constant_no_triple.
  - apply accumulate_no_triple; [discriminate | exact Hb].
  - destruct l as [| c [| v [| w [| z l']]]]; try discriminate.
    destruct v as [n | s | v |]; try discriminate.
    destruct c as [n | s | c |]; try discriminate.
    apply accumulate_no_triple; [discriminate | exact Hb].
Qed.

Lemma parse_items_no_triple m l : forall combined combined',
  forallb is_linear l = true ->
  bag_no_triple combined ->
  parse_items m combined l = Ok combined' ->
  bag_no_triple combined'.
Proof.
  induction l as [| it l IH]; intros combined combined' Hl Hb H; cbn [parse_items] in H.
  - now injection H as <-.
  - cbn [forallb] in Hl. apply andb_true_iff in Hl as [Hit Hl].
    destruct (parse_item m combined it) as [c1 |] eqn:E; cbn [bind] in H; [| discriminate].
    eapply IH; [exact Hl | | exact H].
    eapply parse_item_no_triple; eassumption.
Qed.

Lemma item_of_slot_no_triple v :
  slot_no_triple v ->
  match item_of_slot v with
  | Arr l => Nat.eqb (List.length l) 3
  | Elt _ => false
  end = false.
Proof.
  destruct v as [n | s | l]; cbn [item_of_slot slot_no_triple]; try reflexivity.
  intros H. now apply Nat.eqb_neq.
Qed.

Lemma emit_no_triple combined :
  bag_no_triple combined -> isQuadraticExpression (emit combined) = false.
Proof.
  intros Hb. unfold isQuadraticExpression, emit. cbn [existsb].
  apply orb_false_iff. split.
  - destruct (assoc_get "constant" combined) as [v |] eqn:E; [| reflexivity].
    apply item_of_slot_no_triple.
    exact (assoc_get_Forall _ "constant" v combined Hb E).
  - rewrite <- Bool.not_true_iff_false. intros H. apply existsb_exists in H.
    destruct H as [it [Hin Hq]]. apply in_map_iff in Hin. destruct Hin as [e [<- He]].
    apply filter_In in He as [He _].
    assert (Hf : Forall (fun e => slot_no_triple (snd e))
                        (for_in (assoc_delete "constant" combined))).
    { apply for_in_Forall. now apply assoc_delete_Forall. }
    rewrite Forall_forall in Hf. specialize (Hf e He).
    rewrite (item_of_slot_no_triple _ Hf) in Hq. discriminate.
Qed.

Lemma parseExpression_no_triple m l e :
  forallb is_linear l = true -> parseExpression m l = Ok e ->
  isQuadraticExpression e = false.
Proof.
  intros Hl. unfold parseExpression.
  destruct (parse_items m [("constant", SNum (Num 0))] l) as [combined |] eqn:E;
    cbn [bind]; [| discriminate].
  intros H. injection H as <-. apply emit_no_triple.
  eapply parse_items_no_triple; [exact Hl | | exact E].
  repeat constructor.
Qed.

Lemma no_triple_linear r :
  isQuadraticExpression r = false ->
  forallb is_linear r = true /\ forallb is_linear (map negate_term r) = true.
Proof.
  unfold isQuadraticExpression.
  induction r as [| t r IH]; cbn [existsb map forallb]; [now split |].
  intros H. apply orb_false_iff in H as [Ht Hr]. destruct (IH Hr) as [H1 H2].
  rewrite H1, H2, !andb_true_r.
  destruct t as [e | l]; [now split |].
  destruct l as [| c [| v [| w [| z l']]]]; now split.
Qed.

Lemma zero_constant_no_triple e :
  isQuadraticExpression e = false -> isQuadraticExpression (zero_constant e) = false.
Proof.
  unfold isQuadraticExpression. destruct e as [| t e]; cbn [zero_constant existsb].
  - reflexivity.
  - intros H. apply orb_false_iff in H as [_ H]. exact H.
Qed.

Lemma glpk_var_Throw t e : glpk_var t = Throw e -> e = TypeError.
Proof.
  unfold glpk_var.
  repeat match goal with
         | |- context [match ?x with _ => _ end] => destruct x
         end; intros H; try discriminate; now injection H as <-.
Qed.

Lemma mapM_glpk_var_Throw ts e : mapM glpk_var ts = Throw e -> e = TypeError.
Proof.
  induction ts as [| t ts IH]; cbn [mapM]; [discriminate |].
  destruct (glpk_var t) as [g | e0] eqn:Eg; cbn [bind].
  - destruct (mapM glpk_var ts); cbn [bind]; [discriminate | exact IH].
  - intros H. injection H as <-. eapply glpk_var_Throw, Eg.
Qed.

Lemma glpk_rows_Throw cs : forall index e, glpk_rows cs index = Throw e -> e = TypeError.
Proof.
  induction cs as [| c cs IH]; intros index e; cbn [glpk_rows]; [discriminate |].
  destruct (mapM glpk_var (tl (lhs c))) as [vs | e0] eqn:Ev; cbn [bind].
  - destruct (glpk_rows cs (S index)) as [rows | e1] eqn:Er; cbn [bind]; [discriminate |].
    intros H. injection H as <-. eapply IH, Er.
  - intros H. injection H as <-. eapply mapM_glpk_var_Throw, Ev.
Qed.

(** The encoder for glpk.js itself throws nothing but a TypeError. *)
Lemma toGLPKFormat_Throw m e : toGLPKFormat m = Throw e -> e = TypeError.
Proof.
  unfold toGLPKFormat.
  destruct (mapM glpk_var (tl (obj_expression (objective m)))) as [o | e0] eqn:Eo;
    cbn [bind].
  - destruct (glpk_rows (constraints m) 0) as [rows | e1] eqn:Er; cbn [bind];
      [discriminate |].
    intros H. injection H as <-. eapply glpk_rows_Throw, Er.
  - intros H. injection H as <-. eapply mapM_glpk_var_Throw, Eo.
Qed.

(** X8.  A model that is not quadratic stays so under setObjective and
    addConstr when no item given is an array of three entries, whatever the
    names of the variables and the numbers are: no term of the stored
    expression is an array of three entries.  Model.toGLPKFormat does not
    refuse such a model as quadratic. *)
Theorem linear_items_keep_the_model_linear m :
  isQuadratic m = false ->
  (forall expr sense_ m',
     forallb is_linear expr = true ->
     setObjective expr sense_ m = (m', Ok tt) ->
     isQuadratic m' = false /\ Model_toGLPKFormat m' <> Throw QuadraticUnsupported)
  /\ (forall lhs_ cmp rhs_ m' c,
        forallb is_linear lhs_ = true ->
        forallb is_linear (rhs_items rhs_) = true ->
        addConstr lhs_ cmp rhs_ m = (m', Ok c) ->
        isQuadratic m' = false /\ Model_toGLPKFormat m' <> Throw QuadraticUnsupported).
Proof.
  intros Hm.
  assert (Hg : forall m', isQuadratic m' = false ->
                 Model_toGLPKFormat m' <> Throw QuadraticUnsupported).
  { intros m' Hq. unfold Model_toGLPKFormat. rewrite Hq.
    intros H. apply toGLPKFormat_Throw in H. discriminate. }
  unfold isQuadratic in Hm. apply orb_false_iff in Hm as [Hobj Hcs].
  split.
  - intros expr sense_ m' Hl H.
    assert (Hq : isQuadratic m' = false).
    { unfold setObjective in H.
      destruct (_ || _)%bool; [| discriminate].
      destruct (parseExpression m expr) as [e |] eqn:E; [| discriminate].
      injection H as <-. unfold isQuadratic.
      cbn [objective constraints set_objective obj_expression].
      rewrite Hcs, orb_false_r. exact (parseExpression_no_triple m expr e Hl E). }
    split; [exact Hq | now apply Hg].
  - intros lhs_ cmp rhs_ m' c Hl Hr H.
    assert (Hq : isQuadratic m' = false).
    { unfold addConstr in H.
      destruct (parseExpression m lhs_) as [l |] eqn:El; [| discriminate].
      destruct (match rhs_ with
                | RhsNumber n => Ok [Elt (ENum n)]
                | RhsExpression e => parseExpression m e
                end) as [r |] eqn:Er; [| discriminate].
      destruct (valid_comparison (if (cmp =? "==")%string then "=" else cmp));
        [| discriminate].
      destruct (parseExpression m (l ++ map negate_term r)%list) as [f |] eqn:Ef;
        [| discriminate].
      injection H as <- _. unfold isQuadratic.
      cbn [objective constraints set_constraints]. rewrite Hobj, orb_false_l.
      rewrite existsb_app, Hcs, orb_false_l. cbn [existsb lhs]. rewrite orb_false_r.
      apply zero_constant_no_triple.
      apply (parseExpression_no_triple m _ f) in Ef; [exact Ef |].
      rewrite forallb_app. apply andb_true_iff. split.
      - apply no_triple_linear. exact (parseExpression_no_triple m lhs_ l Hl El).
      - apply no_triple_linear.
        destruct rhs_ as [n | e0]; [injection Er as <-; reflexivity |].
        exact (parseExpression_no_triple m e0 r Hr Er). }
    split; [exact Hq | now apply Hg].
Qed.

Lemma linear_items_keep_the_model_linear_witness :
  isQuadratic model_xy = false
  /\ isQuadratic (fst (addConstr [lin 3 x_; lin 4 y_] ">="
                         (RhsExpression [const 12; lin (-1) x_]) model_xy)) = false.
Proof.
  assert (H : isQuadratic model_xy = false) by reflexivity.
  split; [exact H |].
  refine (proj1 (proj2 (linear_items_keep_the_model_linear model_xy H)
                   [lin 3 x_; lin 4 y_] ">=" (RhsExpression [const 12; lin (-1) x_])
                   _ _ eq_refl eq_refl _)).
  reflexivity.
Defined.

(** ** The key of a quadratic term *)

Lemma termName_sym a b : termName a b = termName b a.
Proof. unfold termName. now rewrite (pair_names_sym a b). Qed.

(** X9.  The key under which a quadratic term is filed is the same for the
    two orders of its variables and, when no name holds an asterisk, for no
    other pair: two quadratic terms are summed only when they hold the same
    two names. *)
Theorem termName_unordered_pair a b c d :
  has_star a = false -> has_star b = false ->
  has_star c = false -> has_star d = false ->
  (termName a b = termName c d <-> (a = c /\ b = d) \/ (a = d /\ b = c))
  /\ (forall m combined k x y,
        name x = a -> name y = b ->
        parse_item m combined (quad k x y)
        = accumulate (termName a b) k
            [ENum k; get_var m (fst (pair_names a b)); get_var m (snd (pair_names a b))]
            combined).
Proof.
  intros Ha Hb Hc Hd. split.
  - split.
    + unfold termName.
      destruct (pair_names a b) as [x y] eqn:E1. destruct (pair_names c d) as [x' y'] eqn:E2.
      intros H.
      destruct (pair_names_members _ _ _ _ E1) as [[-> ->] | [-> ->]];
        destruct (pair_names_members _ _ _ _ E2) as [[-> ->] | [-> ->]];
        apply pair_key_inj in H; try assumption; destruct H as [-> ->]; auto.
    + intros [[-> ->] | [-> ->]]; [reflexivity | apply termName_sym].
  - intros m combined k x y <- <-. unfold quad, termName. cbn [parse_item].
    now destruct (pair_names (name x) (name y)).
Qed.

Lemma termName_unordered_pair_witness :
  has_star "x" = false /\ has_star "y" = false
  /\ (termName "x" "y" = termName "y" "x" <-> ("x" = "y" /\ "y" = "x") \/ ("x" = "x" /\ "y" = "y")).
Proof.
  assert (Hx : has_star "x" = false) by reflexivity.
  assert (Hy : has_star "y" = false) by reflexivity.
  split; [exact Hx | split; [exact Hy |]].
  exact (proj1 (termName_unordered_pair "x" "y" "y" "x" Hx Hy Hy Hx)).
Defined.

(** ** The direction of the objective in the three encodings *)








Lemma toGLPKFormat_parts m req :
  toGLPKFormat m = Ok req ->
  glpk_direction req = (if String.eqb (toUpperCase (sense (objective m))) "MAXIMIZE"
                        then GLP_MAX else GLP_MIN)
  /\ glpk_rows (constraints m) 0 = Ok (glpk_subjectTo req).
Proof.
  unfold toGLPKFormat. intros H.
  destruct (mapM glpk_var (tl (obj_expression (objective m)))); cbn [bind] in H;
    [| discriminate].
  destruct (glpk_rows (constraints m) 0); cbn [bind] in H; [| discriminate].
  injection H as <-. now split.
Qed.




(** ** What a solve leaves of the model *)

Lemma forget_assoc_set n x x' (l : list (string * Var)) :
  assoc_get n l = Some x -> forget_value x' = forget_value x ->
  map (fun '(k, v) => (k, forget_value v)) (assoc_set n x' l)
  = map (fun '(k, v) => (k, forget_value v)) l.
Proof.
  intros Hget Hf. induction l as [| [k v] l IH]; cbn [assoc_get] in Hget; [discriminate |].
  cbn [assoc_set]. destruct (String.eqb_spec n k) as [-> | Hne].
  - injection Hget as ->. cbn [map]. now rewrite Hf.
  - cbn [map]. now rewrite (IH Hget).
Qed.

Lemma problem_set_value n v m : problem (set_value n v m) = problem m.
Proof.
  unfold set_value. destruct (assoc_get n (variables m)) as [x |] eqn:E; [| reflexivity].
  unfold problem. cbn [variables constraints objective varCount set_variables].
  erewrite forget_assoc_set; [reflexivity | exact E | reflexivity].
Qed.

Lemma problem_fold_set_value (l : list (string * prim)) : forall m,
  problem (fold_left (fun m '(n, v) => set_value n v m) l m) = problem m.
Proof.
  induction l as [| [n v] l IH]; intros m; cbn [fold_left]; [reflexivity |].
  now rewrite IH, problem_set_value.
Qed.

Lemma forget_read_duals duals cs : forall index,
  map (fun c => (map forget_item (lhs c), comparison c, rhs c)) (read_duals duals cs index)
  = map (fun c => (map forget_item (lhs c), comparison c, rhs c)) cs.
Proof.
  induction cs as [| c cs IH]; intros index; cbn [read_duals map]; [reflexivity |].
  rewrite IH. f_equal.
  destruct (assoc_get ("cons" ++ nat_toString (index + 1)) duals) as [[] |]; reflexivity.
Qed.

Lemma forget_read_rows rows : forall cs,
  map (fun c => (map forget_item (lhs c), comparison c, rhs c)) (read_rows rows cs)
  = map (fun c => (map forget_item (lhs c), comparison c, rhs c)) cs.
Proof.
  induction rows as [| row rows IH]; intros [| c cs]; cbn [read_rows map]; try reflexivity.
  now rewrite IH.
Qed.

Lemma problem_readGLPKSolution m sol : problem (readGLPKSolution m sol) = problem m.
Proof.
  unfold readGLPKSolution.
  set (m2 := fold_left _ (result_vars sol) _).
  assert (H2 : problem m2 = problem m).
  { subst m2. now rewrite problem_fold_set_value. }
  destruct (result_dual sol) as [duals |]; [| exact H2].
  rewrite <- H2. unfold problem.
  cbn [variables constraints objective varCount set_constraints].
  now rewrite forget_read_duals.
Qed.

Lemma problem_readHighsSolution m sol : problem (readHighsSolution m sol) = problem m.
Proof.
  unfold readHighsSolution.
  destruct (negb (Status sol =? "Optimal")%string && negb (Status sol =? "Feasible")%string)%bool;
    [reflexivity |].
  set (m2 := fold_left _ (Columns sol) _).
  assert (H2 : problem m2 = problem m).
  { subst m2. now rewrite problem_fold_set_value. }
  rewrite <- H2. unfold problem.
  cbn [variables constraints objective varCount set_constraints].
  now rewrite forget_read_rows.
Qed.

Lemma problem_readJSLPSolverSolution m sol :
  problem (readJSLPSolverSolution m sol) = problem m.
Proof.
  unfold readJSLPSolverSolution.
  set (m1 := set_status _ m).
  set (m2 := fold_left _ (variables m1) m1).
  assert (H2 : problem m2 = problem m).
  { subst m2.
    transitivity (problem m1); [| reflexivity].
    generalize (variables m1). generalize m1. intros m0 vs. revert m0.
    induction vs as [| [k v] vs IH]; intros m0; cbn [fold_left]; [reflexivity |].
    rewrite IH. destruct (js_solution_get sol k); apply problem_set_value. }
  destruct (number_truthy (js_result sol)); [| exact H2].
  rewrite <- H2. reflexivity.
Qed.

Lemma problem_clear_previous_solution m : problem (clear_previous_solution m) = problem m.
Proof.
  unfold problem, clear_previous_solution.
  cbn [variables constraints objective varCount].
  rewrite !map_map.
  replace (map (fun x : string * Var =>
                  let '(k, v) := let '(k, v) := x in
                    (k, {| lb := lb v; ub := ub v; vtype := vtype v; name := name v;
                           value := PNull |}) in (k, forget_value v)) (variables m))
    with (map (fun '(k, v) => (k, forget_value v)) (variables m))
    by (apply map_ext; now intros [k v]).
  reflexivity.
Qed.

(** X11.  Reading an answer, and a whole solve with whatever handle and
    whatever outcome, leave the problem as it is: the names, bounds and
    kinds of the variables and their order, the left sides, operators and
    right sides of the constraints and their order, the objective and its
    sense, and the counter of the generated names.  No variable and no
    constraint is added or removed, also when the answer names a variable the
    model does not have or holds more rows than the model has
    constraints. *)
Theorem solving_keeps_the_problem m :
  (forall sol, problem (readGLPKSolution m sol) = problem m)
  /\ (forall sol, problem (readHighsSolution m sol) = problem m)
  /\ (forall sol, problem (readJSLPSolverSolution m sol) = problem m)
  /\ (forall solver options, problem (fst (solve solver options m)) = problem m).
Proof.
  split; [intros; apply problem_readGLPKSolution |].
  split; [intros; apply problem_readHighsSolution |].
  split; [intros; apply problem_readJSLPSolverSolution |].
  intros solver options.
  rewrite <- (problem_clear_previous_solution m).
  unfold solve, bindM, modify, getM, lift, ret. cbv beta iota zeta.
  destruct (has_branchAndCut solver && has_lastSolvedModel solver)%bool.
  - destruct (Model_toJSLPSolverFormat (clear_previous_solution m) options) as [req |];
      [| reflexivity].
    destruct (Solve solver req) as [sol |]; [| reflexivity].
    cbn [fst]. now rewrite problem_readJSLPSolverSolution.
  - destruct (has_GLP_OPT solver).
    + destruct (Model_toGLPKFormat (clear_previous_solution m)) as [req |]; [| reflexivity].
      destruct (glpk_solve solver req options) as [sol |]; [| reflexivity].
      cbn [fst]. now rewrite problem_readGLPKSolution.
    + destruct (has_Highs_run solver); [| reflexivity].
      destruct (Model_toLPFormat (clear_previous_solution m)) as [text |]; [| reflexivity].
      destruct (highs_solve solver text options) as [sol |]; [| reflexivity].
      cbn [fst]. now rewrite problem_readHighsSolution.
Qed.

(** X12.  A solve that throws (the encoding fails, or the engine does) has
    done what the head of solve does and nothing else: the model is the one
    given with the solution and the objective value null, every value, primal
    and dual null, and the status as it was. *)
Theorem solve_failure_state solver options m e :
  snd (solve solver options m) = Throw e ->
  fst (solve solver options m) = clear_previous_solution m.
Proof.
  unfold solve, bindM, modify, getM, lift, ret. cbv beta iota zeta.
  destruct (has_branchAndCut solver && has_lastSolvedModel solver)%bool.
  - destruct (Model_toJSLPSolverFormat (clear_previous_solution m) options) as [req |];
      [| reflexivity].
    destruct (Solve solver req) as [sol |]; [| reflexivity]. discriminate.
  - destruct (has_GLP_OPT solver).
    + destruct (Model_toGLPKFormat (clear_previous_solution m)) as [req |]; [| reflexivity].
      destruct (glpk_solve solver req options) as [sol |]; [| reflexivity]. discriminate.
    + destruct (has_Highs_run solver); [| discriminate].
      destruct (Model_toLPFormat (clear_previous_solution m)) as [text |]; [| reflexivity].
      destruct (highs_solve solver text options) as [sol |]; [| reflexivity]. discriminate.
Qed.

Lemma solve_failure_state_witness :
  snd (solve (glpk_handle glpk_answer) [] made_quadratic) = Throw QuadraticUnsupported
  /\ fst (solve (glpk_handle glpk_answer) [] made_quadratic)
     = clear_previous_solution made_quadratic.
Proof.
  assert (H : snd (solve (glpk_handle glpk_answer) [] made_quadratic)
              = Throw QuadraticUnsupported) by reflexivity.
  split; [exact H |].
  exact (solve_failure_state (glpk_handle glpk_answer) [] made_quadratic
           QuadraticUnsupported H).
Defined.

(** ** The values read from a jsLPSolver answer *)

Lemma fold_set_values (g : string -> prim) : forall todo done m,
  variables m = (map (fun '(k, v) => (k, with_value (g k) v)) done ++ todo)%list ->
  NoDup (map fst (done ++ todo)) ->
  variables (fold_left (fun m '(k, _) => set_value k (g k) m) todo m)
  = map (fun '(k, v) => (k, with_value (g k) v)) (done ++ todo).
Proof.
  induction todo as [| [k v] todo IH]; intros done m Hm Hnd; cbn [fold_left].
  - now rewrite Hm, !app_nil_r.
  - assert (Hk : ~ In k (map fst (map (fun '(k, v) => (k, with_value (g k) v)) done))).
    { rewrite map_map.
      replace (map (fun x : string * Var => fst (let '(k0, v0) := x in (k0, with_value (g k0) v0)))
                   done) with (map fst done) by (apply map_ext; now intros [? ?]).
      rewrite map_app in Hnd. apply NoDup_remove_2 in Hnd.
      intros Hin. apply Hnd. apply in_or_app. now left. }
    replace (done ++ (k, v) :: todo)%list with ((done ++ [(k, v)]) ++ todo)%list
      by now rewrite <- app_assoc.
    apply IH.
    + unfold set_value. rewrite Hm, (assoc_get_middle k v _ _ Hk).
      cbn [variables set_variables]. rewrite (assoc_set_middle k v _ _ _ Hk).
      rewrite map_app. cbn [map]. now rewrite <- app_assoc.
    + now rewrite <- app_assoc.
Qed.

(** X13.  After the answer of jsLPSolver was read, every variable of the
    model has a value: the one the answer holds under its name, or 0 when the
    answer does not hold the name.  No value is left null or undefined.  (The
    names of a Map differ from one another.) *)
Theorem readJSLPSolverSolution_values m sol :
  NoDup (map fst (variables m)) ->
  variables (readJSLPSolverSolution m sol)
  = map (fun '(k, v) => (k, with_value (js_value_of sol k) v)) (variables m)
  /\ Forall (fun e => value (snd e) <> PNull /\ value (snd e) <> PUndefined)
            (variables (readJSLPSolverSolution m sol)).
Proof.
  intros Hnd.
  assert (H : variables (readJSLPSolverSolution m sol)
              = map (fun '(k, v) => (k, with_value (js_value_of sol k) v)) (variables m)).
  { unfold readJSLPSolverSolution.
    set (m1 := set_status _ m).
    assert (Hf : variables
                   (fold_left (fun m0 '(varName, _) =>
                                 match js_solution_get sol varName with
                                 | Some v => set_value varName v m0
                                 | None => set_value varName (PNum (Num 0)) m0
                                 end) (variables m1) m1)
                 = map (fun '(k, v) => (k, with_value (js_value_of sol k) v)) (variables m)).
    { rewrite (fold_left_pointwise _
                 (fun (m0 : Model) '((k, _) : string * Var) =>
                    set_value k (js_value_of sol k) m0)).
      - apply (fold_set_values (js_value_of sol) (variables m1) [] m1);
          [reflexivity | exact Hnd].
      - intros m0 [k v]. unfold js_value_of. now destruct (js_solution_get sol k). }
    destruct (number_truthy (js_result sol)); exact Hf. }
  split; [exact H |].
  rewrite H. apply Forall_forall. intros [k v] Hin.
  apply in_map_iff in Hin. destruct Hin as [[k0 v0] [E _]]. injection E as <- <-.
  cbn [snd value with_value]. unfold js_value_of, js_solution_get.
  destruct (k0 =? "feasible")%string; [split; discriminate |].
  destruct (k0 =? "result")%string; [split; discriminate |].
  destruct (k0 =? "bounded")%string; [split; discriminate |].
  destruct (if (k0 =? "isIntegral")%string then isIntegral sol else None);
    [split; discriminate |].
  destruct (assoc_get k0 (js_values sol)); [split; discriminate |].
  destruct (inherited k0); split; discriminate.
Qed.

Lemma readJSLPSolverSolution_values_witness :
  NoDup (map fst (variables model_xy))
  /\ variables (readJSLPSolverSolution model_xy jslp_answer_x)
     = [("x", with_value (PNum (Num 3)) x_); ("y", with_value (PNum (Num 0)) y_)].
Proof.
  assert (H : NoDup (map fst (variables model_xy))).
  { constructor; [intros [H | []]; discriminate |].
    constructor; [intros [] | constructor]. }
  split; [exact H |].
  exact (proj1 (readJSLPSolverSolution_values model_xy jslp_answer_x H)).
Defined.

(** ** Constraints and rows, by position and by name *)

Lemma read_rows_nth rows : forall cs i c,
  nth_error cs i = Some c ->
  nth_error (read_rows rows cs) i
  = Some (match nth_error rows i with
          | Some row => set_dual (Row_Dual row) (set_primal (Row_Primal row) c)
          | None => c
          end).
Proof.
  induction rows as [| row rows IH]; intros cs i c H.
  - destruct cs; cbn [read_rows]; rewrite H; now destruct i.
  - destruct cs as [| c0 cs]; [now destruct i |].
    cbn [read_rows]. destruct i as [| i]; cbn [nth_error] in *.
    + now injection H as ->.
    + now apply IH.
Qed.

Lemma read_rows_length rows : forall cs, List.length (read_rows rows cs) = List.length cs.
Proof.
  induction rows as [| row rows IH]; intros [| c cs]; cbn [read_rows List.length]; auto.
Qed.

(** X14.  When the status of a highs answer is Optimal or Feasible, the
    constraint at position [i] takes the primal and dual values of the row
    at position [i] of the answer, whatever the name of that row; a
    constraint beyond the rows of the answer is left as it is, and the rows
    beyond the constraints of the model are ignored: the model keeps its
    number of constraints. *)
Theorem readHighsSolution_rows_by_position m sol :
  Status sol = "Optimal" \/ Status sol = "Feasible" ->
  List.length (constraints (readHighsSolution m sol)) = List.length (constraints m)
  /\ forall i c,
       nth_error (constraints m) i = Some c ->
       nth_error (constraints (readHighsSolution m sol)) i
       = Some (match nth_error (Rows sol) i with
               | Some row => set_dual (Row_Dual row) (set_primal (Row_Primal row) c)
               | None => c
               end).
Proof.
  intros Hs. unfold readHighsSolution.
  assert (Hb : (negb (Status sol =? "Optimal")%string
                && negb (Status sol =? "Feasible")%string)%bool = false).
  { destruct Hs as [-> | ->]; reflexivity. }
  rewrite Hb. cbn [constraints set_constraints].
  destruct (fold_set_value_frame (Columns sol) (set_status (PStr (Status sol)) m))
    as (Hc & _).
  cbn zeta in Hc. rewrite Hc. cbn [constraints set_status].
  split; [apply read_rows_length | intros i c H; now apply read_rows_nth].
Qed.

Lemma readHighsSolution_rows_by_position_witness :
  (Status highs_two_rows = "Optimal" \/ Status highs_two_rows = "Feasible")
  /\ List.length (constraints (readHighsSolution model_plus2 highs_two_rows)) = 1%nat
  /\ map (fun c => (primal c, dual c))
         (constraints (readHighsSolution model_plus2 highs_two_rows))
     = [(PNum (Num 3), PNum (Num 1))].
Proof.
  assert (H : Status highs_two_rows = "Optimal" \/ Status highs_two_rows = "Feasible")
    by (left; reflexivity).
  split; [exact H |].
  split; [exact (proj1 (readHighsSolution_rows_by_position model_plus2 highs_two_rows H)) |].
  reflexivity.
Defined.

Lemma glpk_rows_nth cs : forall index rows i c,
  glpk_rows cs index = Ok rows ->
  nth_error cs i = Some c ->
  exists row, nth_error rows i = Some row
              /\ row_name row = "cons" ++ nat_toString (index + i + 1)
              /\ mapM glpk_var (tl (lhs c)) = Ok (row_vars row)
              /\ row_bnds row
                 = {| bnds_type := if String.eqb (comparison c) "<=" then GLP_UP
                                   else if String.eqb (comparison c) ">=" then GLP_LO
                                        else GLP_DB;
                      bnds_ub := if String.eqb (comparison c) "<=" then BNum (rhs c)
                                 else BNum (Num 0);
                      bnds_lb := if String.eqb (comparison c) ">=" then BNum (rhs c)
                                 else BNum (Num 0) |}.
Proof.
  induction cs as [| c0 cs IH]; intros index rows i c H Hi; [now destruct i |].
  cbn [glpk_rows] in H.
  destruct (mapM glpk_var (tl (lhs c0))) as [vars |] eqn:Ev; cbn [bind] in H; [| discriminate].
  destruct (glpk_rows cs (S index)) as [rows' |] eqn:Er; cbn [bind] in H; [| discriminate].
  injection H as <-.
  destruct i as [| i]; cbn [nth_error] in *.
  - injection Hi as ->. eexists. split; [reflexivity |].
    cbn [row_name row_bnds row_vars]. rewrite Nat.add_0_r.
    split; [reflexivity | split; [exact Ev | reflexivity]].
  - destruct (IH _ _ _ _ Er Hi) as [row [Hn [Hname [Hv Hb]]]].
    exists row. split; [exact Hn |].
    split; [| split; assumption].
    rewrite Hname. do 2 f_equal. lia.
Qed.

Lemma glpk_rows_length cs : forall index rows,
  glpk_rows cs index = Ok rows -> List.length rows = List.length cs.
Proof.
  induction cs as [| c0 cs IH]; intros index rows H; cbn [glpk_rows] in H.
  - now injection H as <-.
  - destruct (mapM glpk_var (tl (lhs c0))); cbn [bind] in H; [| discriminate].
    destruct (glpk_rows cs (S index)) as [rows' |] eqn:Er; cbn [bind] in H; [| discriminate].
    injection H as <-. cbn [List.length]. f_equal. eapply IH, Er.
Qed.

(** X15.  The request for glpk.js holds one row per constraint, in the
    order of the constraints; the row at position [i] is named cons
    followed by [i + 1] and holds the terms of the constraint after its
    constant.  Its bounds are: for [<=] the type GLP_UP with the right side
    as upper bound, for [>=] the type GLP_LO with the right side as lower
    bound, and for [=] the type GLP_DB with both bounds 0, whatever the
    right side of the constraint is. *)
Theorem toGLPKFormat_rows m req :
  toGLPKFormat m = Ok req ->
  List.length (glpk_subjectTo req) = List.length (constraints m)
  /\ forall i c,
       nth_error (constraints m) i = Some c ->
       exists row,
         nth_error (glpk_subjectTo req) i = Some row
         /\ row_name row = "cons" ++ nat_toString (i + 1)
         /\ mapM glpk_var (tl (lhs c)) = Ok (row_vars row)
         /\ (comparison c = "<=" ->
             row_bnds row = {| bnds_type := GLP_UP; bnds_ub := BNum (rhs c);
                               bnds_lb := BNum (Num 0) |})
         /\ (comparison c = ">=" ->
             row_bnds row = {| bnds_type := GLP_LO; bnds_ub := BNum (Num 0);
                               bnds_lb := BNum (rhs c) |})
         /\ (comparison c = "=" ->
             row_bnds row = {| bnds_type := GLP_DB; bnds_ub := BNum (Num 0);
                               bnds_lb := BNum (Num 0) |}).
Proof.
  intros H. apply toGLPKFormat_parts in H. destruct H as [_ H]. split.
  - eapply glpk_rows_length, H.
  - intros i c Hi. destruct (glpk_rows_nth _ _ _ _ _ H Hi) as [row [Hn [Hname [Hv Hb]]]].
    exists row. split; [exact Hn | split; [exact Hname | split; [exact Hv |]]].
    rewrite Hb. repeat split; intros ->; reflexivity.
Qed.

Lemma toGLPKFormat_rows_witness :
  exists req,
    toGLPKFormat model_equality = Ok req
    /\ map rhs (constraints model_equality) = [Num 5]
    /\ map (fun row => (row_name row, row_bnds row)) (glpk_subjectTo req)
       = [("cons1", {| bnds_type := GLP_DB; bnds_ub := BNum (Num 0);
                       bnds_lb := BNum (Num 0) |})]
    /\ List.length (glpk_subjectTo req) = List.length (constraints model_equality).
Proof.
  destruct (toGLPKFormat model_equality) as [req | e] eqn:E; [| discriminate E].
  exists req. split; [reflexivity | split; [reflexivity |]].
  split; [injection E as <-; reflexivity |].
  exact (proj1 (toGLPKFormat_rows model_equality req E)).
Defined.

Lemma read_duals_nth duals cs : forall index i c,
  nth_error cs i = Some c ->
  nth_error (read_duals duals cs index) i
  = Some (match assoc_get ("cons" ++ nat_toString (index + i + 1)) duals with
          | Some PUndefined | None => c
          | Some d => set_dual d c
          end).
Proof.
  induction cs as [| c0 cs IH]; intros index i c Hi; [now destruct i |].
  cbn [read_duals]. destruct i as [| i]; cbn [nth_error] in *.
  - injection Hi as ->. now rewrite Nat.add_0_r.
  - rewrite (IH (S index) i c Hi). do 4 f_equal.
    replace (S index + i + 1)%nat with (index + S i + 1)%nat by lia. reflexivity.
Qed.

(** X16.  The reader of the glpk.js answer looks the dual value of a
    constraint up under the name the encoder gave to its row: the constraint
    at position [i] takes the dual value the answer holds under the name of
    row [i] of the request, and is left as it is when the answer holds none
    under that name. *)
Theorem readGLPKSolution_duals_by_row_name m req sol duals :
  toGLPKFormat m = Ok req ->
  result_dual sol = Some duals ->
  forall i c row,
    nth_error (constraints m) i = Some c ->
    nth_error (glpk_subjectTo req) i = Some row ->
    nth_error (constraints (readGLPKSolution m sol)) i
    = Some (match assoc_get (row_name row) duals with
            | Some PUndefined | None => c
            | Some d => set_dual d c
            end).
Proof.
  intros Hreq Hd i c row Hc Hrow.
  apply toGLPKFormat_parts in Hreq. destruct Hreq as [_ Hreq].
  destruct (glpk_rows_nth _ _ _ _ _ Hreq Hc) as [row' [Hn [Hname _]]].
  rewrite Hrow in Hn. injection Hn as <-.
  unfold readGLPKSolution. rewrite Hd. cbn [constraints set_constraints].
  destruct (fold_set_value_frame (result_vars sol) (set_status (PNum (result_status sol)) m))
    as (Hcs & _).
  cbn zeta in Hcs. rewrite Hcs. cbn [constraints set_status].
  rewrite (read_duals_nth duals (constraints m) 0 i c Hc). now rewrite Hname.
Qed.

Lemma readGLPKSolution_duals_by_row_name_witness :
  exists req,
    toGLPKFormat model_plus2 = Ok req
    /\ result_dual glpk_answer = Some [("cons1", PNum (Num 1))]
    /\ nth_error (constraints (readGLPKSolution model_plus2 glpk_answer)) 0
       = Some {| lhs := [const 0; lin 1 x_]; comparison := "<="; rhs := Num 3;
                 primal := PUndefined; dual := PNum (Num 1) |}.
Proof.
  destruct (toGLPKFormat model_plus2) as [req | e] eqn:E; [| discriminate E].
  exists req. split; [reflexivity | split; [reflexivity |]].
  refine (readGLPKSolution_duals_by_row_name model_plus2 req glpk_answer
            [("cons1", PNum (Num 1))] E eq_refl 0%nat
            {| lhs := [const 0; lin 1 x_]; comparison := "<="; rhs := Num 3;
               primal := PUndefined; dual := PUndefined |}
            {| row_name := "cons1";
               row_vars := [{| gv_name := Some "x"; gv_coef := ENum (Num 1) |}];
               row_bnds := {| bnds_type := GLP_UP; bnds_ub := BNum (Num 3);
                              bnds_lb := BNum (Num 0) |} |}
            eq_refl _).
  injection E as <-. reflexivity.
Defined.

(** ** The rows of the jsLPSolver request *)

Lemma rows_keyed_variable n req entry :
  rows_keyed n req -> rows_keyed n (js_translate_variable req entry).
Proof.
  intros H. destruct entry as [varName varObj]. unfold rows_keyed, js_translate_variable.
  cbn [js_variables]. intros v row key coef Hin Hk.
  apply assoc_set_In in Hin. destruct Hin as [E | Hin].
  - injection E as _ ->. contradiction.
  - eapply H; eassumption.
Qed.

Lemma rows_keyed_objective n req term req' :
  rows_keyed n req -> js_objective_term req term = Ok req' -> rows_keyed n req'.
Proof.
  intros H. destruct term as [e | l]; cbn [js_objective_term].
  - now intros E; injection E as <-.
  - destruct (term_var_name l) as [name_ |]; cbn [bind]; [| discriminate].
    unfold js_variable_row.
    destruct (assoc_get (default "undefined" name_) (js_variables req)) as [row |] eqn:Er;
      cbn [bind]; [| discriminate].
    intros E. injection E as <-.
    unfold rows_keyed, with_js_variables. cbn [js_variables].
    intros v row' key coef Hin Hk.
    apply assoc_set_In in Hin. destruct Hin as [E | Hin]; [| eapply H; eassumption].
    injection E as _ ->.
    apply assoc_set_In in Hk. destruct Hk as [E | Hk].
    + injection E as -> _. now left.
    + eapply H; [apply assoc_get_In_pair, Er | exact Hk].
Qed.

Lemma rows_keyed_constraint_term n i req term req' :
  (i < n)%nat ->
  rows_keyed n req ->
  js_constraint_term ("c" ++ nat_toString i) req term = Ok req' -> rows_keyed n req'.
Proof.
  intros Hi H. destruct term as [e | l]; cbn [js_constraint_term].
  - now intros E; injection E as <-.
  - destruct (term_var_name l) as [name_ |]; cbn [bind]; [| discriminate].
    unfold js_variable_row.
    destruct (assoc_get (default "undefined" name_) (js_variables req)) as [row |] eqn:Er;
      cbn [bind]; [| discriminate].
    intros E. injection E as <-.
    unfold rows_keyed, with_js_variables. cbn [js_variables].
    intros v row' key coef Hin Hk.
    apply assoc_set_In in Hin. destruct Hin as [E | Hin]; [| eapply H; eassumption].
    injection E as _ ->.
    apply assoc_set_In in Hk. destruct Hk as [E | Hk].
    + injection E as -> _. right. now exists i.
    + match type of Hk with
      | context [if ?b then _ else _] => destruct b
      end.
      * eapply H; [apply assoc_get_In_pair, Er | exact Hk].
      * apply assoc_set_In in Hk. destruct Hk as [E | Hk].
        -- injection E as -> _. right. now exists i.
        -- eapply H; [apply assoc_get_In_pair, Er | exact Hk].
Qed.

Lemma rows_keyed_constraints n cs : forall req index req',
  (index + List.length cs <= n)%nat ->
  rows_keyed n req ->
  js_translate_constraints req cs index = Ok req' -> rows_keyed n req'.
Proof.
  induction cs as [| c cs IH]; intros req index req' Hn H E; cbn [js_translate_constraints] in E.
  - now injection E as <-.
  - cbn [List.length] in Hn.
    match type of E with
    | bind (foldM ?f ?b ?l) _ = _ => destruct (foldM f b l) as [req2 |] eqn:E2
    end; cbn [bind] in E; [| discriminate].
    eapply (IH req2 (S index) req'); [lia | | exact E].
    apply (foldM_invariant _ (rows_keyed n)) in E2; [exact E2 | |].
    + intros b a b' Hb Hs. eapply rows_keyed_constraint_term; [| exact Hb | exact Hs]. lia.
    + exact H.
Qed.

Lemma toJSLPSolverFormat_rows_keyed m options req :
  toJSLPSolverFormat m options = Ok req -> rows_keyed (List.length (constraints m)) req.
Proof.
  unfold toJSLPSolverFormat. intros H.
  match type of H with
  | bind (foldM ?f ?b ?l) _ = _ => destruct (foldM f b l) as [req2 |] eqn:E
  end; cbn [bind] in H; [| discriminate].
  apply (rows_keyed_constraints (List.length (constraints m))) in H;
    [exact H | cbn; lia |].
  apply (foldM_invariant _ (rows_keyed (List.length (constraints m)))) in E; [exact E | |].
  - intros b a b' Hb Hs. eapply rows_keyed_objective; eassumption.
  - apply fold_left_invariant.
    + intros b a Hb. now apply rows_keyed_variable.
    + intros v row key coef Hin. contradiction.
Qed.

Lemma last_char_app a b : b <> EmptyString -> last_char (a ++ b) = last_char b.
Proof.
  intros Hb. induction a as [| c a IH]; [reflexivity |].
  cbn [append last_char]. rewrite IH.
  destruct (a ++ b) eqn:E; [| reflexivity].
  destruct a; [cbn in E; contradiction | discriminate].
Qed.

Lemma digits_value_last s : forall acc v c,
  digits_value s acc = Some v -> last_char s = Some c -> is_digit c = true.
Proof.
  induction s as [| d s IH]; intros acc v c H Hl; [discriminate |].
  cbn [digits_value] in H. destruct (is_digit d) eqn:Hd; [| discriminate].
  cbn [last_char] in Hl. destruct s as [| d' s'].
  - now injection Hl as <-.
  - eapply IH; eassumption.
Qed.

Lemma row_key_last n key c :
  row_key n key -> last_char key = Some c ->
  c = "e"%char \/ c = "c"%char \/ is_digit c = true.
Proof.
  intros [-> | [i [_ ->]]] Hl.
  - cbn in Hl. injection Hl as <-. now left.
  - right. change ("c" ++ nat_toString i) with (String "c" (nat_toString i)) in Hl.
    cbn [last_char] in Hl. destruct (nat_toString i) as [| d s] eqn:E.
    + injection Hl as <-. now left.
    + right. rewrite <- E in Hl. eapply digits_value_last; [| exact Hl].
      apply digits_of_Z_value. apply Nat2Z.is_nonneg.
Qed.

(** The name of the virtual constraint of a bound is no key of a row. *)
Lemma row_key_not_bound n x :
  ~ row_key n (x ++ "_lb") /\ ~ row_key n (x ++ "_ub").
Proof.
  split; intros H.
  - apply (row_key_last n _ "b"%char) in H; [| now rewrite last_char_app].
    destruct H as [H | [H | H]]; discriminate.
  - apply (row_key_last n _ "b"%char) in H; [| now rewrite last_char_app].
    destruct H as [H | [H | H]]; discriminate.
Qed.

(** X17.  In the request for jsLPSolver the row of a variable holds
    coefficients under two kinds of keys only: the name of the objective,
    and the names c0, c1, ... of the constraints of the model.  The virtual
    constraints that carry the bounds of the variables (named by the
    variable followed by _lb or _ub) therefore have no coefficient in any
    row: no variable takes part in them. *)
Theorem toJSLPSolverFormat_row_keys m options req :
  toJSLPSolverFormat m options = Ok req ->
  (forall v row key coef,
     In (v, row) (js_variables req) -> In (key, coef) row ->
     key = "objective"
     \/ exists i, (i < List.length (constraints m))%nat /\ key = "c" ++ nat_toString i)
  /\ (forall v row x,
        In (v, row) (js_variables req) ->
        assoc_get (x ++ "_lb") row = None /\ assoc_get (x ++ "_ub") row = None).
Proof.
  intros H. pose proof (toJSLPSolverFormat_rows_keyed m options req H) as Hk.
  split; [exact Hk |].
  intros v row x Hin.
  destruct (row_key_not_bound (List.length (constraints m)) x) as [Hl Hu].
  split; apply assoc_get_None_not_In; intros coef Hc.
  - apply Hl. eapply Hk; eassumption.
  - apply Hu. eapply Hk; eassumption.
Qed.

Lemma toJSLPSolverFormat_row_keys_witness :
  exists req,
    toJSLPSolverFormat model_bounded [] = Ok req
    /\ js_constraints req
       = [("x_ub", [("max", BNum (Num 40))]); ("c0", [("max", BNum (Num 3))])]
    /\ js_variables req = [("x", [("objective", ENum (Num 1)); ("c0", ENum (Num 1))])]
    /\ (forall v row x,
          In (v, row) (js_variables req) ->
          assoc_get (x ++ "_lb") row = None /\ assoc_get (x ++ "_ub") row = None).
Proof.
  destruct (toJSLPSolverFormat model_bounded []) as [req | e] eqn:E; [| discriminate E].
  exists req. split; [reflexivity |].
  split; [injection E as <-; reflexivity |].
  split; [injection E as <-; reflexivity |].
  exact (proj2 (toJSLPSolverFormat_row_keys model_bounded [] req E)).
Defined.

(** ** The grammar: operators and names *)

Lemma many_fuel_Forall {A} (p : parser A) (P : A -> Prop) :
  (forall s a rest, p s = Some (a, rest) -> P a) ->
  forall fuel s l rest, many_fuel fuel p s = (l, rest) -> Forall P l.
Proof.
  intros Hp fuel. induction fuel as [| fuel IH]; intros s l rest H; cbn [many_fuel] in H.
  - injection H as <- _. constructor.
  - destruct (p s) as [[a r] |] eqn:E.
    + destruct (many_fuel fuel p r) as [l' r'] eqn:E'. injection H as <- _.
      constructor; [eapply Hp, E | eapply IH, E'].
    + injection H as <- _. constructor.
Qed.

Lemma many1_Forall {A} (p : parser A) (P : A -> Prop) :
  (forall s a rest, p s = Some (a, rest) -> P a) ->
  forall s l rest, many1 p s = Some (l, rest) -> Forall P l /\ l <> [].
Proof.
  intros Hp s l rest H. unfold many1, many in H.
  destruct (many_fuel (S (String.length s)) p s) as [[| a l'] r] eqn:E; [discriminate |].
  injection H as <- _. split; [| discriminate].
  eapply many_fuel_Forall; [exact Hp | exact E].
Qed.

Lemma lit_value p s t rest : lit p s = Some (t, rest) -> t = p.
Proof.
  unfold lit. destruct (strip_prefix p s); [| discriminate]. now intros H; injection H as <- _.
Qed.

(** Whatever ConstraintSense returns is an operator addConstr accepts. *)
Lemma ConstraintSense_valid s t rest :
  ConstraintSense s = Some (t, rest) -> valid_comparison t = true.
Proof.
  unfold ConstraintSense, alt, pbind, pret.
  destruct (lit "<=" s) as [[t1 r1] |] eqn:E1.
  { intros H. injection H as <- _. apply lit_value in E1. subst. reflexivity. }
  destruct (lit ">=" s) as [[t2 r2] |] eqn:E2.
  { intros H. injection H as <- _. apply lit_value in E2. subst. reflexivity. }
  destruct (lit "=" s) as [[t3 r3] |] eqn:E3.
  { intros H. injection H as <- _. apply lit_value in E3. subst. reflexivity. }
  destruct (lit "=<" s) as [[t4 r4] |] eqn:E4.
  { exfalso. revert E3 E4. unfold lit. destruct s as [| c s']; cbn [strip_prefix];
      [discriminate |]. destruct (Ascii.eqb "=" c); discriminate. }
  destruct (lit "=>" s) as [[t5 r5] |] eqn:E5.
  { exfalso. revert E3 E5. unfold lit. destruct s as [| c s']; cbn [strip_prefix];
      [discriminate |]. destruct (Ascii.eqb "=" c); discriminate. }
  destruct (lit "<" s) as [[t6 r6] |] eqn:E6; [| discriminate].
  intros H. injection H as <- _. apply lit_value in E6. subst. reflexivity.
Qed.

Section GrammarFacts.
Variable parseFloat : string -> number.

Lemma Constraint_sense_valid s c rest :
  Constraint parseFloat s = Some (c, rest) -> valid_comparison (pc_sense c) = true.
Proof.
  unfold Constraint, pbind, pret.
  destruct (Label s) as [[n r1] |]; [| discriminate].
  destruct (ws r1) as [[u1 r2] |]; [| discriminate].
  destruct (Expression parseFloat r2) as [[expr r3] |]; [| discriminate].
  destruct (ws r3) as [[u2 r4] |]; [| discriminate].
  destruct (ConstraintSense r4) as [[sense_ r5] |] eqn:Es; [| discriminate].
  destruct (ws r5) as [[u3 r6] |]; [| discriminate].
  destruct (SignedNumber parseFloat r6) as [[v r7] |]; [| discriminate].
  destruct (ws r7) as [[u4 r8] |]; [| discriminate].
  intros H. injection H as <- _. cbn [pc_sense]. eapply ConstraintSense_valid, Es.
Qed.

Lemma Constraints_senses_valid s cs rest :
  Constraints parseFloat s = Some (cs, rest) ->
  Forall (fun c => valid_comparison (pc_sense c) = true) cs /\ cs <> [].
Proof.
  unfold Constraints, pbind.
  destruct (alt (lit_i "Subject To") (alt (lit_i "ST") (lit_i "S.T.")) s) as [[h r1] |];
    [| discriminate].
  destruct (ws r1) as [[u r2] |]; [| discriminate].
  apply many1_Forall. intros s0 c r. apply Constraint_sense_valid.
Qed.

Lemma Objective_type s o rest :
  Objective parseFloat s = Some (o, rest) -> po_type o = "max" \/ po_type o = "min".
Proof.
  unfold Objective, pbind, pret.
  destruct (alt (lit_i "Maximize") (alt (lit_i "Minimize") (alt (lit_i "MAX") (lit_i "MIN"))) s)
    as [[ty r1] |]; [| discriminate].
  destruct (ws r1) as [[u1 r2] |]; [| discriminate].
  destruct (Label r2) as [[n r3] |]; [| discriminate].
  destruct (ws r3) as [[u2 r4] |]; [| discriminate].
  destruct (Expression parseFloat r4) as [[expr r5] |]; [| discriminate].
  intros H. injection H as <- _. cbn [po_type].
  destruct (startsWith "max" (toLowerCase ty)); [now left | now right].
Qed.

Lemma LPFile_parts s f rest :
  LPFile parseFloat s = Some (f, rest) ->
  (po_type (lp_objective f) = "max" \/ po_type (lp_objective f) = "min")
  /\ Forall (fun c => valid_comparison (pc_sense c) = true) (lp_constraints f)
  /\ lp_constraints f <> [].
Proof.
  unfold LPFile, pbind, pret.
  destruct (ws s) as [[u1 r1] |]; [| discriminate].
  destruct (Objective parseFloat r1) as [[header r2] |] eqn:Eo; [| discriminate].
  destruct (ws r2) as [[u2 r3] |]; [| discriminate].
  destruct (Constraints parseFloat r3) as [[cs r4] |] eqn:Ec; [| discriminate].
  destruct (ws r4) as [[u3 r5] |]; [| discriminate].
  destruct (opt (Bounds parseFloat) r5) as [[bounds r6] |]; [| discriminate].
  destruct (ws r6) as [[u4 r7] |]; [| discriminate].
  destruct (opt General r7) as [[general r8] |]; [| discriminate].
  destruct (ws r8) as [[u5 r9] |]; [| discriminate].
  destruct (opt Binary r9) as [[binary r10] |]; [| discriminate].
  destruct (ws r10) as [[u6 r11] |]; [| discriminate].
  destruct (lit_i "End" r11) as [[e r12] |]; [| discriminate].
  destruct (ws r12) as [[u7 r13] |]; [| discriminate].
  intros H. injection H as <- _. cbn [lp_objective lp_constraints].
  split; [eapply Objective_type, Eo |].
  eapply Constraints_senses_valid, Ec.
Qed.

End GrammarFacts.

Lemma parse_items_no_operator_error m l : forall combined,
  parse_items m combined l <> Throw InvalidComparisonOperator.
Proof.
  induction l as [| it l IH]; intros combined; cbn [parse_items]; [discriminate |].
  destruct (parse_item m combined it) as [c' | e] eqn:E; cbn [bind]; [apply IH |].
  intros H. injection H as ->. revert E. unfold parse_item, accumulate.
  repeat match goal with
         | |- context [match ?x with _ => _ end] => destruct x
         end; discriminate.
Qed.

Lemma parseExpression_no_operator_error m l :
  parseExpression m l <> Throw InvalidComparisonOperator.
Proof.
  unfold parseExpression.
  pose proof (parse_items_no_operator_error m l [("constant", SNum (Num 0))]) as Hi.
  destruct (parse_items m [("constant", SNum (Num 0))] l); cbn [bind];
    [discriminate | intros H; apply Hi; injection H as ->; reflexivity].
Qed.

Lemma addConstr_valid_operator m lhs_ cmp rhs_ :
  valid_comparison cmp = true ->
  snd (addConstr lhs_ cmp rhs_ m) <> Throw InvalidComparisonOperator.
Proof.
  intros Hc. unfold addConstr.
  pose proof (parseExpression_no_operator_error m) as Hp.
  assert (Hv : valid_comparison (if (cmp =? "==")%string then "=" else cmp) = true).
  { destruct (cmp =? "==")%string; [reflexivity | exact Hc]. }
  destruct (parseExpression m lhs_) as [l | e] eqn:El; cbn [snd].
  2: { intros H. injection H as ->. exact (Hp _ El). }
  destruct rhs_ as [n | e0].
  - rewrite Hv.
    destruct (parseExpression m (l ++ map negate_term [Elt (ENum n)])%list) as [f | e] eqn:Ef;
      cbn [snd]; [discriminate |]. intros H. injection H as ->. exact (Hp _ Ef).
  - destruct (parseExpression m e0) as [r | e] eqn:Er; cbn [snd].
    2: { intros H. injection H as ->. exact (Hp _ Er). }
    rewrite Hv.
    destruct (parseExpression m (l ++ map negate_term r)%list) as [f | e] eqn:Ef;
      cbn [snd]; [discriminate |]. intros H. injection H as ->. exact (Hp _ Ef).
Qed.

(** X18.  In a file the grammar accepts, whatever parseFloat is, the kind
    of the objective is max or min, there is one constraint at least, and the
    operator of every constraint is [<=], [>=] or [=]: addConstr, given such
    an operator, never throws for the operator. *)
Theorem parsed_operators_are_valid parseFloat input f :
  parse parseFloat input = Ok f ->
  (po_type (lp_objective f) = "max" \/ po_type (lp_objective f) = "min")
  /\ lp_constraints f <> []
  /\ Forall (fun c => valid_comparison (pc_sense c) = true) (lp_constraints f)
  /\ (forall c m lhs_ rhs_,
        In c (lp_constraints f) ->
        snd (addConstr lhs_ (pc_sense c) rhs_ m) <> Throw InvalidComparisonOperator).
Proof.
  unfold parse. intros H.
  destruct (LPFile parseFloat input) as [[f0 rest] |] eqn:E; [| discriminate].
  destruct rest; [| discriminate]. injection H as ->.
  destruct (LPFile_parts parseFloat _ _ _ E) as (Ht & Hs & Hn).
  repeat split; try assumption.
  intros c m lhs_ rhs_ Hin. apply addConstr_valid_operator.
  rewrite Forall_forall in Hs. now apply Hs.
Qed.

Lemma parsed_operators_are_valid_witness :
  exists f,
    parse parseFloat_integer (lp_small "<") = Ok f
    /\ map pc_sense (lp_constraints f) = ["<="]
    /\ Forall (fun c => valid_comparison (pc_sense c) = true) (lp_constraints f).
Proof.
  destruct (parse parseFloat_integer (lp_small "<")) as [f | e] eqn:E; [| discriminate E].
  exists f. split; [reflexivity |].
  split; [injection E as <-; reflexivity |].
  exact (proj1 (proj2 (proj2 (parsed_operators_are_valid parseFloat_integer _ f E)))).
Defined.

Lemma lit_i_aux_app p : forall s t r rest,
  lit_i_aux p s = Some (t, r) -> lit_i_aux p (s ++ rest) = Some (t, r ++ rest).
Proof.
  induction p as [| a p IH]; intros s t r rest H.
  - destruct s; cbn [lit_i_aux] in *; now injection H as <- <-.
  - destruct s as [| b s]; cbn [lit_i_aux] in H; [discriminate |].
    cbn [append lit_i_aux].
    destruct (Ascii.eqb (lower_char a) (lower_char b)); [| discriminate].
    destruct (lit_i_aux p s) as [[t' r'] |] eqn:E; [| discriminate].
    injection H as <- <-. now rewrite (IH _ _ _ rest E).
Qed.

Lemma lit_i_prefix_None p n rest : lit_i p (n ++ rest) = None -> lit_i p n = None.
Proof.
  unfold lit_i. intros H. destruct (lit_i_aux p n) as [[t r] |] eqn:E; [| reflexivity].
  now rewrite (lit_i_aux_app p n t r rest E) in H.
Qed.

Lemma take_while_spec cls s : forall t r,
  take_while cls s = (t, r) ->
  s = t ++ r /\ match r with
                | String c _ => cls c = false
                | EmptyString => True
                end.
Proof.
  induction s as [| c s IH]; intros t r H; cbn [take_while] in H.
  - injection H as <- <-. now split.
  - destruct (cls c) eqn:Ec.
    + destruct (take_while cls s) as [t' r'] eqn:E. injection H as <- <-.
      destruct (IH _ _ eq_refl) as [-> Hr]. now split.
    + injection H as <- <-. now split.
Qed.

(** X19.  A variable name read by the grammar is a part of the input, from
    the place where the rule starts; it starts with a letter or one of the
    punctuation marks of names; it ends where the next character is no
    character of a name; and it does not start with End, Bin or Gen in any
    letter case.  Names such as end1, Binder or general are never read as
    variable names. *)
Theorem VariableName_reserved_prefixes s n rest :
  VariableName s = Some (n, rest) ->
  s = n ++ rest
  /\ (exists c r, n = String c r /\ is_name_start c = true)
  /\ match rest with
     | String c _ => is_name_char c = false
     | EmptyString => True
     end
  /\ lit_i "End" n = None /\ lit_i "Bin" n = None /\ lit_i "Gen" n = None.
Proof.
  unfold VariableName, pbind, pret, not_ahead.
  destruct (BinaryHeader s) as [x |] eqn:Eb; [discriminate |].
  destruct (GeneralHeader s) as [x |] eqn:Eg; [discriminate |].
  destruct (lit_i "End" s) as [x |] eqn:Ee; [discriminate |].
  unfold char_in. destruct s as [| c s']; [discriminate |].
  destruct (is_name_start c) eqn:Ec; [| discriminate].
  destruct (take_while is_name_char s') as [t r] eqn:Et.
  intros H. injection H as <- <-.
  destruct (take_while_spec _ _ _ _ Et) as [Hs Hr].
  assert (Happ : String c s' = String c t ++ r) by (cbn [append]; now rewrite Hs).
  split; [exact Happ |].
  split; [now exists c, t |].
  split; [exact Hr |].
  rewrite Happ in Eb, Eg, Ee.
  split; [eapply lit_i_prefix_None, Ee |].
  unfold BinaryHeader, GeneralHeader, alt in Eb, Eg.
  split.
  - destruct (lit_i "Binary" (String c t ++ r)); [discriminate |].
    destruct (lit_i "Binaries" (String c t ++ r)); [discriminate |].
    eapply lit_i_prefix_None, Eb.
  - destruct (lit_i "Generals" (String c t ++ r)); [discriminate |].
    destruct (lit_i "General" (String c t ++ r)); [discriminate |].
    eapply lit_i_prefix_None, Eg.
Qed.

Lemma VariableName_reserved_prefixes_witness :
  VariableName "x1 <= 3" = Some ("x1", " <= 3")
  /\ VariableName "end1 <= 3" = None
  /\ lit_i "End" "x1" = None /\ lit_i "Bin" "x1" = None /\ lit_i "Gen" "x1" = None.
Proof.
  assert (H : VariableName "x1 <= 3" = Some ("x1", " <= 3")) by reflexivity.
  split; [exact H | split; [reflexivity |]].
  exact (proj2 (proj2 (proj2 (VariableName_reserved_prefixes _ _ _ H)))).
Defined.

(** ** The two writers *)

Lemma bounds_lines_none vars :
  Forall (fun e : string * Var => has_bounds_line (snd e) = false) vars ->
  write_lp_format.bounds_lines vars = bounds_lines vars.
Proof.
  unfold write_lp_format.bounds_lines, bounds_lines.
  induction 1 as [| [k v] vars Hv Hvs IH]; [reflexivity |].
  cbn [map snd] in *. rewrite Hv. cbn [String.concat].
  destruct (map _ vars) eqn:E1; destruct (map (fun '(varName, varObj) =>
      if has_bounds_line varObj
      then " " ++ lower_bound_text (lb varObj) ++ " <= " ++ varName ++ " <= "
               ++ upper_bound_text (ub varObj) ++ nl
      else EmptyString) vars) eqn:E2; cbn in *; congruence.
Qed.

(** X20.  The writer of write-lp-format.js, which the model class uses,
    and the writer of lp-format.js give the same text for a model in which
    every variable has the lower bound 0 and no upper bound: the two differ
    only in the lines of the bounds. *)
Theorem writers_agree_without_bounds_lines m :
  Forall (fun e => has_bounds_line (snd e) = false) (variables m) ->
  Model_toLPFormat m = toLPFormat m.
Proof.
  intros H. unfold Model_toLPFormat, write_lp_format.toLPFormat, toLPFormat.
  now rewrite (bounds_lines_none _ H).
Qed.

Lemma writers_agree_without_bounds_lines_witness :
  Forall (fun e => has_bounds_line (snd e) = false) (variables model_plus2)
  /\ Model_toLPFormat model_plus2 = Ok text_plus2
  /\ Model_toLPFormat model_bounded <> toLPFormat model_bounded.
Proof.
  assert (H : Forall (fun e => has_bounds_line (snd e) = false) (variables model_plus2))
    by (repeat constructor).
  split; [exact H |].
  split; [| discriminate].
  exact (eq_trans (writers_agree_without_bounds_lines model_plus2 H) eq_refl).
Defined.
